(** * GN&C architecture evaluation: mass and cascading failure probability

    A shallow embedding of [GNCCalculator] (src/03_file_based/gnc.py):
    the component catalog, [calc_mass], and [calc_failure_rate] with its
    inner recursive enumeration [_branch_failures].

    Numbers.  The Python code computes with binary64 floats.  The engine is
    embedded twice, with the same control flow and the same order of
    operations:
    - over the rationals [Q]: the expression the code evaluates, read in
      exact arithmetic.  The final [np.log10] then maps into the reals
      extended with the two special values numpy can return ([-inf] for an
      argument of 0, [nan] for a negative one);
    - in module [Binary64], over the binary64 floats of the machine
      ([PrimFloat], round to nearest even): the value the program computes,
      up to the argument of [np.log10].
    Statements on the structure of the enumeration and on exceptions do not
    depend on the arithmetic.  Statements on the order of computed values
    (bounds, monotonicity) are stated for the exact reading, and the
    rounding of the binary64 engine is shown where it breaks them.

    Indices.  An edge index is an unbounded Python integer, modelled in [Z].
    numpy converts an index to a C long before it checks the bounds; the
    model of the matrix write covers the indices that fit ([fits_c_long]),
    for the others numpy raises [OverflowError].  Statements that name the
    exception of the matrix write assume that the indices fit. *)

From Stdlib Require Import Ascii String List Permutation Bool Arith ZArith QArith Lia.
From Stdlib Require Import Reals Qreals Lra Lqa.
From Stdlib Require PrimFloat.
Import ListNotations.

Local Open Scope Q_scope.

(* ===================================================================== *)
(** ** Exceptions and the error monad *)

(** The exceptions the modelled code can raise: a dict lookup with a missing
    key, a numpy index out of bounds, and iteration over [None]. *)
Inductive exn : Type :=
| KeyError (key : string)
| IndexError
| TypeError.

Definition result (A : Type) : Type := (exn + A)%type.

Definition ret {A} (x : A) : result A := inr x.
Definition raise {A} (e : exn) : result A := inl e.
Definition bind {A B} (c : result A) (k : A -> result B) : result B :=
  match c with
  | inl e => inl e
  | inr x => k x
  end.

Notation "x <- c ;; k" := (bind c (fun x => k))
  (at level 61, c at next level, right associativity).

Definition is_error {A} (r : result A) : bool :=
  match r with inl _ => true | inr _ => false end.

(* ===================================================================== *)
(** ** The component catalog *)

(** The outer keys ['S'], ['C'], ['A'] of the two class-level tables. *)
Inductive stage : Type := S_ | C_ | A_.

(** An inner table: type label to value. *)
Definition table : Type := list (string * Q).

Fixpoint getitem (d : table) (key : string) : result Q :=
  match d with
  | [] => raise (KeyError key)
  | (k, v) :: d' => if String.eqb k key then ret v else getitem d' key
  end.

(** The class object [cls]: both methods are classmethods and read
    [cls.mass] and [cls.failure_rate]. *)
Record GNCCalculator : Type := {
  mass : stage -> table;
  failure_rate : stage -> table
}.

(** The tables of the class as written in the source. *)
Definition GNC : GNCCalculator := {|
  mass := fun k =>
    match k with
    | S_ => [("A", 3); ("B", 6); ("C", 9)]
    | C_ => [("A", 3); ("B", 5); ("C", 10)]
    | A_ => [("A", 7 # 2); ("B", 11 # 2); ("C", 19 # 2)]
    end%string;
  failure_rate := fun k =>
    match k with
    | S_ => [("A", 15 # 100000); ("B", 1 # 10000); ("C", 5 # 100000)]
    | C_ => [("A", 1 # 10000); ("B", 4 # 100000); ("C", 2 # 100000)]
    | A_ => [("A", 8 # 100000); ("B", 2 # 10000); ("C", 1 # 10000)]
    end%string
|}.

(** [[d[type_] for type_ in types]]: the lookups happen left to right and the
    first missing key raises. *)
Fixpoint lookup_all (d : table) (types : list string) : result (list Q) :=
  match types with
  | [] => ret []
  | type_ :: rest =>
      v <- getitem d type_ ;;
      vs <- lookup_all d rest ;;
      ret (v :: vs)
  end.

(** Python's [sum] over a list of numbers: a left fold from 0. *)
Definition sum (l : list Q) : Q := fold_left Qplus l 0.

(* ===================================================================== *)
(** ** calc_mass *)

Definition calc_mass (cls : GNCCalculator)
    (sensor_types computer_types : list string)
    (actuator_types : option (list string)) : result Q :=
  ms <- lookup_all (mass cls S_) sensor_types ;;
  let mass_ := sum ms in
  mc <- lookup_all (mass cls C_) computer_types ;;
  let mass_ := mass_ + sum mc in
  match actuator_types with
  | Some actuator_types =>
      ma <- lookup_all (mass cls A_) actuator_types ;;
      ret (mass_ + sum ma)
  | None => ret mass_
  end.

(* ===================================================================== *)
(** ** Connection matrices *)

(** A two-dimensional integer array with its shape; [np.zeros((n, m))] keeps
    the number of columns even when it has no row. *)
Record ndarray : Type := {
  shape0 : nat;
  shape1 : nat;
  data : list (list Z)
}.

Definition np_zeros (n m : nat) : ndarray :=
  {| shape0 := n; shape1 := m; data := repeat (repeat 0%Z m) n |}.

(** An index that numpy can convert to a C long (64 bits).  For an index
    outside this range the conversion raises [OverflowError] before any
    bounds check; [resolve_index] below is numpy's resolution of an index
    within it. *)
Definition fits_c_long (i : Z) : Prop := (- 2 ^ 63 <= i < 2 ^ 63)%Z.

(** numpy's resolution of one index (that fits a C long) along an axis of
    size [n]: an index in [0, n) is itself, an index in [-n, 0) counts from
    the end, anything else raises [IndexError]. *)
Definition resolve_index (n : nat) (i : Z) : result nat :=
  if ((0 <=? i) && (i <? Z.of_nat n))%Z then ret (Z.to_nat i)
  else if ((- Z.of_nat n <=? i) && (i <? 0))%Z then ret (Z.to_nat (i + Z.of_nat n))
  else raise IndexError.

Fixpoint list_set {A} (l : list A) (i : nat) (v : A) : list A :=
  match l, i with
  | [], _ => []
  | _ :: l', O => v :: l'
  | x :: l', S i' => x :: list_set l' i' v
  end.

(** [matrix[i_src, i_tgt] = v] *)
Definition setitem (matrix : ndarray) (i_src i_tgt : Z) (v : Z) : result ndarray :=
  i <- resolve_index (shape0 matrix) i_src ;;
  j <- resolve_index (shape1 matrix) i_tgt ;;
  ret {| shape0 := shape0 matrix; shape1 := shape1 matrix;
         data := list_set (data matrix) i
                   (list_set (nth i (data matrix) []) j v) |}.

Definition edge : Type := (Z * Z)%type.

(** [for i_src, i_tgt in edges: matrix[i_src, i_tgt] = 1] *)
Fixpoint fill_edges (matrix : ndarray) (edges : list edge) : result ndarray :=
  match edges with
  | [] => ret matrix
  | (i_src, i_tgt) :: rest =>
      matrix' <- setitem matrix i_src i_tgt 1%Z ;;
      fill_edges matrix' rest
  end.

(** The loop over [enumerate(obj_conns)], from index [i] on.  An entry of
    [obj_conns] is [None] when the caller passed no list ([act_conns=None]
    with actuators given): iterating over it raises [TypeError].  An index
    past the end of [failure_rates] reads as the empty array; the two call
    shapes of [calc_failure_rate] never reach it. *)
Fixpoint build_conn_matrices (failure_rates : list (list Q))
    (i : nat) (obj_conns : list (option (list edge))) : result (list ndarray) :=
  match obj_conns with
  | [] => ret []
  | edges :: rest =>
      let matrix := np_zeros (length (nth i failure_rates []))
                             (length (nth (i + 1) failure_rates [])) in
      matrix <- match edges with
                | Some edges => fill_edges matrix edges
                | None => raise TypeError
                end ;;
      ms <- build_conn_matrices failure_rates (i + 1) rest ;;
      ret (matrix :: ms)
  end.

(* ===================================================================== *)
(** ** The recursive enumeration of failure scenarios *)

(** Boolean-mask indexing [xs[mask]]. *)
Fixpoint select {A} (mask : list bool) (xs : list A) : list A :=
  match mask, xs with
  | b :: mask', x :: xs' => if b then x :: select mask' xs' else select mask' xs'
  | _, _ => []
  end.

(** [itertools.product] over the per-unit choices, [[False, True]] for a
    unit whose mask entry is set and [[False]] otherwise: the first position
    varies slowest. *)
Fixpoint product (mask : list bool) : list (list bool) :=
  match mask with
  | [] => [[]]
  | b :: mask' =>
      flat_map (fun x => map (cons x) (product mask'))
               (if b then [false; true] else [false])
  end.

(** [any(ok_sources)] *)
Definition any (l : list bool) : bool := existsb (fun b => b) l.

(** [occurrence_prob = rates.copy();
     occurrence_prob[ok_sources] = 1-occurrence_prob[ok_sources]] *)
Fixpoint flip_ok (rates : list Q) (ok_sources : list bool) : list Q :=
  match rates, ok_sources with
  | r :: rates', b :: ok' => (if b then 1 - r else r) :: flip_ok rates' ok'
  | _, _ => rates
  end.

(** [prob = 1.; for partial_prob in l: prob *= partial_prob], the
    multiplications read in exact arithmetic ([Binary64.prod] rounds each
    of them). *)
Definition prod (l : list Q) : Q := fold_left Qmult l 1.

Definition occurrence_prob (rates : list Q) (src_connected_mask ok_sources : list bool) : Q :=
  prod (select src_connected_mask (flip_ok rates ok_sources)).

(** [conn_mat[ok_sources, :].T]: one row per target, holding the entries of
    the surviving sources. *)
Definition conn_mat_ok (conn_mat : ndarray) (ok_sources : list bool) : list (list Z) :=
  map (fun j => map (fun row => nth j row 0%Z) (select ok_sources (data conn_mat)))
      (seq 0 (shape1 conn_mat)).

(** [np.any] of an integer array. *)
Definition np_any (l : list Z) : bool := existsb (fun v => negb (v =? 0)%Z) l.

Definition connected_targets (conn_mat : ndarray) (ok_sources : list bool) : list bool :=
  map np_any (conn_mat_ok conn_mat ok_sources).

Section Engine.

Variable failure_rates : list (list Q).
Variable conn_matrices : list ndarray.

(** The body of the loop for one scenario [ok_sources]: the list of the
    terms it adds to [total_rate], in order ([continue] at the guard adds
    none).  [rec] is the recursive call at [i_rates+1].  The reads
    [failure_rates[i_rates+1]] and [conn_matrices[i_rates]] are in range for
    every [i_rates < len(conn_matrices)]. *)
Definition scenario_terms (rec : list bool -> Q) (i_rates : nat)
    (src_connected_mask ok_sources : list bool) : list Q :=
  let calc_downstream := (i_rates <? length conn_matrices - 1)%nat in
  let rates := nth i_rates failure_rates [] in
  let tgt_rates := nth (i_rates + 1) failure_rates [] in
  let conn_mat := nth i_rates conn_matrices (np_zeros 0 0) in
  if ((0 <? i_rates)%nat && negb (any ok_sources))%bool then []
  else
    let occurrence_prob := occurrence_prob rates src_connected_mask ok_sources in
    let connected_targets := connected_targets conn_mat ok_sources in
    let tgt_failure_rates := select connected_targets tgt_rates in
    if (length tgt_failure_rates =? 0)%nat then [occurrence_prob]
    else
      let all_tgt_fail_prob := prod tgt_failure_rates in
      (occurrence_prob * all_tgt_fail_prob) ::
      (if calc_downstream then [occurrence_prob * rec connected_targets] else []).

(** [total_rate = 0.; total_rate += ...] over all scenarios, the additions
    read in exact arithmetic ([Binary64.total_rate_of] rounds each of
    them). *)
Definition total_rate_of (terms : list Q) : Q := fold_left Qplus terms 0.

(** The mask argument: [None] stands for all units of the stage. *)
Definition mask_or_ones (i_rates : nat) (src_connected_mask : option (list bool)) : list bool :=
  match src_connected_mask with
  | Some m => m
  | None => repeat true (length (nth i_rates failure_rates []))
  end.

(** [_branch_failures], with the recursion depth made explicit: each call
    recurses at [i_rates+1] only while [i_rates < len(conn_matrices)-1].
    The mask has one entry per unit of stage [i_rates] in every call the
    source makes (numpy's boolean indexing raises otherwise), so the
    enumeration over [range(len(rates))] is the enumeration over the mask.
    [branch_failures_unfold] below gives the recursion without the depth. *)
Fixpoint branch_failures_fuel (fuel : nat) (i_rates : nat)
    (src_connected_mask : option (list bool)) : Q :=
  match fuel with
  | O => 0
  | S fuel' =>
      let mask := mask_or_ones i_rates src_connected_mask in
      total_rate_of
        (flat_map
           (scenario_terms (fun m => branch_failures_fuel fuel' (i_rates + 1) (Some m))
                           i_rates mask)
           (product mask))
  end.

Definition _branch_failures (i_rates : nat) (src_connected_mask : option (list bool)) : Q :=
  branch_failures_fuel (length conn_matrices - i_rates) i_rates src_connected_mask.

End Engine.

(* ===================================================================== *)
(** ** np.log10 and calc_failure_rate *)

(** The values [np.log10] returns on a float: on 0 it returns [-inf] and on
    a negative argument [nan], in both cases with a warning, not an
    exception. *)
Inductive xreal : Type :=
| NegInf
| Finite (x : R)
| NaN.

Definition log10 (x : R) : R := (ln x / ln 10)%R.

Definition np_log10 (p : Q) : xreal :=
  match Qcompare p 0 with
  | Eq => NegInf
  | Lt => NaN
  | Gt => Finite (log10 (Q2R p))
  end.

(** The part of [calc_failure_rate] after the catalog lookups: connection
    matrices, then the root call [_branch_failures()]. *)
Definition failure_probability (failure_rates : list (list Q))
    (obj_conns : list (option (list edge))) : result Q :=
  conn_matrices <- build_conn_matrices failure_rates 0 obj_conns ;;
  ret (_branch_failures failure_rates conn_matrices 0 None).

(** The catalog lookups at the head of [calc_failure_rate]. *)
Definition get_failure_rates (cls : GNCCalculator)
    (sensor_types computer_types : list string) (conns : list edge)
    (actuator_types : option (list string)) (act_conns : option (list edge))
    : result (list (list Q) * list (option (list edge))) :=
  let rate := failure_rate cls in
  s <- lookup_all (rate S_) sensor_types ;;
  c <- lookup_all (rate C_) computer_types ;;
  match actuator_types with
  | Some actuator_types =>
      a <- lookup_all (rate A_) actuator_types ;;
      ret ([s; c; a], [Some conns; act_conns])
  | None => ret ([s; c], [Some conns])
  end.

Definition calc_failure_rate (cls : GNCCalculator)
    (sensor_types computer_types : list string) (conns : list edge)
    (actuator_types : option (list string)) (act_conns : option (list edge))
    : result xreal :=
  fo <- get_failure_rates cls sensor_types computer_types conns actuator_types act_conns ;;
  failure_rate <- failure_probability (fst fo) (snd fo) ;;
  ret (np_log10 failure_rate).

(* ===================================================================== *)
(** ** The engine in binary64

    The same functions over the floats of the machine: every [+], [*] and
    [1 - r] is the IEEE 754 binary64 operation, rounded to nearest even, as
    Python and numpy compute it.  The definitions are those above with the
    float operations in place of the rational ones; the enumeration, the
    masks and the connection matrices are shared.  The module stops at the
    argument of [np.log10]. *)

Module Binary64.

Import PrimFloat.

#[local] Set Warnings "-inexact-float".

Definition table : Type := list (string * float).

Fixpoint getitem (d : table) (key : string) : result float :=
  match d with
  | [] => raise (KeyError key)
  | (k, v) :: d' => if String.eqb k key then ret v else getitem d' key
  end.

(** [GNCCalculator.failure_rate]: the decimal literals of the source, each
    read as the nearest binary64 value. *)
Definition failure_rate (k : stage) : table :=
  match k with
  | S_ => [("A", 0.00015); ("B", 0.0001); ("C", 0.00005)]
  | C_ => [("A", 0.0001); ("B", 0.00004); ("C", 0.00002)]
  | A_ => [("A", 0.00008); ("B", 0.0002); ("C", 0.0001)]
  end%string%float.

Fixpoint lookup_all (d : table) (types : list string) : result (list float) :=
  match types with
  | [] => ret []
  | type_ :: rest =>
      v <- getitem d type_ ;;
      vs <- lookup_all d rest ;;
      ret (v :: vs)
  end.

Fixpoint build_conn_matrices (failure_rates : list (list float))
    (i : nat) (obj_conns : list (option (list edge))) : result (list ndarray) :=
  match obj_conns with
  | [] => ret []
  | edges :: rest =>
      let matrix := np_zeros (length (nth i failure_rates []))
                             (length (nth (i + 1) failure_rates [])) in
      matrix <- match edges with
                | Some edges => fill_edges matrix edges
                | None => raise TypeError
                end ;;
      ms <- build_conn_matrices failure_rates (i + 1) rest ;;
      ret (matrix :: ms)
  end.

(** [occurrence_prob[ok_sources] = 1-occurrence_prob[ok_sources]] *)
Fixpoint flip_ok (rates : list float) (ok_sources : list bool) : list float :=
  match rates, ok_sources with
  | r :: rates', b :: ok' => (if b then 1 - r else r)%float :: flip_ok rates' ok'
  | _, _ => rates
  end.

(** [prob = 1.; for partial_prob in l: prob *= partial_prob] *)
Definition prod (l : list float) : float := fold_left mul l 1%float.

Definition occurrence_prob (rates : list float)
    (src_connected_mask ok_sources : list bool) : float :=
  prod (select src_connected_mask (flip_ok rates ok_sources)).

Section Engine.

Variable failure_rates : list (list float).
Variable conn_matrices : list ndarray.

Definition scenario_terms (rec : list bool -> float) (i_rates : nat)
    (src_connected_mask ok_sources : list bool) : list float :=
  let calc_downstream := (i_rates <? length conn_matrices - 1)%nat in
  let rates := nth i_rates failure_rates [] in
  let tgt_rates := nth (i_rates + 1) failure_rates [] in
  let conn_mat := nth i_rates conn_matrices (np_zeros 0 0) in
  if ((0 <? i_rates)%nat && negb (any ok_sources))%bool then []
  else
    let occurrence_prob := occurrence_prob rates src_connected_mask ok_sources in
    let connected_targets := connected_targets conn_mat ok_sources in
    let tgt_failure_rates := select connected_targets tgt_rates in
    if (length tgt_failure_rates =? 0)%nat then [occurrence_prob]
    else
      let all_tgt_fail_prob := prod tgt_failure_rates in
      (occurrence_prob * all_tgt_fail_prob)%float ::
      (if calc_downstream then [(occurrence_prob * rec connected_targets)%float] else []).

(** [total_rate = 0.; total_rate += ...] over all scenarios. *)
Definition total_rate_of (terms : list float) : float := fold_left add terms 0%float.

Definition mask_or_ones (i_rates : nat) (src_connected_mask : option (list bool)) : list bool :=
  match src_connected_mask with
  | Some m => m
  | None => repeat true (length (nth i_rates failure_rates []))
  end.

Fixpoint branch_failures_fuel (fuel : nat) (i_rates : nat)
    (src_connected_mask : option (list bool)) : float :=
  match fuel with
  | O => 0%float
  | S fuel' =>
      let mask := mask_or_ones i_rates src_connected_mask in
      total_rate_of
        (flat_map
           (scenario_terms (fun m => branch_failures_fuel fuel' (i_rates + 1) (Some m))
                           i_rates mask)
           (product mask))
  end.

Definition _branch_failures (i_rates : nat) (src_connected_mask : option (list bool)) : float :=
  branch_failures_fuel (length conn_matrices - i_rates) i_rates src_connected_mask.

End Engine.

(** The value [calc_failure_rate] passes to [np.log10]: connection
    matrices, then the root call. *)
Definition failure_probability (failure_rates : list (list float))
    (obj_conns : list (option (list edge))) : result float :=
  conn_matrices <- build_conn_matrices failure_rates 0 obj_conns ;;
  ret (_branch_failures failure_rates conn_matrices 0 None).

Definition get_failure_rates
    (sensor_types computer_types : list string) (conns : list edge)
    (actuator_types : option (list string)) (act_conns : option (list edge))
    : result (list (list float) * list (option (list edge))) :=
  s <- lookup_all (failure_rate S_) sensor_types ;;
  c <- lookup_all (failure_rate C_) computer_types ;;
  match actuator_types with
  | Some actuator_types =>
      a <- lookup_all (failure_rate A_) actuator_types ;;
      ret ([s; c; a], [Some conns; act_conns])
  | None => ret ([s; c], [Some conns])
  end.

(** [calc_failure_rate] of the class up to its last line: the local
    [failure_rate] whose [np.log10] is returned. *)
Definition calc_failure_probability
    (sensor_types computer_types : list string) (conns : list edge)
    (actuator_types : option (list string)) (act_conns : option (list edge))
    : result float :=
  fo <- get_failure_rates sensor_types computer_types conns actuator_types act_conns ;;
  failure_probability (fst fo) (snd fo).

End Binary64.

(* ===================================================================== *)
(** ** Predicates used in the statements *)

(** [key in d] *)
Fixpoint contains (d : table) (key : string) : bool :=
  match d with
  | [] => false
  | (k, _) :: d' => String.eqb k key || contains d' key
  end.

(** A label is unknown for a stage kind when neither table of the class has
    it under that kind. *)
Definition unknown_label (cls : GNCCalculator) (k : stage) (label : string) : Prop :=
  contains (mass cls k) label = false /\ contains (failure_rate cls k) label = false.

Definition has_unknown_label (cls : GNCCalculator)
    (sensor_types computer_types : list string)
    (actuator_types : option (list string)) : Prop :=
  exists label,
    (In label sensor_types /\ unknown_label cls S_ label) \/
    (In label computer_types /\ unknown_label cls C_ label) \/
    (exists ats, actuator_types = Some ats /\ In label ats /\ unknown_label cls A_ label).

Definition raises_KeyError {A} (r : result A) : Prop :=
  exists k, r = inl (KeyError k).

(** An index that numpy rejects along an axis of size [n]. *)
Definition out_of_bounds (n : nat) (i : Z) : Prop :=
  (i < - Z.of_nat n \/ Z.of_nat n <= i)%Z.

(** Some edge of the list has a target index out of bounds for a target stage
    of [n_tgt] units. *)
Definition dangling (n_tgt : nat) (edges : list edge) : Prop :=
  exists e, In e edges /\ out_of_bounds n_tgt (snd e).

(** Both indices of every edge fit a C long. *)
Definition edges_fit (edges : list edge) : Prop :=
  Forall (fun e => fits_c_long (fst e) /\ fits_c_long (snd e)) edges.

(** The all-zero catalog of a subclass that overrides [failure_rate]. *)
Definition GNC_never_failing : GNCCalculator := {|
  mass := mass GNC;
  failure_rate := fun _ => [("A", 0)]%string
|}.

(** The scenario in which every unit is marked failed. *)
Definition all_failed (mask : list bool) : list bool := repeat false (length mask).

(** A scenario passes the guard at the head of the loop body. *)
Definition retained (i_rates : nat) (ok_sources : list bool) : Prop :=
  ((0 <? i_rates)%nat && negb (any ok_sources))%bool = false.

(** No surviving source of the scenario has a nonzero entry in its row. *)
Definition no_reachable_target (conn_mat : ndarray) (ok_sources : list bool) : Prop :=
  forall i j, nth i ok_sources false = true ->
              nth j (nth i (data conn_mat) []) 0%Z = 0%Z.

(** The 1x1 connection matrix holding one edge. *)
Definition one_edge_matrix : ndarray := {| shape0 := 1; shape1 := 1; data := [[1%Z]] |}.

(** [matrix[i, j]], reading 0 outside the stored data. *)
Definition entry (matrix : ndarray) (i j : nat) : Z :=
  nth j (nth i (data matrix) []) 0%Z.

(** The stored rows agree with the declared shape. *)
Definition well_shaped (matrix : ndarray) : Prop :=
  length (data matrix) = shape0 matrix /\
  Forall (fun row => length row = shape1 matrix) (data matrix).

(** The edge writes position [(a, b)] of a matrix of shape [(n, m)]. *)
Definition hits (n m : nat) (a b : nat) (e : edge) : bool :=
  match resolve_index n (fst e), resolve_index m (snd e) with
  | inr i, inr j => ((i =? a)%nat && (j =? b)%nat)%bool
  | _, _ => false
  end.

(** Both indices of the edge resolve in a matrix of shape [(n, m)]. *)
Definition resolvable (n m : nat) (e : edge) : bool :=
  match resolve_index n (fst e), resolve_index m (snd e) with
  | inr _, inr _ => true
  | _, _ => false
  end.

(** Two edge lists with the same set of (source, target) pairs. *)
Definition same_edges (es es' : list edge) : Prop :=
  forall e, In e es <-> In e es'.

Definition same_edges_opt (es es' : option (list edge)) : Prop :=
  match es, es' with
  | Some l, Some l' => same_edges l l'
  | None, None => True
  | _, _ => False
  end.

(* ===================================================================== *)
(** ** The enumeration read as an expectation *)

(** The expected value of [F] over the scenarios of a call: each unit of the
    mask fails with its rate and survives otherwise, independently; a unit
    outside the mask is failed. *)
Fixpoint expect (rates : list Q) (mask : list bool) (F : list bool -> Q) : Q :=
  match mask, rates with
  | b :: mask', r :: rates' =>
      if b then r * expect rates' mask' (fun ok => F (false :: ok))
                + (1 - r) * expect rates' mask' (fun ok => F (true :: ok))
      else expect rates' mask' (fun ok => F (false :: ok))
  | _, _ => F []
  end.

Section Reference.

Variable failure_rates : list (list Q).
Variable conn_matrices : list ndarray.

(** The probability that no chain of surviving connected units reaches the
    last stage, given the units of stage [i] in [mask] are the reachable
    ones and [fuel] transitions remain: with no transition left, all
    reachable units of the last stage must fail. *)
Fixpoint full_failure (fuel i : nat) (mask : list bool) : Q :=
  match fuel with
  | O => prod (select mask (nth i failure_rates []))
  | S fuel' =>
      expect (nth i failure_rates []) mask
        (fun ok => full_failure fuel' (i + 1)
                     (connected_targets (nth i conn_matrices (np_zeros 0 0)) ok))
  end.

End Reference.

Definition unit_interval (r : Q) : Prop := 0 <= r /\ r <= 1.

Definition rates_in_unit_interval (failure_rates : list (list Q)) : Prop :=
  Forall (Forall unit_interval) failure_rates.

Definition catalog_in_unit_interval (cls : GNCCalculator) : Prop :=
  forall k, Forall (fun kv => unit_interval (snd kv)) (failure_rate cls k).

(** Every connection matrix has one column per unit of its target stage. *)
Definition shapes_ok (failure_rates : list (list Q)) (conn_matrices : list ndarray) : Prop :=
  forall i, (i < length conn_matrices)%nat ->
    shape1 (nth i conn_matrices (np_zeros 0 0)) = length (nth (i + 1) failure_rates []).

(** Pointwise order on scenarios and masks: every unit set on the left is
    set on the right. *)
Definition ble (l l' : list bool) : Prop := Forall2 (fun a b => implb a b = true) l l'.


(** The order of the values of [np.log10]; [nan] is comparable to nothing. *)
Definition xle (a b : xreal) : Prop :=
  match a, b with
  | NegInf, NegInf => True
  | NegInf, Finite _ => True
  | Finite x, Finite y => (x <= y)%R
  | _, _ => False
  end.

(** A rate and an increased rate, both probabilities. *)
Definition rate_le (r r' : Q) : Prop := 0 <= r /\ r <= r' /\ r' <= 1.


(** [F] does not increase when more units survive. *)
Definition antitone (F : list bool -> Q) : Prop :=
  forall ok ok', ble ok ok' -> F ok' <= F ok.

(* ===================================================================== *)
(** ** Predicates for the behaviour of the two calculators *)

(** The first label of the list that the table lacks: the key of the
    [KeyError] a comprehension over the list raises. *)
Definition first_missing (d : table) (types : list string) : option string :=
  find (fun t => negb (contains d t)) types.

(** The value a lookup returns, 0 standing for a missing key. *)
Definition lookup_or_zero (d : table) (key : string) : Q :=
  match getitem d key with
  | inr v => v
  | inl _ => 0
  end.

(** The exception [calc_mass] raises, if any. *)
Definition calc_mass_exception (cls : GNCCalculator)
    (sensor_types computer_types : list string)
    (actuator_types : option (list string)) : option exn :=
  match first_missing (mass cls S_) sensor_types with
  | Some k => Some (KeyError k)
  | None =>
      match first_missing (mass cls C_) computer_types with
      | Some k => Some (KeyError k)
      | None =>
          match actuator_types with
          | Some ats =>
              match first_missing (mass cls A_) ats with
              | Some k => Some (KeyError k)
              | None => None
              end
          | None => None
          end
      end
  end.

(** Every edge of the list resolves in a matrix of shape [(n, m)]. *)
Definition all_resolvable (n m : nat) (edges : list edge) : bool :=
  forallb (resolvable n m) edges.

(** The exception the matrix construction raises for one edge list. *)
Definition edges_exception (n m : nat) (edges : option (list edge)) : option exn :=
  match edges with
  | None => Some TypeError
  | Some es => if all_resolvable n m es then None else Some IndexError
  end.

(** The exception [calc_failure_rate] raises, if any: the catalog lookups
    come first, in the order sensors, computers, actuators; then the edges
    of [conns]; then those of [act_conns]. *)
Definition calc_failure_rate_exception (cls : GNCCalculator)
    (sensor_types computer_types : list string) (conns : list edge)
    (actuator_types : option (list string)) (act_conns : option (list edge))
    : option exn :=
  match first_missing (failure_rate cls S_) sensor_types with
  | Some k => Some (KeyError k)
  | None =>
      match first_missing (failure_rate cls C_) computer_types with
      | Some k => Some (KeyError k)
      | None =>
          let n_s := length sensor_types in
          let n_c := length computer_types in
          match actuator_types with
          | Some ats =>
              match first_missing (failure_rate cls A_) ats with
              | Some k => Some (KeyError k)
              | None =>
                  match edges_exception n_s n_c (Some conns) with
                  | Some e => Some e
                  | None => edges_exception n_c (length ats) act_conns
                  end
              end
          | None => edges_exception n_s n_c (Some conns)
          end
      end
  end.

(** An index as numpy reads it: an index counted from the end is replaced
    by the position it denotes, any other index is kept. *)
Definition normalize_index (n : nat) (i : Z) : Z :=
  match resolve_index n i with
  | inr k => Z.of_nat k
  | inl _ => i
  end.

Definition normalize_edge (n m : nat) (e : edge) : edge :=
  (normalize_index n (fst e), normalize_index m (snd e)).

(** Every failure rate of the class is a probability other than 0. *)
Definition catalog_positive (cls : GNCCalculator) : Prop :=
  forall k, Forall (fun kv => 0 < snd kv /\ snd kv <= 1) (failure_rate cls k).

Definition rates_positive (failure_rates : list (list Q)) : Prop :=
  Forall (Forall (fun r => 0 < r)) failure_rates.

(** Edge lists given, and each list of the left one a sub-list of the list
    at its place on the right. *)
Definition edges_incl (o o' : option (list edge)) : Prop :=
  match o, o' with
  | Some es, Some es' => incl es es'
  | _, _ => False
  end.

(** Every nonzero entry of the first matrix is nonzero in the second. *)
Definition matrix_le (M M' : ndarray) : Prop :=
  well_shaped M /\ well_shaped M' /\
  shape0 M = shape0 M' /\ shape1 M = shape1 M' /\
  forall a b, entry M a b <> 0%Z -> entry M' a b <> 0%Z.

(** Every pair of a source and a target unit is an edge of the list. *)
Definition fully_connected (n m : nat) (edges : list edge) : Prop :=
  forall i j, (i < n)%nat -> (j < m)%nat -> In (Z.of_nat i, Z.of_nat j) edges.

(** The number of units of an input of [calc_mass]. *)
Definition unit_count (sensor_types computer_types : list string)
    (actuator_types : option (list string)) : nat :=
  length sensor_types + length computer_types +
  match actuator_types with Some ats => length ats | None => 0 end.

(** Two optional label lists that are reorderings of each other. *)
Definition permutation_opt (o o' : option (list string)) : Prop :=
  match o, o' with
  | Some l, Some l' => Permutation l l'
  | None, None => True
  | _, _ => False
  end.

(** The probability that each of the [n] stages from stage [i] on keeps a
    surviving unit: the product of [1 - prod rates] over these stages. *)
Fixpoint stage_survival (failure_rates : list (list Q)) (i n : nat) : Q :=
  match n with
  | O => 1
  | S n' => (1 - prod (nth i failure_rates [])) * stage_survival failure_rates (i + 1) n'
  end.

(** Every entry within the shape of the matrix is set. *)
Definition full_matrix (M : ndarray) : Prop :=
  forall a b, (a < shape0 M)%nat -> (b < shape1 M)%nat -> entry M a b <> 0%Z.

(** Every transition has its edge list, holding every pair of units. *)
Definition all_fully_connected (failure_rates : list (list Q))
    (obj_conns : list (option (list edge))) : Prop :=
  forall k, (k < length obj_conns)%nat ->
    exists es, nth_error obj_conns k = Some (Some es) /\
               fully_connected (length (nth k failure_rates []))
                               (length (nth (k + 1) failure_rates [])) es.

(** The matrix of shape [(n, m)] with every entry set. *)
Definition np_ones (n m : nat) : ndarray :=
  {| shape0 := n; shape1 := m; data := repeat (repeat 1%Z m) n |}.

(* ===================================================================== *)
(** ** The JSON file evaluator

    [GNCFileCMDEvaluator] (src/03_file_based/gnc_file_evaluation_cmd_line.py;
    [GNCFileEvaluator] of src/05_remote_file_based/gnc_adore_opt.py has the
    same three methods).  The input is the JSON document after [json.load],
    read through the keys the code uses; the records below fix its schema
    (a document of another shape is outside the model).  Label and port
    identifiers are strings, instance indices integers.  Reading and
    writing the files is left out: [gnc_json_evaluate] maps the document to
    its updated list of outputs. *)

(** What the evaluators can raise besides the exceptions of the
    calculator: a failed [assert], the [RuntimeError] for an unknown target,
    with its message, and (in the XML evaluator) an attribute read on
    [None]. *)
Inductive py_exn : Type :=
| Raised (e : exn)
| AssertionError
| RuntimeError (msg : string)
| AttributeError.

Definition py_result (A : Type) : Type := (py_exn + A)%type.

Definition py_bind {A B} (c : py_result A) (k : A -> py_result B) : py_result B :=
  match c with
  | inl e => inl e
  | inr x => k x
  end.

Notation "x <~ c ;; k" := (py_bind c (fun x => k))
  (at level 61, c at next level, right associativity).

(** A call into the calculator: its exceptions propagate. *)
Definition lift {A} (r : result A) : py_result A :=
  match r with
  | inl e => inl (Raised e)
  | inr x => inr x
  end.

Record attribute_data : Type := { values : list string }.
Record out_port_data : Type := { targetIds : list string }.
Record in_port_data : Type := { id_ : string }.

Record instance_data : Type := {
  index : Z;
  attributes : list attribute_data;
  outputPorts : list out_port_data;
  inputPorts : list in_port_data
}.

Record component_data : Type := {
  ref : string;
  instances : list instance_data
}.

(** A number written into an output: the mass, or what [np.log10] gave. *)
Inductive py_float : Type :=
| Float (q : Q)
| Log10 (x : xreal).

Record output_data : Type := {
  output_ref : string;
  value : option py_float;
  units : option string
}.

Record json_data : Type := {
  components : list component_data;
  outputs : list output_data
}.

(** [l[0]] on a list *)
Definition first {A} (l : list A) : py_result A :=
  match l with
  | x :: _ => inr x
  | [] => inl (Raised IndexError)
  end.

(** [instance_data['attributes'][0]['values'][0]], then the [assert]. *)
Definition instance_type (instance : instance_data) : py_result string :=
  a <~ first (attributes instance) ;;
  element_type <~ first (values a) ;;
  if existsb (String.eqb element_type) ["A"; "B"; "C"]%string
  then inr element_type
  else inl AssertionError.

Fixpoint instance_types (l : list instance_data) : py_result (list string) :=
  match l with
  | [] => inr []
  | instance :: rest =>
      t <~ instance_type instance ;;
      ts <~ instance_types rest ;;
      inr (t :: ts)
  end.

Fixpoint _get_element_types_loop (comps : list component_data) (element_ref : string)
    : py_result (list string) :=
  match comps with
  | [] => inr []
  | component :: rest =>
      ts <~ (if String.eqb (ref component) element_ref
             then instance_types (instances component)
             else inr []) ;;
      ts' <~ _get_element_types_loop rest element_ref ;;
      inr (ts ++ ts')
  end.

Definition _get_element_types (data : json_data) (element_ref : string)
    : py_result (list string) :=
  _get_element_types_loop (components data) element_ref.

(** The pairs [(instance_data['index'], target_id)] of one instance. *)
Definition instance_connections (instance : instance_data) : list (Z * string) :=
  flat_map (fun port => map (fun target_id => (index instance, target_id)) (targetIds port))
           (outputPorts instance).

(** The first loop of [_get_element_connections]: the connections of the
    components named [src_ref]. *)
Definition connections_of (comps : list component_data) (src_ref : string)
    : list (Z * string) :=
  flat_map (fun component =>
              if String.eqb (ref component) src_ref
              then flat_map instance_connections (instances component)
              else [])
           comps.

(** The assignments [conn_target_idx_map[id] = index] of the same loop, in
    the order they are made: a component named [src_ref] takes the first
    branch, so it makes none even when [tgt_ref] is the same name. *)
Definition target_assignments (comps : list component_data) (src_ref tgt_ref : string)
    : list (string * Z) :=
  flat_map (fun component =>
              if String.eqb (ref component) src_ref then []
              else if String.eqb (ref component) tgt_ref
              then flat_map (fun instance =>
                               map (fun port => (id_ port, index instance))
                                   (inputPorts instance))
                            (instances component)
              else [])
           comps.

(** A dict as the list of its assignments in order: the last one of a key
    is its value. *)
Fixpoint dict_get (assignments : list (string * Z)) (key : string) : option Z :=
  match assignments with
  | [] => None
  | (k, v) :: rest =>
      match dict_get rest key with
      | Some v' => Some v'
      | None => if String.eqb k key then Some v else None
      end
  end.

(** The second loop: target ids to instance indices. *)
Fixpoint connection_indices (conn_target_idx_map : list (string * Z))
    (connections : list (Z * string)) : py_result (list edge) :=
  match connections with
  | [] => inr []
  | (i_src, target_id) :: rest =>
      match dict_get conn_target_idx_map target_id with
      | None => inl (RuntimeError ("Target ID not found: " ++ target_id))
      | Some i_tgt =>
          es <~ connection_indices conn_target_idx_map rest ;;
          inr ((i_src, i_tgt) :: es)
      end
  end.

Definition _get_element_connections (data : json_data) (src_ref tgt_ref : string)
    : py_result (list edge) :=
  connection_indices (target_assignments (components data) src_ref tgt_ref)
                     (connections_of (components data) src_ref).

(** The loop over [data['outputs']]. *)
Fixpoint set_outputs (sensor_types computer_types : list string)
    (sensor_computer_conns : list edge) (actuator_types : option (list string))
    (computer_actuator_conns : option (list edge)) (outs : list output_data)
    : py_result (list output_data) :=
  match outs with
  | [] => inr []
  | output :: rest =>
      output' <~
        (if String.eqb (output_ref output) "mass" then
           m <~ lift (calc_mass GNC sensor_types computer_types actuator_types) ;;
           inr {| output_ref := output_ref output;
                  value := Some (Float m); units := Some "kg"%string |}
         else if String.eqb (output_ref output) "failure-rate" then
           v <~ lift (calc_failure_rate GNC sensor_types computer_types
                        sensor_computer_conns actuator_types computer_actuator_conns) ;;
           inr {| output_ref := output_ref output;
                  value := Some (Log10 v); units := units output |}
         else inr output) ;;
      rest' <~ set_outputs sensor_types computer_types sensor_computer_conns
                 actuator_types computer_actuator_conns rest ;;
      inr (output' :: rest')
  end.

Definition gnc_json_evaluate (data : json_data) : py_result (list output_data) :=
  sensor_types <~ _get_element_types data "sensor" ;;
  computer_types <~ _get_element_types data "computer" ;;
  actuator_types <~ _get_element_types data "actuator" ;;
  let actuator_types :=
    if (length actuator_types =? 0)%nat then None else Some actuator_types in
  sensor_computer_conns <~ _get_element_connections data "sensor" "computer" ;;
  computer_actuator_conns <~
    match actuator_types with
    | Some _ => c <~ _get_element_connections data "computer" "actuator" ;; inr (Some c)
    | None => inr None
    end ;;
  set_outputs sensor_types computer_types sensor_computer_conns
    actuator_types computer_actuator_conns (outputs data).

(** One of the three labels the [assert] admits. *)
Definition is_ABC (t : string) : Prop :=
  t = "A"%string \/ t = "B"%string \/ t = "C"%string.

(** The instances of the components with the given name, in document
    order. *)
Definition stage_instances (data : json_data) (element_ref : string) : list instance_data :=
  flat_map (fun component =>
              if String.eqb (ref component) element_ref then instances component else [])
           (components data).

(** The instances of a stage carry the indices 0, 1, ... in document order. *)
Definition well_indexed (data : json_data) (element_ref : string) : Prop :=
  map index (stage_instances data element_ref)
  = map Z.of_nat (seq 0 (length (stage_instances data element_ref))).

(** Every instance of the stage has a first attribute whose first value is
    an admitted label. *)
Definition well_typed (data : json_data) (element_ref : string) : Prop :=
  Forall (fun instance => exists t, instance_type instance = inr t)
         (stage_instances data element_ref).

(** Every target id of a source instance is the id of an input port of an
    instance of a target component. *)
Definition targets_known (data : json_data) (src_ref tgt_ref : string) : Prop :=
  Forall (fun c => dict_get (target_assignments (components data) src_ref tgt_ref) (snd c)
                   <> None)
         (connections_of (components data) src_ref).

(** The exceptions the evaluation of a document can end in. *)
Definition evaluation_error (e : py_exn) : Prop :=
  e = Raised IndexError \/ e = AssertionError \/ exists msg, e = RuntimeError msg.

(** A small document: two sensors, two computers, no actuators. *)
Definition sample_data : json_data := {|
  components := [
    {| ref := "sensor";
       instances := [
         {| index := 0; attributes := [{| values := ["A"%string] |}];
            outputPorts := [{| targetIds := ["c0"%string] |}]; inputPorts := [] |};
         {| index := 1; attributes := [{| values := ["B"%string] |}];
            outputPorts := [{| targetIds := ["c0"; "c1"]%string |}]; inputPorts := [] |}] |};
    {| ref := "computer";
       instances := [
         {| index := 0; attributes := [{| values := ["C"%string] |}];
            outputPorts := []; inputPorts := [{| id_ := "c0" |}] |};
         {| index := 1; attributes := [{| values := ["A"%string] |}];
            outputPorts := []; inputPorts := [{| id_ := "c1" |}] |}] |}]%string;
  outputs := [
    {| output_ref := "mass"; value := None; units := None |};
    {| output_ref := "failure-rate"; value := None; units := None |};
    {| output_ref := "cost"; value := Some (Float 1); units := Some "EUR" |}]%string
|}.

(** How the loop over the outputs leaves one output, given the lists the
    evaluation has extracted from the document. *)
Definition output_updated (sensor_types computer_types : list string)
    (sensor_computer_conns : list edge) (actuator_types : option (list string))
    (computer_actuator_conns : option (list edge)) (o o' : output_data) : Prop :=
  output_ref o' = output_ref o /\
  (output_ref o = "mass"%string ->
     units o' = Some "kg"%string /\
     exists m, calc_mass GNC sensor_types computer_types actuator_types = inr m /\
               value o' = Some (Float m) /\ 0 <= m) /\
  (output_ref o = "failure-rate"%string -> output_ref o <> "mass"%string ->
     units o' = units o /\
     exists v, calc_failure_rate GNC sensor_types computer_types sensor_computer_conns
                 actuator_types computer_actuator_conns = inr v /\
               value o' = Some (Log10 v)) /\
  (output_ref o <> "mass"%string -> output_ref o <> "failure-rate"%string -> o' = o).

(** Every instance index of the document fits a C long. *)
Definition indices_fit (data : json_data) : Prop :=
  Forall (fun component =>
            Forall (fun instance => fits_c_long (index instance)) (instances component))
         (components data).

(* ===================================================================== *)
(** ** The XML node factory evaluator

    [GNCNodeFactoryEvaluator] (src/04_file_based_nfe/
    gnc_node_factory_evaluator.py and src/05_remote_file_based/
    gnc_node_factory_evaluation.py): the two static methods that read the
    element types and the connections from the parsed tree.  The tree and
    lxml's [xpath] are parameters; an element is read through what the code
    asks of it: its [uID] attribute, and the text of its [type] and
    [targets] children ([None] when the child is missing, [Some None] when
    it has no text). *)

Record xml_element : Type := {
  uID : option string;
  type_child : option (option string);
  targets_child : option (option string)
}.

(** [text.split(',')]: the pieces between the commas, one more than there
    are commas. *)
Fixpoint split_comma (text : string) : list string :=
  match text with
  | EmptyString => [EmptyString]
  | String c rest =>
      if Ascii.eqb c ","%char then EmptyString :: split_comma rest
      else match split_comma rest with
           | piece :: pieces => String c piece :: pieces
           | [] => [String c EmptyString]
           end
  end.

(** [','.join(pieces)] *)
Fixpoint join_comma (pieces : list string) : string :=
  match pieces with
  | [] => EmptyString
  | [piece] => piece
  | piece :: rest => (piece ++ String ","%char (join_comma rest))%string
  end.

Module Xml.

Section Tree.

Variable etree : Type.
Variable xpath : etree -> string -> list xml_element.

(** [obj_el.find('type').text], then the [assert]. *)
Definition element_type (obj_el : xml_element) : py_result string :=
  match type_child obj_el with
  | None => inl AttributeError
  | Some None => inl AssertionError
  | Some (Some obj_type) =>
      if existsb (String.eqb obj_type) ["A"; "B"; "C"]%string
      then inr obj_type
      else inl AssertionError
  end.

Fixpoint element_types (els : list xml_element) : py_result (list string) :=
  match els with
  | [] => inr []
  | obj_el :: rest =>
      t <~ element_type obj_el ;;
      ts <~ element_types rest ;;
      inr (t :: ts)
  end.

Definition _get_element_types (tree : etree) (path : string) : py_result (list string) :=
  element_types (xpath tree path).

(** The loop over [enumerate(tree.xpath(tgt_xpath))], from position [i]:
    the assignments [tgt_uid_map[obj_uid] = i] in order. *)
Fixpoint tgt_uid_assignments (i : nat) (els : list xml_element)
    : py_result (list (string * Z)) :=
  match els with
  | [] => inr []
  | tgt_el :: rest =>
      match uID tgt_el with
      | None => inl (Raised (KeyError "uID"))
      | Some obj_uid =>
          m <~ tgt_uid_assignments (i + 1) rest ;;
          inr ((obj_uid, Z.of_nat i) :: m)
      end
  end.

(** The inner loop over the target uids of one source element. *)
Fixpoint uid_connections (tgt_uid_map : list (string * Z)) (i : nat)
    (target_uids : list string) : py_result (list edge) :=
  match target_uids with
  | [] => inr []
  | tgt_uid :: rest =>
      match dict_get tgt_uid_map tgt_uid with
      | None => inl (Raised (KeyError tgt_uid))
      | Some j =>
          es <~ uid_connections tgt_uid_map i rest ;;
          inr ((Z.of_nat i, j) :: es)
      end
  end.

(** The loop over [enumerate(tree.xpath(src_xpath))], from position [i]. *)
Fixpoint src_connections (tgt_uid_map : list (string * Z)) (i : nat)
    (els : list xml_element) : py_result (list edge) :=
  match els with
  | [] => inr []
  | src_el :: rest =>
      match targets_child src_el with
      | Some (Some text) =>
          es <~ uid_connections tgt_uid_map i (split_comma text) ;;
          es' <~ src_connections tgt_uid_map (i + 1) rest ;;
          inr (es ++ es')
      | _ => inl AttributeError
      end
  end.

Definition _get_element_connections (tree : etree) (src_xpath tgt_xpath : string)
    : py_result (list edge) :=
  tgt_uid_map <~ tgt_uid_assignments 0 (xpath tree tgt_xpath) ;;
  src_connections tgt_uid_map 0 (xpath tree src_xpath).

End Tree.

End Xml.

(** A tree given by the elements its three paths select. *)
Record sample_tree : Type := {
  sensor_elements : list xml_element;
  computer_elements : list xml_element;
  actuator_elements : list xml_element
}.

Definition sample_xpath (tree : sample_tree) (path : string) : list xml_element :=
  if String.eqb path "/gnc/sensors/sensor" then sensor_elements tree
  else if String.eqb path "/gnc/computers/computer" then computer_elements tree
  else if String.eqb path "/gnc/actuators/actuator" then actuator_elements tree
  else [].

Definition sample_xml : sample_tree := {|
  sensor_elements := [
    {| uID := None; type_child := Some (Some "B");
       targets_child := Some (Some "Computer_0,Computer_1") |};
    {| uID := None; type_child := Some (Some "A");
       targets_child := Some (Some "Computer_1") |}]%string;
  computer_elements := [
    {| uID := Some "Computer_0"; type_child := Some (Some "B");
       targets_child := Some (Some "Actuator_0") |};
    {| uID := Some "Computer_1"; type_child := Some (Some "C");
       targets_child := Some (Some "Actuator_0") |}]%string;
  actuator_elements := [
    {| uID := Some "Actuator_0"; type_child := Some (Some "A");
       targets_child := None |}]%string
|}.

(** The edge joins a source position to a target position of stages of
    [n] and [m] units. *)
Definition in_range (n m : nat) (e : edge) : Prop :=
  (0 <= fst e < Z.of_nat n)%Z /\ (0 <= snd e < Z.of_nat m)%Z.

(** The number of commas of a text. *)
Fixpoint count_commas (text : string) : nat :=
  match text with
  | EmptyString => 0
  | String c rest => (if Ascii.eqb c ","%char then 1 else 0) + count_commas rest
  end.
(* ===================================================================== *)
(** ** Catalog lookups and unknown type labels *)


Lemma getitem_missing (d : table) (key : string) :
  contains d key = false -> getitem d key = inl (KeyError key).
Proof.
  induction d as [|[k v] d IH]; simpl; [reflexivity|].
  destruct (String.eqb k key); simpl; [discriminate|exact IH].
Qed.

Lemma getitem_error (d : table) (key : string) (e : exn) :
  getitem d key = inl e -> e = KeyError key.
Proof.
  induction d as [|[k v] d IH]; simpl.
  - intros H; inversion H; reflexivity.
  - destruct (String.eqb k key); [discriminate|exact IH].
Qed.

Lemma lookup_all_error (d : table) (types : list string) (e : exn) :
  lookup_all d types = inl e -> exists k, e = KeyError k.
Proof.
  induction types as [|t ts IH]; simpl; [discriminate|].
  destruct (getitem d t) as [e'|v] eqn:G; simpl.
  - intros H; inversion H; subst. exists t. eapply getitem_error; eauto.
  - destruct (lookup_all d ts) as [e'|vs]; simpl; [|discriminate].
    intros H; inversion H; subst. apply IH; reflexivity.
Qed.

Lemma lookup_all_missing (d : table) (types : list string) (label : string) :
  In label types -> contains d label = false ->
  exists k, lookup_all d types = inl (KeyError k).
Proof.
  induction types as [|t ts IH]; simpl; [tauto|].
  intros [->|Hin] Hc.
  - rewrite (getitem_missing _ _ Hc). simpl. eauto.
  - destruct (getitem d t) as [e|v] eqn:G; simpl.
    + exists t. rewrite (getitem_error _ _ _ G). reflexivity.
    + destruct (IH Hin Hc) as [k ->]. simpl. eauto.
Qed.

Lemma lookup_all_length (d : table) (types : list string) (vs : list Q) :
  lookup_all d types = inr vs -> length vs = length types.
Proof.
  revert vs; induction types as [|t ts IH]; simpl; intros vs.
  - intros H; inversion H; reflexivity.
  - destruct (getitem d t); simpl; [discriminate|].
    destruct (lookup_all d ts); simpl; [discriminate|].
    intros H; inversion H; subst; simpl. f_equal. apply IH; reflexivity.
Qed.


(** C8. An input with a type label that the catalog does not have for its
    stage kind makes both [calc_mass] and [calc_failure_rate] raise
    [KeyError]: neither returns a value. *)
Theorem unknown_type_is_fatal (cls : GNCCalculator)
    (sensor_types computer_types : list string) (conns : list edge)
    (actuator_types : option (list string)) (act_conns : option (list edge)) :
  has_unknown_label cls sensor_types computer_types actuator_types ->
  raises_KeyError (calc_mass cls sensor_types computer_types actuator_types) /\
  raises_KeyError
    (calc_failure_rate cls sensor_types computer_types conns actuator_types act_conns).
Proof.
  intros [label H]. unfold raises_KeyError, calc_mass, calc_failure_rate, get_failure_rates.
  split.
  - destruct (lookup_all (mass cls S_) sensor_types) as [e|s] eqn:Es; simpl.
    { destruct (lookup_all_error _ _ _ Es) as [k ->]; eauto. }
    destruct (lookup_all (mass cls C_) computer_types) as [e|c] eqn:Ec; simpl.
    { destruct (lookup_all_error _ _ _ Ec) as [k ->]; eauto. }
    destruct H as [[Hin [Hm _]]|[[Hin [Hm _]]|[ats [-> [Hin [Hm _]]]]]].
    + destruct (lookup_all_missing _ _ _ Hin Hm) as [k Hk]; congruence.
    + destruct (lookup_all_missing _ _ _ Hin Hm) as [k Hk]; congruence.
    + destruct (lookup_all_missing _ _ _ Hin Hm) as [k ->]; simpl; eauto.
  - destruct (lookup_all (failure_rate cls S_) sensor_types) as [e|s] eqn:Es; simpl.
    { destruct (lookup_all_error _ _ _ Es) as [k ->]; eauto. }
    destruct (lookup_all (failure_rate cls C_) computer_types) as [e|c] eqn:Ec; simpl.
    { destruct (lookup_all_error _ _ _ Ec) as [k ->]; eauto. }
    destruct H as [[Hin [_ Hf]]|[[Hin [_ Hf]]|[ats [-> [Hin [_ Hf]]]]]].
    + destruct (lookup_all_missing _ _ _ Hin Hf) as [k Hk]; congruence.
    + destruct (lookup_all_missing _ _ _ Hin Hf) as [k Hk]; congruence.
    + destruct (lookup_all_missing _ _ _ Hin Hf) as [k ->]; simpl; eauto.
Qed.

Lemma unknown_type_is_fatal_witness :
  has_unknown_label GNC ["A"; "D"]%string ["B"]%string None /\
  raises_KeyError (calc_mass GNC ["A"; "D"]%string ["B"]%string None) /\
  raises_KeyError
    (calc_failure_rate GNC ["A"; "D"]%string ["B"]%string [(0, 0)%Z] None None).
Proof.
  assert (H : has_unknown_label GNC ["A"; "D"]%string ["B"]%string None).
  { exists "D"%string. left. split; [simpl; tauto|split; reflexivity]. }
  split; [exact H|].
  exact (unknown_type_is_fatal GNC _ _ [(0, 0)%Z] None None H).
Defined.

(* ===================================================================== *)
(** ** Writing edges into a connection matrix *)

Lemma resolve_index_oob (n : nat) (i : Z) :
  out_of_bounds n i -> resolve_index n i = inl IndexError.
Proof.
  unfold out_of_bounds, resolve_index. intros H.
  destruct ((0 <=? i) && (i <? Z.of_nat n))%Z eqn:E1.
  - apply andb_true_iff in E1 as [A B]. lia.
  - destruct ((- Z.of_nat n <=? i) && (i <? 0))%Z eqn:E2; [|reflexivity].
    apply andb_true_iff in E2 as [A B]. lia.
Qed.

Lemma resolve_index_error (n : nat) (i : Z) (e : exn) :
  resolve_index n i = inl e -> e = IndexError.
Proof.
  unfold resolve_index.
  destruct ((0 <=? i) && (i <? Z.of_nat n))%Z; [discriminate|].
  destruct ((- Z.of_nat n <=? i) && (i <? 0))%Z; [discriminate|].
  intros H; inversion H; reflexivity.
Qed.

Lemma setitem_error (M : ndarray) (i j v : Z) (e : exn) :
  setitem M i j v = inl e -> e = IndexError.
Proof.
  unfold setitem.
  destruct (resolve_index (shape0 M) i) as [e1|a] eqn:E1; simpl.
  - intros H; inversion H; subst. eapply resolve_index_error; eauto.
  - destruct (resolve_index (shape1 M) j) as [e2|b] eqn:E2; simpl; [|discriminate].
    intros H; inversion H; subst. eapply resolve_index_error; eauto.
Qed.

Lemma setitem_shape (M M' : ndarray) (i j v : Z) :
  setitem M i j v = inr M' -> shape0 M' = shape0 M /\ shape1 M' = shape1 M.
Proof.
  unfold setitem.
  destruct (resolve_index (shape0 M) i); simpl; [discriminate|].
  destruct (resolve_index (shape1 M) j); simpl; [discriminate|].
  intros H; inversion H; subst; simpl; auto.
Qed.

Lemma setitem_oob_target (M : ndarray) (i j v : Z) :
  out_of_bounds (shape1 M) j -> setitem M i j v = inl IndexError.
Proof.
  intros H. unfold setitem.
  destruct (resolve_index (shape0 M) i) as [e1|a] eqn:E1; simpl.
  - rewrite (resolve_index_error _ _ _ E1). reflexivity.
  - rewrite (resolve_index_oob _ _ H). reflexivity.
Qed.

Lemma fill_edges_error (edges : list edge) (M : ndarray) (e : exn) :
  fill_edges M edges = inl e -> e = IndexError.
Proof.
  revert M; induction edges as [|[i j] es IH]; intros M; simpl; [discriminate|].
  destruct (setitem M i j 1) as [e1|M'] eqn:E; simpl.
  - intros H; inversion H; subst. eapply setitem_error; eauto.
  - apply IH.
Qed.

Lemma fill_edges_shape (edges : list edge) (M M' : ndarray) :
  fill_edges M edges = inr M' -> shape0 M' = shape0 M /\ shape1 M' = shape1 M.
Proof.
  revert M; induction edges as [|[i j] es IH]; intros M; simpl.
  - intros H; inversion H; auto.
  - destruct (setitem M i j 1) as [e1|M1] eqn:E; simpl; [discriminate|].
    intros H. apply IH in H as [A B]. apply setitem_shape in E as [C D].
    split; congruence.
Qed.

Lemma fill_edges_dangling (edges : list edge) (M : ndarray) :
  dangling (shape1 M) edges -> fill_edges M edges = inl IndexError.
Proof.
  revert M; induction edges as [|[i j] es IH]; intros M [e [Hin Hoob]].
  - destruct Hin.
  - simpl. destruct (setitem M i j 1) as [e1|M1] eqn:E; simpl.
    + rewrite (setitem_error _ _ _ _ _ E). reflexivity.
    + destruct Hin as [<-|Hin].
      * simpl in Hoob. rewrite (setitem_oob_target _ _ _ _ Hoob) in E. discriminate.
      * apply IH. exists e. split; [exact Hin|].
        apply setitem_shape in E as [_ ->]. exact Hoob.
Qed.

(** [calc_failure_rate] once the catalog lookups are through. *)
Lemma calc_failure_rate_eq (cls : GNCCalculator)
    (sensor_types computer_types : list string) (conns : list edge)
    (actuator_types : option (list string)) (act_conns : option (list edge))
    (fo : list (list Q) * list (option (list edge))) :
  get_failure_rates cls sensor_types computer_types conns actuator_types act_conns = inr fo ->
  calc_failure_rate cls sensor_types computer_types conns actuator_types act_conns =
  (p <- failure_probability (fst fo) (snd fo) ;; ret (np_log10 p)).
Proof.
  intros H. unfold calc_failure_rate. rewrite H. reflexivity.
Qed.

(** An edge list with an out-of-bounds target index makes the call raise. *)
Lemma calc_failure_rate_dangling (cls : GNCCalculator)
    (sensor_types computer_types : list string) (conns : list edge)
    (actuator_types : option (list string)) (act_conns : option (list edge)) :
  dangling (length computer_types) conns \/
  (exists ats acs, actuator_types = Some ats /\ act_conns = Some acs /\
                   dangling (length ats) acs) ->
  calc_failure_rate cls sensor_types computer_types conns actuator_types act_conns
    = inl IndexError \/
  raises_KeyError
    (calc_failure_rate cls sensor_types computer_types conns actuator_types act_conns).
Proof.
  intros H. unfold raises_KeyError, calc_failure_rate, get_failure_rates.
  destruct (lookup_all (failure_rate cls S_) sensor_types) as [e|s] eqn:Es; simpl.
  { right. destruct (lookup_all_error _ _ _ Es) as [k ->]; eauto. }
  destruct (lookup_all (failure_rate cls C_) computer_types) as [e|c] eqn:Ec; simpl.
  { right. destruct (lookup_all_error _ _ _ Ec) as [k ->]; eauto. }
  apply lookup_all_length in Ec.
  destruct actuator_types as [ats|].
  - destruct (lookup_all (failure_rate cls A_) ats) as [e|a] eqn:Ea; simpl.
    { right. destruct (lookup_all_error _ _ _ Ea) as [k ->]; eauto. }
    apply lookup_all_length in Ea. left.
    unfold failure_probability; simpl.
    destruct (fill_edges (np_zeros (length s) (length c)) conns) as [e|M0] eqn:E0; simpl.
    { rewrite (fill_edges_error _ _ _ E0). reflexivity. }
    destruct H as [H|[ats' [acs [Hats [-> H]]]]].
    + rewrite fill_edges_dangling in E0; [discriminate|]. simpl. rewrite Ec. exact H.
    + inversion Hats; subst ats'.
      rewrite fill_edges_dangling; [reflexivity|]. simpl. rewrite Ea. exact H.
  - simpl. left. destruct H as [H|[ats' [acs [Hats _]]]]; [|discriminate].
    unfold failure_probability; simpl.
    rewrite fill_edges_dangling; [reflexivity|]. simpl. rewrite Ec. exact H.
Qed.

(* ===================================================================== *)
(** ** The logarithm of the result *)

Lemma ln_10_pos : (0 < ln 10)%R.
Proof.
  rewrite <- ln_1. apply ln_increasing; Lra.lra.
Qed.

Lemma log10_mono (x y : R) : (0 < x)%R -> (x <= y)%R -> (log10 x <= log10 y)%R.
Proof.
  intros Hx [Hlt| ->]; [|Lra.lra].
  unfold log10. apply Rmult_le_compat_r.
  - left. apply Rinv_0_lt_compat, ln_10_pos.
  - left. apply ln_increasing; assumption.
Qed.

Lemma log10_le_0 (x : R) : (0 < x)%R -> (x <= 1)%R -> (log10 x <= 0)%R.
Proof.
  intros Hx H1. replace 0%R with (log10 1).
  - apply log10_mono; assumption.
  - unfold log10. rewrite ln_1. Lra.lra.
Qed.

(** Brackets of [log10 a] from integer powers: [10^m < a^k] gives
    [m/k < log10 a], and the converse inequality the upper bound. *)
Lemma log10_above (a : Z) (k m : nat) :
  (0 < k)%nat -> (0 < a)%Z -> (10 ^ Z.of_nat m < a ^ Z.of_nat k)%Z ->
  (INR m / INR k < log10 (IZR a))%R.
Proof.
  intros Hk Ha Hpow.
  assert (Hk' : (0 < INR k)%R) by (apply lt_0_INR; exact Hk).
  assert (Ha' : (0 < IZR a)%R) by (apply IZR_lt; exact Ha).
  assert (H : (INR m * ln 10 < INR k * ln (IZR a))%R).
  { rewrite <- !ln_pow by Lra.lra. apply ln_increasing.
    - apply pow_lt; Lra.lra.
    - rewrite !pow_IZR. apply IZR_lt. exact Hpow. }
  unfold log10. pose proof ln_10_pos as L.
  apply Rmult_lt_reg_r with (r := (INR k * ln 10)%R); [Lra.nra|].
  field_simplify; Lra.lra.
Qed.

Lemma log10_below (a : Z) (k m : nat) :
  (0 < k)%nat -> (0 < a)%Z -> (a ^ Z.of_nat k < 10 ^ Z.of_nat m)%Z ->
  (log10 (IZR a) < INR m / INR k)%R.
Proof.
  intros Hk Ha Hpow.
  assert (Hk' : (0 < INR k)%R) by (apply lt_0_INR; exact Hk).
  assert (Ha' : (0 < IZR a)%R) by (apply IZR_lt; exact Ha).
  assert (H : (INR k * ln (IZR a) < INR m * ln 10)%R).
  { rewrite <- !ln_pow by Lra.lra. apply ln_increasing.
    - apply pow_lt; Lra.lra.
    - rewrite !pow_IZR. apply IZR_lt. exact Hpow. }
  unfold log10. pose proof ln_10_pos as L.
  apply Rmult_lt_reg_r with (r := (INR k * ln 10)%R); [Lra.nra|].
  field_simplify; Lra.lra.
Qed.

(** [log10 (a / 10^n) = log10 a - n] *)
Lemma log10_scaled (a : Z) (n : nat) :
  (0 < a)%Z -> log10 (IZR a / 10 ^ n) = (log10 (IZR a) - INR n)%R.
Proof.
  intros Ha. assert (Ha' : (0 < IZR a)%R) by (apply IZR_lt; exact Ha).
  assert (Hp : (0 < 10 ^ n)%R) by (apply pow_lt; Lra.lra).
  unfold log10. change (IZR a / 10 ^ n)%R with (IZR a * / 10 ^ n)%R.
  rewrite ln_mult by (try apply Rinv_0_lt_compat; assumption).
  rewrite ln_Rinv by assumption. rewrite ln_pow by Lra.lra.
  pose proof ln_10_pos. field. Lra.lra.
Qed.

Lemma np_log10_zero (p : Q) : p == 0 -> np_log10 p = NegInf.
Proof.
  intros H. unfold np_log10. apply Qeq_alt in H. rewrite H. reflexivity.
Qed.

Lemma np_log10_pos (p : Q) : 0 < p -> np_log10 p = Finite (log10 (Q2R p)).
Proof.
  intros H. unfold np_log10. apply Qgt_alt in H. rewrite H. reflexivity.
Qed.

(* ===================================================================== *)
(** ** Concrete evaluations *)

(** C2. One sensor and one computer of type A (failure rates 0.00015 and
    0.0001), joined by the edge (0,0), no actuators: the failure probability
    is 0.00015 + 0.99985 * 0.0001 = 0.000249985 and [calc_failure_rate]
    returns its base-10 logarithm, which rounds to -3.6021. *)
Theorem two_stage_concrete_case :
  getitem (failure_rate GNC S_) "A" = inr (15 # 100000) /\
  getitem (failure_rate GNC C_) "A" = inr (1 # 10000) /\
  exists p : Q,
    failure_probability [[15 # 100000]; [1 # 10000]] [Some [(0, 0)%Z]] = inr p /\
    p == (15 # 100000) + (99985 # 100000) * (1 # 10000) /\
    p == 249985 # 1000000000 /\
    calc_failure_rate GNC ["A"%string] ["A"%string] [(0, 0)%Z] None None
      = inr (Finite (log10 (Q2R p))) /\
    (-3.60215 < log10 (Q2R p) < -3.60205)%R.
Proof.
  split; [reflexivity|split; [reflexivity|]].
  assert (E : exists p, failure_probability [[15 # 100000]; [1 # 10000]] [Some [(0, 0)%Z]]
                        = inr p /\ p == 249985 # 1000000000).
  { eexists. split; [vm_compute; reflexivity|reflexivity]. }
  destruct E as [p [Hp Hq]]. exists p.
  split; [exact Hp|]. split; [rewrite Hq; reflexivity|]. split; [exact Hq|].
  split.
  - rewrite (calc_failure_rate_eq GNC _ _ _ _ _
               ([[15 # 100000]; [1 # 10000]], [Some [(0, 0)%Z]])) by reflexivity.
    simpl fst; simpl snd. rewrite Hp. simpl. rewrite np_log10_pos; [reflexivity|].
    rewrite Hq. reflexivity.
  - rewrite (Qeq_eqR _ _ Hq).
    replace (Q2R (249985 # 1000000000)) with (IZR 249985 / 10 ^ 9)%R
      by (unfold Q2R; simpl; Lra.lra).
    rewrite log10_scaled by lia.
    assert (L : (INR 1031 / INR 191 < log10 (IZR 249985))%R).
    { apply log10_above; [lia|lia|]. vm_compute. reflexivity. }
    assert (U : (log10 (IZR 249985) < INR 1560 / INR 289)%R).
    { apply log10_below; [lia|lia|]. vm_compute. reflexivity. }
    rewrite !INR_IZR_INZ in *. simpl Z.of_nat in *. Lra.lra.
Qed.

(** C6 (counterexample). With a class whose failure rates are all 0, one
    sensor, one computer and the edge (0,0) give the probability 0, and
    [calc_failure_rate] returns the value [-inf]: no error is raised. *)
Lemma zero_probability_raises_nothing :
  (exists p : Q, failure_probability [[0]; [0]] [Some [(0, 0)%Z]] = inr p /\ p == 0) /\
  calc_failure_rate GNC_never_failing ["A"%string] ["A"%string] [(0, 0)%Z] None None
    = inr NegInf /\
  is_error
    (calc_failure_rate GNC_never_failing ["A"%string] ["A"%string] [(0, 0)%Z] None None)
    = false.
Proof.
  assert (E : exists p : Q,
             failure_probability [[0]; [0]] [Some [(0, 0)%Z]] = inr p /\ p == 0).
  { eexists. split; [vm_compute; reflexivity|reflexivity]. }
  assert (C : calc_failure_rate GNC_never_failing
                ["A"%string] ["A"%string] [(0, 0)%Z] None None = inr NegInf).
  { destruct E as [p [Hp Hq]].
    rewrite (calc_failure_rate_eq GNC_never_failing _ _ _ _ _
               ([[0]; [0]], [Some [(0, 0)%Z]])) by reflexivity.
    simpl fst; simpl snd. rewrite Hp. simpl. rewrite (np_log10_zero _ Hq). reflexivity. }
  split; [exact E|]. split; [exact C|]. rewrite C. reflexivity.
Qed.

(** C6 (as amended). Whenever the failure probability computed by the
    enumeration is exactly 0, [calc_failure_rate] raises nothing and returns
    [np.log10(0)], the value [-inf]. *)
Theorem zero_probability_gives_neg_inf (cls : GNCCalculator)
    (sensor_types computer_types : list string) (conns : list edge)
    (actuator_types : option (list string)) (act_conns : option (list edge))
    (fo : list (list Q) * list (option (list edge))) (p : Q) :
  get_failure_rates cls sensor_types computer_types conns actuator_types act_conns = inr fo ->
  failure_probability (fst fo) (snd fo) = inr p ->
  p == 0 ->
  calc_failure_rate cls sensor_types computer_types conns actuator_types act_conns
    = inr NegInf.
Proof.
  intros Hfo Hp Hz. rewrite (calc_failure_rate_eq _ _ _ _ _ _ _ Hfo), Hp. simpl.
  rewrite (np_log10_zero _ Hz). reflexivity.
Qed.

Lemma zero_probability_gives_neg_inf_witness :
  calc_failure_rate GNC_never_failing ["A"%string] ["A"%string] [(0, 0)%Z] None None
    = inr NegInf.
Proof.
  apply (zero_probability_gives_neg_inf GNC_never_failing
           ["A"%string] ["A"%string] [(0, 0)%Z] None None
           ([[0]; [0]], [Some [(0, 0)%Z]])
           (_branch_failures [[0]; [0]]
              [{| shape0 := 1; shape1 := 1; data := [[1%Z]] |}] 0 None)).
  - reflexivity.
  - reflexivity.
  - reflexivity.
Defined.

(** C7 (counterexample). With one sensor and one computer, the edge (0,-1)
    has a target index that is no unit index of the computer stage (the only
    one is 0); the matrix write counts it from the end, so the call raises
    nothing and returns what the edge (0,0) gives. *)
Lemma negative_target_index_is_accepted :
  ~ (0 <= snd (0, -1) < Z.of_nat (length ["A"%string]))%Z /\
  is_error (calc_failure_rate GNC ["A"%string] ["A"%string] [(0, -1)%Z] None None)
    = false /\
  calc_failure_rate GNC ["A"%string] ["A"%string] [(0, -1)%Z] None None
    = calc_failure_rate GNC ["A"%string] ["A"%string] [(0, 0)%Z] None None.
Proof.
  split; [simpl; lia|].
  assert (E : forall j, (j = 0 \/ j = -1)%Z ->
              build_conn_matrices [[15 # 100000]; [1 # 10000]] 0 [Some [(0, j)%Z]]
              = inr [{| shape0 := 1; shape1 := 1; data := [[1%Z]] |}]).
  { intros j [-> | ->]; reflexivity. }
  assert (C : forall j, (j = 0 \/ j = -1)%Z ->
              calc_failure_rate GNC ["A"%string] ["A"%string] [(0, j)%Z] None None
              = inr (np_log10 (_branch_failures [[15 # 100000]; [1 # 10000]]
                       [{| shape0 := 1; shape1 := 1; data := [[1%Z]] |}] 0 None))).
  { intros j Hj.
    rewrite (calc_failure_rate_eq GNC _ _ _ _ _
               ([[15 # 100000]; [1 # 10000]], [Some [(0, j)%Z]])) by reflexivity.
    unfold failure_probability. simpl fst; simpl snd. rewrite (E j Hj). reflexivity. }
  rewrite !C by auto. split; reflexivity.
Qed.

(* ===================================================================== *)
(** ** The scenario loop *)

Lemma fold_left_Qplus_acc (l : list Q) (a : Q) :
  fold_left Qplus l a == a + fold_left Qplus l 0.
Proof.
  revert a; induction l as [|x l IH]; intros a; simpl.
  - ring.
  - rewrite (IH (a + x)), (IH (0 + x)). ring.
Qed.

Lemma total_rate_of_nil : total_rate_of [] == 0.
Proof. reflexivity. Qed.

Lemma total_rate_of_cons (x : Q) (l : list Q) :
  total_rate_of (x :: l) == x + total_rate_of l.
Proof.
  unfold total_rate_of. simpl. rewrite fold_left_Qplus_acc. ring.
Qed.

Lemma total_rate_of_app (l1 l2 : list Q) :
  total_rate_of (l1 ++ l2) == total_rate_of l1 + total_rate_of l2.
Proof.
  induction l1 as [|x l1 IH]; simpl.
  - rewrite total_rate_of_nil. ring.
  - rewrite !total_rate_of_cons, IH. ring.
Qed.

Lemma any_all_failed (mask : list bool) : any (all_failed mask) = false.
Proof.
  unfold all_failed, any. induction mask; simpl; auto.
Qed.

Lemma Forall_any_map_cons (b : bool) (l : list (list bool)) :
  Forall (fun s => any s = true) l ->
  Forall (fun s => any s = true) (map (cons b) l).
Proof.
  intros H. apply Forall_forall. intros s Hs.
  apply in_map_iff in Hs as [s' [<- Hs']].
  rewrite Forall_forall in H. unfold any in *. simpl.
  rewrite (H _ Hs'). apply orb_true_r.
Qed.

(** The enumeration starts with the all-failed scenario, and it is the only
    one without a surviving unit. *)
Lemma product_all_failed_first (mask : list bool) :
  exists rest, product mask = all_failed mask :: rest /\
               Forall (fun s => any s = true) rest.
Proof.
  induction mask as [|b mask [rest [E F]]].
  - exists []. split; [reflexivity|constructor].
  - destruct b; simpl; rewrite E.
    + exists (map (cons false) rest ++ map (cons true) (all_failed mask :: rest) ++ []).
      split; [reflexivity|].
      apply Forall_app; split; [apply Forall_any_map_cons; exact F|].
      apply Forall_app; split; [|constructor].
      apply Forall_forall. intros s Hs. apply in_map_iff in Hs as [s' [<- _]].
      reflexivity.
    + exists (map (cons false) rest ++ []). split; [reflexivity|].
      apply Forall_app; split; [apply Forall_any_map_cons; exact F|constructor].
Qed.

Lemma select_all_false {A} (n : nat) (xs : list A) :
  select (repeat false n) xs = [].
Proof.
  revert xs; induction n as [|n IH]; intros [|x xs]; simpl; auto.
Qed.

Lemma select_none {A} (mask : list bool) (xs : list A) :
  any mask = false -> select mask xs = [].
Proof.
  unfold any. revert xs; induction mask as [|b mask IH]; intros [|x xs]; simpl; auto.
  destruct b; simpl; [discriminate|]. apply IH.
Qed.

Lemma in_select {A} (mask : list bool) (xs : list A) (d x : A) :
  In x (select mask xs) -> exists i, nth i mask false = true /\ nth i xs d = x.
Proof.
  revert xs; induction mask as [|b mask IH]; intros [|y xs]; simpl; try tauto.
  destruct b; simpl.
  - intros [<-|H]; [exists 0%nat; auto|].
    destruct (IH _ H) as [i Hi]. exists (S i). exact Hi.
  - intros H. destruct (IH _ H) as [i Hi]. exists (S i). exact Hi.
Qed.

Lemma connected_targets_none (conn_mat : ndarray) (ok_sources : list bool) :
  no_reachable_target conn_mat ok_sources ->
  any (connected_targets conn_mat ok_sources) = false.
Proof.
  intros H. unfold any, connected_targets, conn_mat_ok.
  rewrite !map_map. induction (seq 0 (shape1 conn_mat)) as [|j js IH]; simpl; [reflexivity|].
  rewrite IH, orb_false_r. unfold np_any.
  apply not_true_is_false. intros E.
  apply existsb_exists in E as [v [Hin Hv]].
  apply in_map_iff in Hin as [row [<- Hrow]].
  apply (in_select _ _ []) in Hrow as [i [Hok Hrow]].
  subst row. rewrite (H i j Hok) in Hv. discriminate.
Qed.

Lemma no_reachable_target_all_failed (conn_mat : ndarray) (mask : list bool) :
  no_reachable_target conn_mat (all_failed mask).
Proof.
  intros i j H. exfalso. unfold all_failed in H.
  rewrite nth_repeat in H. discriminate.
Qed.

Lemma scenario_terms_unreachable
    (failure_rates : list (list Q)) (conn_matrices : list ndarray)
    (rec : list bool -> Q) (i_rates : nat) (src_connected_mask ok_sources : list bool) :
  retained i_rates ok_sources ->
  no_reachable_target (nth i_rates conn_matrices (np_zeros 0 0)) ok_sources ->
  scenario_terms failure_rates conn_matrices rec i_rates src_connected_mask ok_sources
    = [occurrence_prob (nth i_rates failure_rates []) src_connected_mask ok_sources].
Proof.
  intros Hret Hno. unfold scenario_terms. unfold retained in Hret. rewrite Hret.
  rewrite (select_none _ _ (connected_targets_none _ _ Hno)). reflexivity.
Qed.

(* ===================================================================== *)
(** ** The recursion of [_branch_failures] *)

Lemma scenario_terms_rec_ext (failure_rates : list (list Q)) (conn_matrices : list ndarray)
    (rec rec' : list bool -> Q) (i_rates : nat) (mask ok : list bool) :
  ((i_rates < length conn_matrices - 1)%nat -> forall m, rec m = rec' m) ->
  scenario_terms failure_rates conn_matrices rec i_rates mask ok =
  scenario_terms failure_rates conn_matrices rec' i_rates mask ok.
Proof.
  intros H. unfold scenario_terms.
  destruct (i_rates <? length conn_matrices - 1)%nat eqn:E; [|reflexivity].
  apply Nat.ltb_lt in E. rewrite (H E). reflexivity.
Qed.

(** Any recursion depth that covers the remaining transitions gives the
    same value: the depth in [_branch_failures] is enough. *)
Lemma branch_failures_fuel_enough (failure_rates : list (list Q))
    (conn_matrices : list ndarray) (fuel fuel' : nat) :
  forall (i : nat) (mask : option (list bool)),
    (i < length conn_matrices)%nat ->
    (length conn_matrices - i <= fuel)%nat ->
    (length conn_matrices - i <= fuel')%nat ->
    branch_failures_fuel failure_rates conn_matrices fuel i mask =
    branch_failures_fuel failure_rates conn_matrices fuel' i mask.
Proof.
  revert fuel'. induction fuel as [|fuel IH]; intros [|fuel'] i mask Hi Hf Hf'; try lia.
  simpl. f_equal. apply flat_map_ext. intros ok.
  apply scenario_terms_rec_ext. intros Hd m. apply IH; lia.
Qed.

(** The recursion as the source writes it: the call at [i_rates] runs the
    loop with recursive calls at [i_rates+1]. *)
Lemma branch_failures_unfold (failure_rates : list (list Q))
    (conn_matrices : list ndarray) (i_rates : nat) (mask : option (list bool)) :
  (i_rates < length conn_matrices)%nat ->
  _branch_failures failure_rates conn_matrices i_rates mask =
  total_rate_of
    (flat_map
       (scenario_terms failure_rates conn_matrices
          (fun m => _branch_failures failure_rates conn_matrices (i_rates + 1) (Some m))
          i_rates (mask_or_ones failure_rates i_rates mask))
       (product (mask_or_ones failure_rates i_rates mask))).
Proof.
  intros Hi. unfold _branch_failures.
  destruct (length conn_matrices - i_rates)%nat as [|fuel] eqn:E; [lia|].
  simpl. f_equal. apply flat_map_ext. intros ok.
  apply scenario_terms_rec_ext. intros Hd m.
  apply branch_failures_fuel_enough; lia.
Qed.

(* ===================================================================== *)
(** ** A scenario without reachable target *)

Lemma fold_left_Qplus_app (l1 l2 : list Q) (x a : Q) :
  fold_left Qplus (l1 ++ x :: l2) a = fold_left Qplus l2 (fold_left Qplus l1 a + x).
Proof.
  rewrite fold_left_app. reflexivity.
Qed.

(** C4. In a call of [_branch_failures] at transition [i_rates], take a
    scenario [ok_sources] of the enumeration that passes the guard and in
    which no target unit is reachable from a surviving source (a sensor
    without outgoing edge is such a source).  The scenario adds exactly one
    term, its occurrence probability, whatever the recursive call would
    return: no all-targets-fail term, no recursion.  And the value of the
    call is the running total of the scenarios before it, plus this
    occurrence probability, plus the terms of the scenarios after it. *)
Theorem unreachable_downstream_is_failure
    (failure_rates : list (list Q)) (conn_matrices : list ndarray)
    (i_rates : nat) (src_connected_mask : option (list bool))
    (before after : list (list bool)) (ok_sources : list bool) :
  let mask := mask_or_ones failure_rates i_rates src_connected_mask in
  let terms :=
    scenario_terms failure_rates conn_matrices
      (fun m => _branch_failures failure_rates conn_matrices (i_rates + 1) (Some m))
      i_rates mask in
  let p := occurrence_prob (nth i_rates failure_rates []) mask ok_sources in
  (i_rates < length conn_matrices)%nat ->
  product mask = before ++ ok_sources :: after ->
  retained i_rates ok_sources ->
  no_reachable_target (nth i_rates conn_matrices (np_zeros 0 0)) ok_sources ->
  (forall rec,
     scenario_terms failure_rates conn_matrices rec i_rates mask ok_sources = [p]) /\
  _branch_failures failure_rates conn_matrices i_rates src_connected_mask
    = fold_left Qplus (flat_map terms after)
        (total_rate_of (flat_map terms before) + p) /\
  _branch_failures failure_rates conn_matrices i_rates src_connected_mask
    == total_rate_of (flat_map terms before) + p + total_rate_of (flat_map terms after).
Proof.
  intros mask terms p Hi Hprod Hret Hno.
  assert (T : forall rec,
            scenario_terms failure_rates conn_matrices rec i_rates mask ok_sources = [p]).
  { intros rec. apply scenario_terms_unreachable; assumption. }
  assert (E : _branch_failures failure_rates conn_matrices i_rates src_connected_mask
              = fold_left Qplus (flat_map terms after)
                  (total_rate_of (flat_map terms before) + p)).
  { rewrite (branch_failures_unfold _ _ _ _ Hi). fold mask. fold terms.
    rewrite Hprod, flat_map_app. simpl flat_map. unfold terms at 2. rewrite T.
    simpl app. unfold total_rate_of. apply fold_left_Qplus_app. }
  split; [exact T|]. split; [exact E|].
  rewrite E. rewrite fold_left_Qplus_acc. unfold total_rate_of. ring.
Qed.

Lemma unreachable_downstream_is_failure_witness :
  let failure_rates := [[15 # 100000]; [1 # 10000]] in
  let conn_matrices := [np_zeros 1 1] in
  (0 < length conn_matrices)%nat /\
  product (mask_or_ones failure_rates 0 None) = [[false]] ++ [true] :: [] /\
  retained 0 [true] /\
  no_reachable_target (nth 0 conn_matrices (np_zeros 0 0)) [true] /\
  scenario_terms failure_rates conn_matrices (fun _ => 0) 0 [true] [true]
    = [1 - (15 # 100000)] /\
  _branch_failures failure_rates conn_matrices 0 None == 1.
Proof.
  intros failure_rates conn_matrices.
  assert (L : (0 < length conn_matrices)%nat) by (simpl; lia).
  assert (P : product (mask_or_ones failure_rates 0 None) = [[false]] ++ [true] :: [])
    by reflexivity.
  assert (R : retained 0 [true]) by reflexivity.
  assert (N : no_reachable_target (nth 0 conn_matrices (np_zeros 0 0)) [true]).
  { intros [|[|i]] [|[|j]] _; reflexivity. }
  split; [exact L|]. split; [exact P|]. split; [exact R|]. split; [exact N|].
  destruct (unreachable_downstream_is_failure failure_rates conn_matrices 0 None
              [[false]] [] [true] L P R N) as [T [_ E]].
  split.
  - exact (T (fun _ => 0)).
  - rewrite E. reflexivity.
Defined.

Lemma scenario_terms_all_failed
    (failure_rates : list (list Q)) (conn_matrices : list ndarray)
    (rec : list bool -> Q) (i_rates : nat) (mask : list bool) :
  scenario_terms failure_rates conn_matrices rec i_rates mask (all_failed mask) =
  if (0 <? i_rates)%nat then []
  else [occurrence_prob (nth i_rates failure_rates []) mask (all_failed mask)].
Proof.
  destruct (0 <? i_rates)%nat eqn:E.
  - unfold scenario_terms. rewrite E, any_all_failed. reflexivity.
  - apply scenario_terms_unreachable.
    + unfold retained. rewrite E. reflexivity.
    + apply no_reachable_target_all_failed.
Qed.

Lemma scenario_terms_survivor_nonempty
    (failure_rates : list (list Q)) (conn_matrices : list ndarray)
    (rec : list bool -> Q) (i_rates : nat) (mask ok_sources : list bool) :
  any ok_sources = true ->
  scenario_terms failure_rates conn_matrices rec i_rates mask ok_sources <> [].
Proof.
  intros H. unfold scenario_terms. rewrite H, andb_false_r.
  destruct (length _ =? 0)%nat; discriminate.
Qed.

(** C1. In a call at transition [i_rates] over the mask [mask], the
    enumeration lists the all-failed scenario first and it is the only
    scenario without a survivor.  That scenario adds no term exactly when
    [i_rates > 0]; every other scenario adds a term at every transition.  At
    the root its one term is its occurrence probability, so the value of the
    call is that probability (nothing when [i_rates > 0]) plus the terms of
    the other scenarios. *)
Theorem double_counting_guard
    (failure_rates : list (list Q)) (conn_matrices : list ndarray)
    (i_rates : nat) (mask : list bool) :
  (i_rates < length conn_matrices)%nat ->
  let rec := fun m =>
    _branch_failures failure_rates conn_matrices (i_rates + 1) (Some m) in
  let terms := scenario_terms failure_rates conn_matrices rec i_rates mask in
  let p_all_failed :=
    occurrence_prob (nth i_rates failure_rates []) mask (all_failed mask) in
  exists rest,
    product mask = all_failed mask :: rest /\
    Forall (fun ok => any ok = true /\ terms ok <> []) rest /\
    (terms (all_failed mask) = [] <-> (0 < i_rates)%nat) /\
    (i_rates = 0%nat -> terms (all_failed mask) = [p_all_failed]) /\
    _branch_failures failure_rates conn_matrices i_rates (Some mask) ==
      (if (0 <? i_rates)%nat then 0 else p_all_failed)
      + total_rate_of (flat_map terms rest).
Proof.
  intros Hi rec terms p_all_failed.
  destruct (product_all_failed_first mask) as [rest [E F]].
  exists rest. split; [exact E|]. split.
  { rewrite Forall_forall in *. intros ok Hok. split; [auto|].
    apply scenario_terms_survivor_nonempty. auto. }
  assert (T : terms (all_failed mask) =
              if (0 <? i_rates)%nat then [] else [p_all_failed])
    by apply scenario_terms_all_failed.
  split; [|split].
  - rewrite T. destruct (0 <? i_rates)%nat eqn:L.
    + apply Nat.ltb_lt in L. tauto.
    + apply Nat.ltb_ge in L. split; [discriminate|lia].
  - intros ->. exact T.
  - rewrite (branch_failures_unfold _ _ _ _ Hi). simpl mask_or_ones.
    rewrite E. simpl flat_map.
    fold rec. fold terms. rewrite total_rate_of_app, T.
    destruct (0 <? i_rates)%nat.
    + rewrite total_rate_of_nil. reflexivity.
    + rewrite total_rate_of_cons, total_rate_of_nil. ring.
Qed.

Lemma double_counting_guard_witness :
  let failure_rates := [[15 # 100000]; [1 # 10000]; [8 # 100000]] in
  let conn_matrices := [one_edge_matrix; one_edge_matrix] in
  let terms :=
    scenario_terms failure_rates conn_matrices
      (fun m => _branch_failures failure_rates conn_matrices 2 (Some m)) 1 [true] in
  (1 < length conn_matrices)%nat /\
  exists rest,
    product [true] = all_failed [true] :: rest /\
    (terms (all_failed [true]) = [] <-> (0 < 1)%nat) /\
    _branch_failures failure_rates conn_matrices 1 (Some [true]) ==
      0 + total_rate_of (flat_map terms rest).
Proof.
  intros failure_rates conn_matrices terms.
  assert (H : (1 < length conn_matrices)%nat) by (simpl; lia).
  split; [exact H|].
  destruct (double_counting_guard failure_rates conn_matrices 1 [true] H)
    as [rest [E [_ [S [_ V]]]]].
  exists rest. split; [exact E|]. split; [exact S|exact V].
Defined.

(** C3. The fully connected chain of one sensor, one computer and one
    actuator with failure rates [s], [c], [a].  The root call adds three
    terms: [s] (sensor failed), the all-targets-fail term [(1-s)*c] and the
    downstream term [(1-s)*level1], each once.  In the call at transition 1
    the guard drops one of the two scenarios, the all-failed one, and the
    other adds the single term [(1-c)*a].  The total is
    [s + (1-s)*c + (1-s)*(1-c)*a]. *)
Theorem three_stage_chain (s c a : Q) :
  let failure_rates := [[s]; [c]; [a]] in
  let conn_matrices := [one_edge_matrix; one_edge_matrix] in
  let level1 := _branch_failures failure_rates conn_matrices 1 (Some [true]) in
  let rec0 := fun m => _branch_failures failure_rates conn_matrices 1 (Some m) in
  let rec1 := fun m => _branch_failures failure_rates conn_matrices 2 (Some m) in
  build_conn_matrices failure_rates 0 [Some [(0, 0)%Z]; Some [(0, 0)%Z]]
    = inr conn_matrices /\
  product [true] = [[false]; [true]] /\
  Forall2 (Forall2 Qeq)
    (map (scenario_terms failure_rates conn_matrices rec0 0 [true]) (product [true]))
    [[s]; [(1 - s) * c; (1 - s) * level1]] /\
  Forall2 (Forall2 Qeq)
    (map (scenario_terms failure_rates conn_matrices rec1 1 [true]) (product [true]))
    [[]; [(1 - c) * a]] /\
  level1 == (1 - c) * a /\
  exists p, failure_probability failure_rates [Some [(0, 0)%Z]; Some [(0, 0)%Z]] = inr p /\
            p == s + (1 - s) * c + (1 - s) * (1 - c) * a.
Proof.
  intros failure_rates conn_matrices level1 rec0 rec1.
  assert (L1 : level1 == (1 - c) * a).
  { subst level1 failure_rates conn_matrices.
    cbv -[Qplus Qmult Qminus Qeq]. ring. }
  split; [reflexivity|]. split; [reflexivity|]. split.
  { subst rec0 rec1 level1 failure_rates conn_matrices.
    cbv -[Qplus Qmult Qminus Qeq _branch_failures].
    repeat constructor; ring. }
  split.
  { subst rec0 rec1 level1 failure_rates conn_matrices.
    cbv -[Qplus Qmult Qminus Qeq _branch_failures].
    repeat constructor; ring. }
  split; [exact L1|].
  eexists. split; [reflexivity|].
  subst level1 failure_rates conn_matrices.
  cbv -[Qplus Qmult Qminus Qeq]. ring.
Qed.

(* ===================================================================== *)
(** ** A connection matrix is a function of the set of its edges *)

Lemma list_set_length {A} (l : list A) (i : nat) (v : A) :
  length (list_set l i v) = length l.
Proof.
  revert i; induction l as [|x l IH]; intros [|i]; simpl; auto.
Qed.

Lemma nth_list_set {A} (l : list A) (i k : nat) (v d : A) :
  (i < length l)%nat ->
  nth k (list_set l i v) d = if (k =? i)%nat then v else nth k l d.
Proof.
  revert i k; induction l as [|x l IH]; intros [|i] [|k] H; simpl in *;
    try lia; try reflexivity.
  apply IH. lia.
Qed.

Lemma resolve_index_lt (n : nat) (i : Z) (k : nat) :
  resolve_index n i = inr k -> (k < n)%nat.
Proof.
  unfold resolve_index.
  destruct ((0 <=? i) && (i <? Z.of_nat n))%Z eqn:E1.
  - apply andb_true_iff in E1 as [A B]. intros H; inversion H. lia.
  - destruct ((- Z.of_nat n <=? i) && (i <? 0))%Z eqn:E2; [|discriminate].
    apply andb_true_iff in E2 as [A B]. intros H; inversion H. lia.
Qed.

Lemma np_zeros_well_shaped (n m : nat) : well_shaped (np_zeros n m).
Proof.
  split; simpl.
  - apply repeat_length.
  - apply Forall_forall. intros row H. apply repeat_spec in H. subst.
    apply repeat_length.
Qed.

Lemma setitem_spec (M M' : ndarray) (x y v : Z) :
  well_shaped M -> setitem M x y v = inr M' ->
  well_shaped M' /\ shape0 M' = shape0 M /\ shape1 M' = shape1 M /\
  exists i j, resolve_index (shape0 M) x = inr i /\ resolve_index (shape1 M) y = inr j /\
    forall a b, entry M' a b = if ((a =? i)%nat && (b =? j)%nat)%bool then v else entry M a b.
Proof.
  intros [WL WR]. unfold setitem.
  destruct (resolve_index (shape0 M) x) as [|i] eqn:Ei; simpl; [discriminate|].
  destruct (resolve_index (shape1 M) y) as [|j] eqn:Ej; simpl; [discriminate|].
  intros H; inversion H; subst M'; clear H. simpl.
  pose proof (resolve_index_lt _ _ _ Ei) as Li.
  pose proof (resolve_index_lt _ _ _ Ej) as Lj.
  assert (Lrow : length (nth i (data M) []) = shape1 M).
  { rewrite Forall_forall in WR. apply WR. apply nth_In. lia. }
  split; [|split; [reflexivity|split; [reflexivity|]]].
  - split; simpl.
    + rewrite list_set_length. exact WL.
    + apply Forall_forall. intros row Hrow.
      apply (In_nth _ _ []) in Hrow as [k [Hk <-]].
      rewrite list_set_length in Hk.
      rewrite nth_list_set by lia.
      destruct (k =? i)%nat.
      * rewrite list_set_length. exact Lrow.
      * rewrite Forall_forall in WR. apply WR. apply nth_In. exact Hk.
  - exists i, j. split; [reflexivity|split; [reflexivity|]].
    intros a b. unfold entry; simpl.
    rewrite nth_list_set by lia.
    destruct (a =? i)%nat eqn:Ea; simpl; [|reflexivity].
    apply Nat.eqb_eq in Ea; subst a.
    rewrite nth_list_set by lia. reflexivity.
Qed.

Lemma fill_edges_unresolvable (edges : list edge) (M : ndarray) :
  (exists e, In e edges /\ resolvable (shape0 M) (shape1 M) e = false) ->
  fill_edges M edges = inl IndexError.
Proof.
  revert M; induction edges as [|[x y] es IH]; intros M [e [Hin Hr]].
  - destruct Hin.
  - simpl. destruct (setitem M x y 1) as [e1|M1] eqn:E; simpl.
    + rewrite (setitem_error _ _ _ _ _ E). reflexivity.
    + pose proof (setitem_shape _ _ _ _ _ E) as [S0 S1].
      destruct Hin as [<-|Hin].
      * exfalso. unfold setitem in E. unfold resolvable in Hr. simpl in Hr.
        destruct (resolve_index (shape0 M) x); simpl in E; [discriminate|].
        destruct (resolve_index (shape1 M) y); simpl in E; discriminate.
      * apply IH. exists e. rewrite S0, S1. auto.
Qed.

Lemma fill_edges_spec (edges : list edge) (M : ndarray) :
  well_shaped M ->
  (forall e, In e edges -> resolvable (shape0 M) (shape1 M) e = true) ->
  exists M', fill_edges M edges = inr M' /\ well_shaped M' /\
    shape0 M' = shape0 M /\ shape1 M' = shape1 M /\
    forall a b, entry M' a b =
      if existsb (hits (shape0 M) (shape1 M) a b) edges then 1%Z else entry M a b.
Proof.
  revert M; induction edges as [|[x y] es IH]; intros M W Hres.
  - exists M. simpl. auto.
  - simpl.
    pose proof (Hres (x, y) (or_introl eq_refl)) as Hxy.
    unfold resolvable in Hxy; simpl in Hxy.
    destruct (setitem M x y 1) as [e1|M1] eqn:E.
    + exfalso. unfold setitem in E.
      destruct (resolve_index (shape0 M) x); [discriminate|].
      destruct (resolve_index (shape1 M) y); [discriminate|]. discriminate.
    + simpl.
      destruct (setitem_spec _ _ _ _ _ W E) as [W1 [S0 [S1 [i [j [Ei [Ej Hent]]]]]]].
      destruct (IH M1 W1) as [M' [F [W' [S0' [S1' Hent']]]]].
      { intros e He. rewrite S0, S1. apply Hres. right. exact He. }
      exists M'. split; [exact F|]. split; [exact W'|].
      split; [congruence|]. split; [congruence|].
      intros a b. rewrite Hent', Hent, S0, S1.
      unfold hits at 2; simpl. rewrite Ei, Ej.
      destruct (existsb _ es); [rewrite orb_true_r; reflexivity|].
      rewrite orb_false_r, (Nat.eqb_sym i a), (Nat.eqb_sym j b). reflexivity.
Qed.

Lemma well_shaped_ext (M1 M2 : ndarray) :
  well_shaped M1 -> well_shaped M2 ->
  shape0 M1 = shape0 M2 -> shape1 M1 = shape1 M2 ->
  (forall a b, entry M1 a b = entry M2 a b) -> M1 = M2.
Proof.
  destruct M1 as [n1 m1 d1], M2 as [n2 m2 d2]; unfold well_shaped, entry; simpl.
  intros [L1 R1] [L2 R2] -> -> H. f_equal.
  apply (nth_ext _ _ [] []); [congruence|].
  intros a Ha. rewrite Forall_forall in R1, R2.
  apply (nth_ext _ _ 0%Z 0%Z).
  - rewrite R1 by (apply nth_In; lia). rewrite R2 by (apply nth_In; lia). reflexivity.
  - intros b _. apply H.
Qed.

Lemma existsb_same_edges {A} (f : A -> bool) (l l' : list A) :
  (forall x, In x l <-> In x l') -> existsb f l = existsb f l'.
Proof.
  intros H. destruct (existsb f l) eqn:E; symmetry.
  - apply existsb_exists in E as [x [Hin Hx]]. apply existsb_exists.
    exists x. split; [apply H; exact Hin|exact Hx].
  - apply not_true_is_false. intros E'.
    apply existsb_exists in E' as [x [Hin Hx]].
    assert (existsb f l = true) by (apply existsb_exists; exists x; split; [apply H|]; auto).
    congruence.
Qed.

Lemma fill_edges_same_edges (M : ndarray) (es es' : list edge) :
  well_shaped M -> same_edges es es' -> fill_edges M es = fill_edges M es'.
Proof.
  intros W H.
  destruct (forallb (resolvable (shape0 M) (shape1 M)) es) eqn:R.
  - rewrite forallb_forall in R.
    assert (R' : forall e, In e es' -> resolvable (shape0 M) (shape1 M) e = true).
    { intros e He. apply R, H, He. }
    destruct (fill_edges_spec es M W R) as [M1 [F1 [W1 [A1 [B1 E1]]]]].
    destruct (fill_edges_spec es' M W R') as [M2 [F2 [W2 [A2 [B2 E2]]]]].
    rewrite F1, F2. f_equal.
    apply well_shaped_ext; try assumption; try congruence.
    intros a b. rewrite E1, E2. rewrite (existsb_same_edges _ es es' H). reflexivity.
  - assert (X : exists e, In e es /\ resolvable (shape0 M) (shape1 M) e = false).
    { apply not_true_iff_false in R. 
      destruct (existsb (fun e => negb (resolvable (shape0 M) (shape1 M) e)) es) eqn:X.
      - apply existsb_exists in X as [e [He Hn]]. exists e. split; [exact He|].
        apply negb_true_iff. exact Hn.
      - exfalso. apply R. apply forallb_forall. intros e He.
        destruct (resolvable (shape0 M) (shape1 M) e) eqn:Q; [reflexivity|].
        assert (existsb (fun e => negb (resolvable (shape0 M) (shape1 M) e)) es = true).
        { apply existsb_exists. exists e. rewrite Q. auto. }
        congruence. }
    rewrite (fill_edges_unresolvable es M X).
    destruct X as [e [He Hr]].
    rewrite (fill_edges_unresolvable es' M); [reflexivity|].
    exists e. split; [apply H; exact He|exact Hr].
Qed.

Lemma build_conn_matrices_same_edges (failure_rates : list (list Q))
    (oc oc' : list (option (list edge))) (i : nat) :
  Forall2 same_edges_opt oc oc' ->
  build_conn_matrices failure_rates i oc = build_conn_matrices failure_rates i oc'.
Proof.
  intros H. revert i. induction H as [|o o' oc oc' Ho _ IH]; intros i; [reflexivity|].
  simpl. rewrite (IH (i + 1)%nat).
  destruct o as [es|], o' as [es'|]; simpl in Ho; try contradiction; [|reflexivity].
  rewrite (fill_edges_same_edges _ es es' (np_zeros_well_shaped _ _) Ho). reflexivity.
Qed.

(** Reordering an edge list, or repeating an edge it holds, keeps its set. *)
Lemma same_edges_permutation (es es' : list edge) :
  Permutation es es' -> same_edges es es'.
Proof.
  intros H e. split; intros Hin.
  - eapply Permutation_in; eauto.
  - eapply Permutation_in; [apply Permutation_sym|]; eauto.
Qed.

Lemma same_edges_duplicate (e : edge) (es : list edge) :
  In e es -> same_edges (e :: es) es.
Proof.
  intros H x. simpl. split; [intros [<-|Hx]; assumption|auto].
Qed.

(** C10. [calc_failure_rate] depends on each edge list only through its set
    of (source, target) pairs: two calls whose edge lists have the same
    elements, in any order and with any repetition, give the same result
    (the same value, or the same exception). *)
Theorem edge_lists_are_sets (cls : GNCCalculator)
    (sensor_types computer_types : list string) (conns conns' : list edge)
    (actuator_types : option (list string)) (act_conns act_conns' : option (list edge)) :
  same_edges conns conns' ->
  same_edges_opt act_conns act_conns' ->
  calc_failure_rate cls sensor_types computer_types conns actuator_types act_conns =
  calc_failure_rate cls sensor_types computer_types conns' actuator_types act_conns'.
Proof.
  intros H H'. unfold calc_failure_rate, get_failure_rates.
  destruct (lookup_all (failure_rate cls S_) sensor_types) as [e|s]; simpl; [reflexivity|].
  destruct (lookup_all (failure_rate cls C_) computer_types) as [e|c]; simpl; [reflexivity|].
  destruct actuator_types as [ats|].
  - destruct (lookup_all (failure_rate cls A_) ats) as [e|a]; simpl; [reflexivity|].
    unfold failure_probability.
    rewrite (build_conn_matrices_same_edges _ [Some conns; act_conns]
               [Some conns'; act_conns']); [reflexivity|].
    constructor; [exact H|constructor; [exact H'|constructor]].
  - simpl. unfold failure_probability.
    rewrite (build_conn_matrices_same_edges _ [Some conns] [Some conns']); [reflexivity|].
    constructor; [exact H|constructor].
Qed.

Lemma edge_lists_are_sets_witness :
  same_edges [(0, 0); (0, 1); (0, 0)]%Z [(0, 1); (0, 0)]%Z /\
  same_edges_opt (Some [(1, 0); (1, 0)]%Z) (Some [(1, 0)]%Z) /\
  calc_failure_rate GNC ["A"]%string ["B"; "C"]%string [(0, 0); (0, 1); (0, 0)]%Z
    (Some ["A"]%string) (Some [(1, 0); (1, 0)]%Z) =
  calc_failure_rate GNC ["A"]%string ["B"; "C"]%string [(0, 1); (0, 0)]%Z
    (Some ["A"]%string) (Some [(1, 0)]%Z).
Proof.
  assert (H : same_edges [(0, 0); (0, 1); (0, 0)]%Z [(0, 1); (0, 0)]%Z).
  { intros e; simpl; tauto. }
  assert (H' : same_edges_opt (Some [(1, 0); (1, 0)]%Z) (Some [(1, 0)]%Z)).
  { intros e; simpl; tauto. }
  split; [exact H|]. split; [exact H'|].
  exact (edge_lists_are_sets GNC ["A"]%string ["B"; "C"]%string _ _
           (Some ["A"]%string) _ _ H H').
Defined.

(* ===================================================================== *)
(** ** Sums and products over scenarios *)

Lemma fold_left_Qmult_acc (l : list Q) (a : Q) :
  fold_left Qmult l a == a * fold_left Qmult l 1.
Proof.
  revert a; induction l as [|x l IH]; intros a; simpl.
  - ring.
  - rewrite (IH (a * x)), (IH (1 * x)). ring.
Qed.

Lemma prod_nil : prod [] == 1.
Proof. reflexivity. Qed.

Lemma prod_cons (x : Q) (l : list Q) : prod (x :: l) == x * prod l.
Proof.
  unfold prod. simpl. rewrite fold_left_Qmult_acc. ring.
Qed.

Lemma total_rate_of_map_ext {A} (f g : A -> Q) (l : list A) :
  (forall x, In x l -> f x == g x) ->
  total_rate_of (map f l) == total_rate_of (map g l).
Proof.
  induction l as [|x l IH]; intros H; simpl; [reflexivity|].
  rewrite !total_rate_of_cons, IH.
  - rewrite (H x) by (left; reflexivity). reflexivity.
  - intros y Hy. apply H. right. exact Hy.
Qed.

Lemma total_rate_of_map_scale {A} (k : Q) (f : A -> Q) (l : list A) :
  total_rate_of (map (fun x => k * f x) l) == k * total_rate_of (map f l).
Proof.
  induction l as [|x l IH]; simpl.
  - rewrite total_rate_of_nil. ring.
  - rewrite !total_rate_of_cons, IH. ring.
Qed.

Lemma total_rate_of_flat_map {A} (g : A -> list Q) (l : list A) :
  total_rate_of (flat_map g l) == total_rate_of (map (fun x => total_rate_of (g x)) l).
Proof.
  induction l as [|x l IH]; simpl; [reflexivity|].
  rewrite total_rate_of_app, total_rate_of_cons, IH. reflexivity.
Qed.

Lemma occurrence_prob_cons_true (r : Q) (rates : list Q) (mask ok : list bool) (x : bool) :
  occurrence_prob (r :: rates) (true :: mask) (x :: ok) ==
  (if x then 1 - r else r) * occurrence_prob rates mask ok.
Proof.
  unfold occurrence_prob. simpl. apply prod_cons.
Qed.

Lemma occurrence_prob_cons_false (r : Q) (rates : list Q) (mask ok : list bool) (x : bool) :
  occurrence_prob (r :: rates) (false :: mask) (x :: ok) = occurrence_prob rates mask ok.
Proof. reflexivity. Qed.

(** The loop over the scenarios computes the expectation. *)
Lemma sum_product_expect (mask : list bool) (rates : list Q) (F : list bool -> Q) :
  length rates = length mask ->
  total_rate_of (map (fun ok => occurrence_prob rates mask ok * F ok) (product mask))
  == expect rates mask F.
Proof.
  revert rates F; induction mask as [|b mask IH]; intros [|r rates] F L;
    simpl in L; try discriminate.
  - simpl. rewrite total_rate_of_cons, total_rate_of_nil.
    unfold occurrence_prob. simpl. rewrite prod_nil. ring.
  - injection L as L. destruct b; simpl product; simpl expect.
    + rewrite !map_app, !total_rate_of_app, !map_map. simpl map.
      rewrite total_rate_of_nil.
      rewrite (total_rate_of_map_ext
                 (fun ok => occurrence_prob (r :: rates) (true :: mask) (false :: ok)
                            * F (false :: ok))
                 (fun ok => r * (occurrence_prob rates mask ok * F (false :: ok))))
        by (intros ok _; rewrite occurrence_prob_cons_true; ring).
      rewrite (total_rate_of_map_ext
                 (fun ok => occurrence_prob (r :: rates) (true :: mask) (true :: ok)
                            * F (true :: ok))
                 (fun ok => (1 - r) * (occurrence_prob rates mask ok * F (true :: ok))))
        by (intros ok _; rewrite occurrence_prob_cons_true; ring).
      rewrite !total_rate_of_map_scale.
      rewrite (IH rates (fun ok => F (false :: ok)) L).
      rewrite (IH rates (fun ok => F (true :: ok)) L). ring.
    + rewrite !map_app, !total_rate_of_app, !map_map. simpl map.
      rewrite total_rate_of_nil.
      rewrite (total_rate_of_map_ext
                 (fun ok => occurrence_prob (r :: rates) (false :: mask) (false :: ok)
                            * F (false :: ok))
                 (fun ok => occurrence_prob rates mask ok * F (false :: ok)))
        by (intros ok _; rewrite occurrence_prob_cons_false; reflexivity).
      rewrite (IH rates (fun ok => F (false :: ok)) L). ring.
Qed.

(* ===================================================================== *)
(** ** The enumeration computes the reference probability *)

Lemma any_repeat_false (n : nat) : any (repeat false n) = false.
Proof.
  unfold any. induction n; simpl; auto.
Qed.

Lemma no_reachable_target_repeat_false (conn_mat : ndarray) (n : nat) :
  no_reachable_target conn_mat (repeat false n).
Proof.
  intros i j H. rewrite nth_repeat in H. discriminate.
Qed.

Lemma expect_none (mask : list bool) (rates : list Q) (F : list bool -> Q) :
  any mask = false -> exists n, expect rates mask F = F (repeat false n).
Proof.
  unfold any. revert rates F; induction mask as [|b mask IH]; intros rates F H.
  - exists 0%nat. destruct rates; reflexivity.
  - destruct rates as [|r rates]; [exists 0%nat; reflexivity|].
    destruct b; simpl in H; [discriminate|]. simpl.
    destruct (IH rates (fun ok => F (false :: ok)) H) as [n E].
    exists (S n). exact E.
Qed.

Lemma full_failure_none (failure_rates : list (list Q)) (conn_matrices : list ndarray)
    (fuel i : nat) (mask : list bool) :
  any mask = false -> full_failure failure_rates conn_matrices fuel i mask == 1.
Proof.
  revert i mask; induction fuel as [|fuel IH]; intros i mask H; simpl.
  - rewrite (select_none _ _ H). reflexivity.
  - destruct (expect_none mask (nth i failure_rates [])
                (fun ok => full_failure failure_rates conn_matrices fuel (i + 1)
                   (connected_targets (nth i conn_matrices (np_zeros 0 0)) ok)) H)
      as [n ->].
    apply IH. apply connected_targets_none, no_reachable_target_repeat_false.
Qed.

Lemma select_empty_none {A} (mask : list bool) (xs : list A) :
  length mask = length xs -> length (select mask xs) = 0%nat -> any mask = false.
Proof.
  unfold any. revert xs; induction mask as [|b mask IH]; intros [|x xs] L H;
    simpl in *; try discriminate; auto.
  destruct b; simpl in *; [discriminate|]. apply (IH xs); [lia|exact H].
Qed.

Lemma connected_targets_length (conn_mat : ndarray) (ok : list bool) :
  length (connected_targets conn_mat ok) = shape1 conn_mat.
Proof.
  unfold connected_targets, conn_mat_ok. rewrite !length_map. apply length_seq.
Qed.

Lemma flip_ok_all_failed (rates : list Q) (n : nat) :
  flip_ok rates (repeat false n) = rates.
Proof.
  revert n; induction rates as [|r rates IH]; intros [|n]; simpl; auto.
  f_equal. apply IH.
Qed.

(** The terms of a retained scenario sum to its occurrence probability times
    the value [G] of what lies downstream, as soon as the recursive call
    plus the all-targets-fail product is that value. *)
Lemma scenario_terms_total (failure_rates : list (list Q)) (conn_matrices : list ndarray)
    (rec G : list bool -> Q) (i : nat) (mask ok : list bool) :
  let T := connected_targets (nth i conn_matrices (np_zeros 0 0)) ok in
  let tgt := nth (i + 1) failure_rates [] in
  retained i ok ->
  length T = length tgt ->
  (any T = false -> G T == 1) ->
  (if (i <? length conn_matrices - 1)%nat
   then rec T + prod (select T tgt) == G T
   else prod (select T tgt) == G T) ->
  total_rate_of (scenario_terms failure_rates conn_matrices rec i mask ok)
  == occurrence_prob (nth i failure_rates []) mask ok * G T.
Proof.
  intros T tgt Hret HL Hnone Hrec. unfold scenario_terms. unfold retained in Hret.
  rewrite Hret. fold T. fold tgt.
  destruct (length (select T tgt) =? 0)%nat eqn:E.
  - apply Nat.eqb_eq in E.
    rewrite (Hnone (select_empty_none _ _ HL E)).
    rewrite total_rate_of_cons, total_rate_of_nil. ring.
  - destruct (i <? length conn_matrices - 1)%nat.
    + rewrite !total_rate_of_cons, total_rate_of_nil, <- Hrec. ring.
    + rewrite !total_rate_of_cons, total_rate_of_nil, <- Hrec. ring.
Qed.

(** One call, given the sum of the terms of each retained scenario. *)
Lemma branch_failures_step (failure_rates : list (list Q)) (conn_matrices : list ndarray)
    (fuel i : nat) (mask : list bool) :
  length mask = length (nth i failure_rates []) ->
  (forall ok, retained i ok ->
     total_rate_of
       (scenario_terms failure_rates conn_matrices
          (fun m => branch_failures_fuel failure_rates conn_matrices fuel (i + 1) (Some m))
          i mask ok)
     == occurrence_prob (nth i failure_rates []) mask ok
        * full_failure failure_rates conn_matrices fuel (i + 1)
            (connected_targets (nth i conn_matrices (np_zeros 0 0)) ok)) ->
  branch_failures_fuel failure_rates conn_matrices (S fuel) i (Some mask)
  + (if (0 <? i)%nat then prod (select mask (nth i failure_rates [])) else 0)
  == full_failure failure_rates conn_matrices (S fuel) i mask.
Proof.
  intros HL V.
  set (rec := fun m => branch_failures_fuel failure_rates conn_matrices fuel (i + 1) (Some m)).
  set (F := fun ok => full_failure failure_rates conn_matrices fuel (i + 1)
                        (connected_targets (nth i conn_matrices (np_zeros 0 0)) ok)).
  set (rates := nth i failure_rates []).
  change (full_failure failure_rates conn_matrices (S fuel) i mask)
    with (expect rates mask F).
  rewrite <- (sum_product_expect mask rates F) by (symmetry; exact HL).
  change (branch_failures_fuel failure_rates conn_matrices (S fuel) i (Some mask))
    with (total_rate_of (flat_map (scenario_terms failure_rates conn_matrices rec i mask)
                           (product mask))).
  destruct (product_all_failed_first mask) as [rest [E Frest]]. rewrite E.
  simpl flat_map. simpl map.
  rewrite total_rate_of_app, total_rate_of_cons, total_rate_of_flat_map.
  rewrite (total_rate_of_map_ext
             (fun ok => total_rate_of (scenario_terms failure_rates conn_matrices rec i mask ok))
             (fun ok => occurrence_prob rates mask ok * F ok)).
  2:{ intros ok Hok. apply V. unfold retained.
      rewrite Forall_forall in Frest. rewrite (Frest ok Hok). apply andb_false_r. }
  assert (A : occurrence_prob rates mask (all_failed mask) * F (all_failed mask)
              == prod (select mask rates)).
  { unfold F. rewrite full_failure_none
      by (apply connected_targets_none, no_reachable_target_all_failed).
    unfold occurrence_prob, all_failed. rewrite flip_ok_all_failed. ring. }
  rewrite scenario_terms_all_failed. fold rates.
  destruct (0 <? i)%nat.
  - rewrite total_rate_of_nil, A. ring.
  - rewrite total_rate_of_cons, total_rate_of_nil, A.
    unfold occurrence_prob, all_failed. rewrite flip_ok_all_failed. ring.
Qed.

(** A call of the enumeration against the reference value: at the root they
    agree; at a later transition the call leaves out the all-failed
    scenario, whose weight is the product of the rates of the mask. *)
Lemma branch_failures_full (failure_rates : list (list Q)) (conn_matrices : list ndarray) :
  shapes_ok failure_rates conn_matrices ->
  forall (fuel i : nat) (mask : list bool),
    (i + S fuel = length conn_matrices)%nat ->
    length mask = length (nth i failure_rates []) ->
    branch_failures_fuel failure_rates conn_matrices (S fuel) i (Some mask)
    + (if (0 <? i)%nat then prod (select mask (nth i failure_rates [])) else 0)
    == full_failure failure_rates conn_matrices (S fuel) i mask.
Proof.
  intros Hshape. induction fuel as [|fuel IH]; intros i mask Hi HL.
  - (* last transition: no recursive call *)
    set (G := fun T => full_failure failure_rates conn_matrices 0 (i + 1) T).
    set (rec := fun m => branch_failures_fuel failure_rates conn_matrices 0 (i + 1) (Some m)).
    assert (V : forall ok, retained i ok ->
              total_rate_of (scenario_terms failure_rates conn_matrices rec i mask ok)
              == occurrence_prob (nth i failure_rates []) mask ok
                 * G (connected_targets (nth i conn_matrices (np_zeros 0 0)) ok)).
    { intros ok Hret. apply scenario_terms_total; [exact Hret| | |].
      - rewrite connected_targets_length. apply Hshape. lia.
      - intros Hn. apply full_failure_none. exact Hn.
      - replace (i <? length conn_matrices - 1)%nat with false
          by (symmetry; apply Nat.ltb_ge; lia).
        reflexivity. }
    apply (branch_failures_step failure_rates conn_matrices 0 i mask HL V).
  - set (G := fun T => full_failure failure_rates conn_matrices (S fuel) (i + 1) T).
    set (rec := fun m =>
           branch_failures_fuel failure_rates conn_matrices (S fuel) (i + 1) (Some m)).
    assert (V : forall ok, retained i ok ->
              total_rate_of (scenario_terms failure_rates conn_matrices rec i mask ok)
              == occurrence_prob (nth i failure_rates []) mask ok
                 * G (connected_targets (nth i conn_matrices (np_zeros 0 0)) ok)).
    { intros ok Hret.
      assert (LT : length (connected_targets (nth i conn_matrices (np_zeros 0 0)) ok)
                   = length (nth (i + 1) failure_rates [])).
      { rewrite connected_targets_length. apply Hshape. lia. }
      apply scenario_terms_total; [exact Hret|exact LT| |].
      - intros Hn. apply full_failure_none. exact Hn.
      - replace (i <? length conn_matrices - 1)%nat with true
          by (symmetry; apply Nat.ltb_lt; lia).
        unfold rec, G. rewrite <- (IH (i + 1)%nat _) by (try lia; exact LT).
        replace (0 <? i + 1)%nat with true by (symmetry; apply Nat.ltb_lt; lia).
        reflexivity. }
    apply (branch_failures_step failure_rates conn_matrices (S fuel) i mask HL V).
Qed.

(* ===================================================================== *)
(** ** Bounds and monotonicity of the reference probability *)

Lemma ble_refl (l : list bool) : ble l l.
Proof.
  induction l as [|b l IH]; constructor; [destruct b; reflexivity|exact IH].
Qed.

Lemma rate_le_refl (r : Q) : unit_interval r -> rate_le r r.
Proof.
  intros [A B]. unfold rate_le. split; [exact A|split; [apply Qle_refl|exact B]].
Qed.


Lemma rate_le_left (l l' : list Q) : Forall2 rate_le l l' -> Forall unit_interval l.
Proof.
  induction 1 as [|r r' l l' [A [B C]] _ IH]; constructor; [|exact IH].
  split; [exact A|]. apply Qle_trans with r'; assumption.
Qed.

Lemma rate_le_right (l l' : list Q) : Forall2 rate_le l l' -> Forall unit_interval l'.
Proof.
  induction 1 as [|r r' l l' [A [B C]] _ IH]; constructor; [|exact IH].
  split; [|exact C]. apply Qle_trans with r; assumption.
Qed.




Lemma rates_nth_unit (fr : list (list Q)) (i : nat) :
  rates_in_unit_interval fr -> Forall unit_interval (nth i fr []).
Proof.
  intros H. revert i. induction H as [|l fr Hl _ IH]; intros [|i]; simpl;
    try constructor; auto.
Qed.

Lemma select_Forall {A} (P : A -> Prop) (mask : list bool) (xs : list A) :
  Forall P xs -> Forall P (select mask xs).
Proof.
  intros H. revert mask. induction H as [|x xs Hx _ IH]; intros [|b mask]; simpl;
    try constructor.
  destruct b; [constructor; [exact Hx|apply IH]|apply IH].
Qed.

Lemma prod_unit (l : list Q) : Forall unit_interval l -> unit_interval (prod l).
Proof.
  unfold unit_interval. induction 1 as [|x l [A B] _ [C D]].
  - rewrite prod_nil. split; lra.
  - rewrite prod_cons. split; nra.
Qed.

Lemma prod_select_mono (m m' : list bool) (r r' : list Q) :
  ble m m' -> Forall2 rate_le r r' ->
  prod (select m' r) <= prod (select m r').
Proof.
  intros Hm. revert r r'. induction Hm as [|a b m m' Hab _ IH]; intros r r' Hr.
  - destruct r, r'; simpl; apply Qle_refl.
  - destruct Hr as [|x x' r r' [X0 [X1 X2]] Hr]; [simpl; apply Qle_refl|].
    specialize (IH r r' Hr).
    pose proof (prod_unit _ (select_Forall _ m' _ (rate_le_left _ _ Hr))) as [P0 P1].
    pose proof (prod_unit _ (select_Forall _ m _ (rate_le_right _ _ Hr))) as [P0' P1'].
    destruct a, b; simpl in *; try discriminate; rewrite ?prod_cons.
    + nra.
    + nra.
    + exact IH.
Qed.

Lemma expect_unit (mask : list bool) (rates : list Q) (F : list bool -> Q) :
  Forall unit_interval rates -> (forall ok, unit_interval (F ok)) ->
  unit_interval (expect rates mask F).
Proof.
  revert rates F. induction mask as [|b mask IH]; intros rates F Hr HF.
  - destruct rates; apply HF.
  - destruct Hr as [|r rates [R0 R1] Hr]; [apply HF|]. simpl.
    destruct (IH rates (fun ok => F (false :: ok)) Hr) as [A0 A1]; [intros; apply HF|].
    destruct (IH rates (fun ok => F (true :: ok)) Hr) as [B0 B1]; [intros; apply HF|].
    destruct b; split; try assumption; nra.
Qed.

Lemma expect_mono_F (mask : list bool) (rates : list Q) (F G : list bool -> Q) :
  Forall unit_interval rates -> (forall ok, F ok <= G ok) ->
  expect rates mask F <= expect rates mask G.
Proof.
  revert rates F G. induction mask as [|b mask IH]; intros rates F G Hr HF.
  - destruct rates; apply HF.
  - destruct Hr as [|r rates [R0 R1] Hr]; [apply HF|]. simpl.
    pose proof (IH rates (fun ok => F (false :: ok)) (fun ok => G (false :: ok)) Hr
                  (fun ok => HF (false :: ok))) as A.
    pose proof (IH rates (fun ok => F (true :: ok)) (fun ok => G (true :: ok)) Hr
                  (fun ok => HF (true :: ok))) as B.
    destruct b; [nra|exact A].
Qed.

Lemma antitone_cons (F : list bool -> Q) (b : bool) :
  antitone F -> antitone (fun ok => F (b :: ok)).
Proof.
  intros H ok ok' Hle. apply H. constructor; [destruct b; reflexivity|exact Hle].
Qed.

Lemma antitone_flip (F : list bool -> Q) (ok : list bool) :
  antitone F -> F (true :: ok) <= F (false :: ok).
Proof.
  intros H. apply H. constructor; [reflexivity|apply ble_refl].
Qed.


Lemma expect_anti_mask (m m' : list bool) (rates : list Q) (F : list bool -> Q) :
  ble m m' -> Forall unit_interval rates -> antitone F ->
  expect rates m' F <= expect rates m F.
Proof.
  intros Hm. revert rates F. induction Hm as [|a b m m' Hab _ IH]; intros rates F Hr HF.
  - apply Qle_refl.
  - destruct Hr as [|r rates [R0 R1] Hr]; [apply Qle_refl|]. simpl.
    pose proof (IH rates _ Hr (antitone_cons F false HF)) as A.
    pose proof (IH rates _ Hr (antitone_cons F true HF)) as B.
    pose proof (expect_mono_F m' rates (fun ok => F (true :: ok))
                  (fun ok => F (false :: ok)) Hr
                  (fun ok => antitone_flip F ok HF)) as C.
    destruct a, b; simpl in Hab; try discriminate.
    + nra.
    + set (ef := expect rates m (fun ok => F (false :: ok))) in *.
      set (ef' := expect rates m' (fun ok => F (false :: ok))) in *.
      set (et' := expect rates m' (fun ok => F (true :: ok))) in *.
      assert (P1 : 0 <= (1 - r) * (ef' - et')) by (apply Qmult_le_0_compat; lra).
      lra.
    + exact A.
Qed.



Lemma full_failure_unit (failure_rates : list (list Q)) (conn_matrices : list ndarray)
    (fuel i : nat) (mask : list bool) :
  rates_in_unit_interval failure_rates ->
  unit_interval (full_failure failure_rates conn_matrices fuel i mask).
Proof.
  intros H. revert i mask. induction fuel as [|fuel IH]; intros i mask; simpl.
  - apply prod_unit, select_Forall, rates_nth_unit, H.
  - apply expect_unit; [apply rates_nth_unit, H|]. intros ok. apply IH.
Qed.


(* ===================================================================== *)
(** ** Bounds of the enumeration itself *)

Lemma total_rate_of_nonneg (l : list Q) : Forall (fun x => 0 <= x) l -> 0 <= total_rate_of l.
Proof.
  induction 1 as [|x l Hx _ IH].
  - rewrite total_rate_of_nil. apply Qle_refl.
  - rewrite total_rate_of_cons. lra.
Qed.

Lemma flip_ok_unit (rates : list Q) (ok : list bool) :
  Forall unit_interval rates -> Forall unit_interval (flip_ok rates ok).
Proof.
  intros H. revert ok. induction H as [|r rates [A B] Hr IH]; intros [|b ok]; simpl;
    try constructor; auto; try (split; assumption).
  destruct b; unfold unit_interval; split; lra.
Qed.

Lemma occurrence_prob_unit (rates : list Q) (mask ok : list bool) :
  Forall unit_interval rates -> unit_interval (occurrence_prob rates mask ok).
Proof.
  intros H. unfold occurrence_prob. apply prod_unit, select_Forall, flip_ok_unit, H.
Qed.

Lemma branch_failures_nonneg (failure_rates : list (list Q)) (conn_matrices : list ndarray)
    (fuel i : nat) (mask : option (list bool)) :
  rates_in_unit_interval failure_rates ->
  0 <= branch_failures_fuel failure_rates conn_matrices fuel i mask.
Proof.
  intros H. revert i mask. induction fuel as [|fuel IH]; intros i mask; simpl.
  - apply Qle_refl.
  - apply total_rate_of_nonneg. apply Forall_flat_map, Forall_forall. intros ok _.
    unfold scenario_terms.
    destruct ((0 <? i)%nat && negb (any ok))%bool; [constructor|].
    pose proof (occurrence_prob_unit (nth i failure_rates [])
                  (mask_or_ones failure_rates i mask) ok (rates_nth_unit _ i H)) as [O0 O1].
    set (T := connected_targets (nth i conn_matrices (np_zeros 0 0)) ok).
    pose proof (prod_unit _ (select_Forall _ T _ (rates_nth_unit _ (i + 1) H))) as [P0 P1].
    destruct (length _ =? 0)%nat; [constructor; [exact O0|constructor]|].
    constructor; [apply Qmult_le_0_compat; assumption|].
    destruct (i <? length conn_matrices - 1)%nat; constructor; [|constructor].
    apply Qmult_le_0_compat; [exact O0|apply IH].
Qed.

Lemma branch_failures_unit (failure_rates : list (list Q)) (conn_matrices : list ndarray)
    (i : nat) (mask : list bool) :
  rates_in_unit_interval failure_rates ->
  shapes_ok failure_rates conn_matrices ->
  (i < length conn_matrices)%nat ->
  length mask = length (nth i failure_rates []) ->
  unit_interval (_branch_failures failure_rates conn_matrices i (Some mask)).
Proof.
  intros H Hs Hi HL. unfold _branch_failures. split.
  - apply branch_failures_nonneg. exact H.
  - destruct (length conn_matrices - i)%nat as [|fuel] eqn:E; [lia|].
    pose proof (branch_failures_full _ _ Hs fuel i mask ltac:(lia) HL) as B.
    pose proof (full_failure_unit failure_rates conn_matrices (S fuel) i mask H) as [_ F1].
    pose proof (prod_unit _ (select_Forall _ mask _ (rates_nth_unit _ i H))) as [P0 _].
    destruct (0 <? i)%nat; lra.
Qed.

(** The root call, with its default mask, computes the reference value. *)
Lemma root_call_full (failure_rates : list (list Q)) (conn_matrices : list ndarray) :
  shapes_ok failure_rates conn_matrices ->
  conn_matrices <> [] ->
  _branch_failures failure_rates conn_matrices 0 None
  == full_failure failure_rates conn_matrices (length conn_matrices) 0
       (repeat true (length (nth 0 failure_rates []))).
Proof.
  intros Hs Hne. unfold _branch_failures. rewrite Nat.sub_0_r.
  destruct conn_matrices as [|M cms]; [congruence|].
  set (K := length cms).
  change (length (M :: cms)) with (S K).
  pose proof (branch_failures_full _ _ Hs K 0%nat
                (repeat true (length (nth 0 failure_rates []))) eq_refl
                (repeat_length _ _)) as B.
  change (0 <? 0)%nat with false in B. cbv iota in B.
  rewrite <- B.
  change (branch_failures_fuel failure_rates (M :: cms) (S K) 0 None)
    with (branch_failures_fuel failure_rates (M :: cms) (S K) 0
            (Some (repeat true (length (nth 0 failure_rates []))))).
  ring.
Qed.

(* ===================================================================== *)
(** ** From the catalog and the edge lists to the enumeration *)

Lemma build_conn_matrices_shapes (failure_rates : list (list Q))
    (obj_conns : list (option (list edge))) :
  forall (i : nat) (conn_matrices : list ndarray),
    build_conn_matrices failure_rates i obj_conns = inr conn_matrices ->
    length conn_matrices = length obj_conns /\
    forall k, (k < length conn_matrices)%nat ->
      shape1 (nth k conn_matrices (np_zeros 0 0))
      = length (nth (i + k + 1) failure_rates []).
Proof.
  induction obj_conns as [|o oc IH]; intros i cms; simpl.
  - intros H; inversion H; subst. split; [reflexivity|]. simpl; intros; lia.
  - destruct o as [es|]; [|discriminate].
    destruct (fill_edges _ es) as [e|M] eqn:EM; simpl; [discriminate|].
    destruct (build_conn_matrices failure_rates (i + 1) oc) as [e|ms] eqn:Ems; simpl;
      [discriminate|].
    intros H; inversion H; subst cms; clear H.
    destruct (IH _ _ Ems) as [L S1]. split; [simpl; congruence|].
    intros [|k] Hk; simpl in *.
    + apply fill_edges_shape in EM as [_ ->]. simpl. f_equal. f_equal. lia.
    + rewrite S1 by lia. f_equal. f_equal. lia.
Qed.

Lemma build_conn_matrices_shapes_ok (failure_rates : list (list Q))
    (obj_conns : list (option (list edge))) (conn_matrices : list ndarray) :
  build_conn_matrices failure_rates 0 obj_conns = inr conn_matrices ->
  shapes_ok failure_rates conn_matrices.
Proof.
  intros H i Hi. destruct (build_conn_matrices_shapes _ _ _ _ H) as [_ S1].
  apply (S1 i Hi).
Qed.


Lemma getitem_unit (d : table) (key : string) (v : Q) :
  Forall (fun kv => unit_interval (snd kv)) d -> getitem d key = inr v -> unit_interval v.
Proof.
  induction 1 as [|[k w] d Hw _ IH]; simpl; [discriminate|].
  destruct (String.eqb k key); [|exact IH].
  intros E; inversion E; subst. exact Hw.
Qed.

Lemma lookup_all_unit (d : table) (types : list string) (vs : list Q) :
  Forall (fun kv => unit_interval (snd kv)) d ->
  lookup_all d types = inr vs -> Forall unit_interval vs.
Proof.
  intros Hd. revert vs. induction types as [|t ts IH]; intros vs; simpl.
  - intros E; inversion E; constructor.
  - destruct (getitem d t) as [e|v] eqn:G; simpl; [discriminate|].
    destruct (lookup_all d ts) as [e|ws]; simpl; [discriminate|].
    intros E; inversion E; subst. constructor; [|apply IH; reflexivity].
    eapply getitem_unit; eauto.
Qed.

Lemma get_failure_rates_unit (cls : GNCCalculator)
    (sensor_types computer_types : list string) (conns : list edge)
    (actuator_types : option (list string)) (act_conns : option (list edge))
    (fr : list (list Q)) (oc : list (option (list edge))) :
  catalog_in_unit_interval cls ->
  get_failure_rates cls sensor_types computer_types conns actuator_types act_conns
    = inr (fr, oc) ->
  rates_in_unit_interval fr /\ oc <> [].
Proof.
  intros Hc. unfold get_failure_rates.
  destruct (lookup_all (failure_rate cls S_) sensor_types) as [e|s] eqn:Es; simpl;
    [discriminate|].
  destruct (lookup_all (failure_rate cls C_) computer_types) as [e|c] eqn:Ec; simpl;
    [discriminate|].
  apply lookup_all_unit in Es; [|apply Hc]. apply lookup_all_unit in Ec; [|apply Hc].
  destruct actuator_types as [ats|].
  - destruct (lookup_all (failure_rate cls A_) ats) as [e|a] eqn:Ea; simpl; [discriminate|].
    apply lookup_all_unit in Ea; [|apply Hc].
    intros E; inversion E; subst. split; [|discriminate].
    repeat (constructor; try assumption).
  - simpl. intros E; inversion E; subst. split; [|discriminate].
    repeat (constructor; try assumption).
Qed.

Lemma Q2R_zero : Q2R 0 = 0%R.
Proof. unfold Q2R; simpl; Lra.lra. Qed.

Lemma Q2R_one : Q2R 1 = 1%R.
Proof. unfold Q2R; simpl; Lra.lra. Qed.

Lemma np_log10_mono (p p' : Q) :
  0 <= p -> p <= p' -> xle (np_log10 p) (np_log10 p').
Proof.
  intros H0 H. destruct (Qlt_le_dec 0 p) as [Hp|Hp].
  - assert (Hp' : 0 < p') by (apply Qlt_le_trans with p; assumption).
    rewrite !np_log10_pos by assumption. simpl.
    apply log10_mono.
    + rewrite <- Q2R_zero. apply Qlt_Rlt. exact Hp.
    + apply Qle_Rle. exact H.
  - assert (Hz : p == 0) by (apply Qle_antisym; assumption).
    rewrite (np_log10_zero _ Hz).
    destruct (Qlt_le_dec 0 p') as [Hp'|Hp'].
    + rewrite np_log10_pos by assumption. exact I.
    + assert (Hz' : p' == 0).
      { apply Qle_antisym; [exact Hp'|]. apply Qle_trans with p; assumption. }
      rewrite (np_log10_zero _ Hz'). exact I.
Qed.

Lemma np_log10_unit (p : Q) :
  unit_interval p -> ~ p == 0 ->
  exists x, np_log10 p = Finite x /\ (x <= 0)%R.
Proof.
  intros [H0 H1] Hnz.
  assert (Hp : 0 < p).
  { apply Qle_lteq in H0 as [Hlt|Heq]; [exact Hlt|]. exfalso. apply Hnz. symmetry. exact Heq. }
  exists (log10 (Q2R p)). split; [apply np_log10_pos; exact Hp|].
  apply log10_le_0.
  - rewrite <- Q2R_zero. apply Qlt_Rlt. exact Hp.
  - rewrite <- Q2R_one. apply Qle_Rle. exact H1.
Qed.

Lemma branch_failures_default_mask (failure_rates : list (list Q))
    (conn_matrices : list ndarray) (i : nat) :
  _branch_failures failure_rates conn_matrices i None =
  _branch_failures failure_rates conn_matrices i
    (Some (repeat true (length (nth i failure_rates [])))).
Proof.
  unfold _branch_failures. destruct (length conn_matrices - i)%nat; reflexivity.
Qed.

Lemma root_call_unit (failure_rates : list (list Q)) (conn_matrices : list ndarray) :
  rates_in_unit_interval failure_rates ->
  shapes_ok failure_rates conn_matrices ->
  unit_interval (_branch_failures failure_rates conn_matrices 0 None).
Proof.
  intros H Hs. destruct conn_matrices as [|M cms] eqn:E.
  - unfold _branch_failures. simpl. split; lra.
  - rewrite <- E in *.
    assert (Hi : (0 < length conn_matrices)%nat) by (rewrite E; simpl; lia).
    rewrite branch_failures_default_mask.
    apply (branch_failures_unit failure_rates conn_matrices 0
             (repeat true (length (nth 0 failure_rates []))) H Hs Hi (repeat_length _ _)).
Qed.

(** C9 (as amended).  In exact arithmetic: with every failure rate of the
    catalog in [0,1], every call of the enumeration that can occur (a
    transition of the topology, a mask with one entry per unit of its
    stage) has a value in [0,1]; so does the root call, whose value is the
    failure probability; and when that is not 0, the log10 that
    [calc_failure_rate] returns is a finite number that is at most 0.  (The
    binary64 sum can leave the interval by a rounding error, see
    [rounding_exceeds_one].) *)
Theorem probability_in_unit_interval (cls : GNCCalculator)
    (sensor_types computer_types : list string) (conns : list edge)
    (actuator_types : option (list string)) (act_conns : option (list edge))
    (failure_rates : list (list Q)) (obj_conns : list (option (list edge)))
    (conn_matrices : list ndarray) :
  catalog_in_unit_interval cls ->
  get_failure_rates cls sensor_types computer_types conns actuator_types act_conns
    = inr (failure_rates, obj_conns) ->
  build_conn_matrices failure_rates 0 obj_conns = inr conn_matrices ->
  (forall i mask,
     (i < length conn_matrices)%nat ->
     length mask = length (nth i failure_rates []) ->
     unit_interval (_branch_failures failure_rates conn_matrices i (Some mask))) /\
  let p := _branch_failures failure_rates conn_matrices 0 None in
  failure_probability failure_rates obj_conns = inr p /\
  unit_interval p /\
  (~ p == 0 ->
   exists x,
     calc_failure_rate cls sensor_types computer_types conns actuator_types act_conns
       = inr (Finite x) /\ (x <= 0)%R).
Proof.
  intros Hc Hfo Hb.
  destruct (get_failure_rates_unit _ _ _ _ _ _ _ _ Hc Hfo) as [Hr _].
  pose proof (build_conn_matrices_shapes_ok _ _ _ Hb) as Hs.
  split.
  { intros i mask Hi HL. apply branch_failures_unit; assumption. }
  intros p.
  assert (Hp : failure_probability failure_rates obj_conns = inr p).
  { unfold failure_probability. rewrite Hb. reflexivity. }
  assert (Hu : unit_interval p) by (apply root_call_unit; assumption).
  split; [exact Hp|]. split; [exact Hu|].
  intros Hnz. destruct (np_log10_unit p Hu Hnz) as [x [Ex Hx]].
  exists x. split; [|exact Hx].
  rewrite (calc_failure_rate_eq _ _ _ _ _ _ _ Hfo). simpl fst; simpl snd.
  rewrite Hp. simpl. rewrite Ex. reflexivity.
Qed.

Lemma GNC_in_unit_interval : catalog_in_unit_interval GNC.
Proof.
  intros [| |]; simpl; repeat constructor; simpl; unfold Qle; simpl; lia.
Qed.

Lemma probability_in_unit_interval_witness :
  let failure_rates := [[15 # 100000; 1 # 10000]; [1 # 10000]; [8 # 100000]] in
  let obj_conns := [Some [(0, 0); (1, 0)]%Z; Some [(0, 0)%Z]] in
  let conn_matrices :=
    [{| shape0 := 2; shape1 := 1; data := [[1%Z]; [1%Z]] |}; one_edge_matrix] in
  let p := _branch_failures failure_rates conn_matrices 0 None in
  unit_interval (_branch_failures failure_rates conn_matrices 1 (Some [true])) /\
  failure_probability failure_rates obj_conns = inr p /\
  unit_interval p.
Proof.
  intros failure_rates obj_conns conn_matrices p.
  destruct (probability_in_unit_interval GNC ["A"; "B"]%string ["A"]%string
              [(0, 0); (1, 0)]%Z (Some ["A"]%string) (Some [(0, 0)%Z])
              failure_rates obj_conns conn_matrices
              GNC_in_unit_interval eq_refl eq_refl) as [Hcalls [Hp [Hu _]]].
  split; [|split; [exact Hp|exact Hu]].
  apply (Hcalls 1%nat [true]); [simpl; lia|reflexivity].
Defined.

(* ===================================================================== *)
(** ** Monotonicity in the failure rates *)


Lemma rate_le_list_refl (l : list Q) : Forall unit_interval l -> Forall2 rate_le l l.
Proof.
  induction 1 as [|r l Hr _ IH]; constructor; [apply rate_le_refl; exact Hr|exact IH].
Qed.





(* ===================================================================== *)
(** ** Rounding in the binary64 engine *)

Section Binary64Rounding.

Import PrimFloat.

(** The binary64 engine on the two-stage case: one sensor and one computer
    of type A joined by one edge give the double nearest to 0.000249985. *)
Lemma binary64_two_stage_case :
  Binary64.calc_failure_probability ["A"%string] ["A"%string] [(0, 0)%Z] None None
  = inr 0x1.0620d6645036ap-12%float.
Proof. vm_compute. reflexivity. Qed.


(** C9 (counterexample).  Four sensors of types A, B, A, A, one computer and
    no edge: every failure rate lies in [0,1], and the failure probability
    the program computes, the binary64 sum of the sixteen occurrence
    probabilities, is 1.0000000000000002, above 1 (so the log10 returned is
    positive). *)
Lemma rounding_exceeds_one :
  forallb (fun r => PrimFloat.leb 0 r && PrimFloat.leb r 1)
          (map snd (Binary64.failure_rate S_ ++ Binary64.failure_rate C_)) = true /\
  Binary64.calc_failure_probability ["A"; "B"; "A"; "A"]%string ["A"%string] []
    None None
  = inr 0x1.0000000000001p+0%float /\
  PrimFloat.ltb 1 0x1.0000000000001p+0 = true.
Proof.
  vm_compute. repeat split; reflexivity.
Qed.

End Binary64Rounding.

(* ===================================================================== *)
(** ** Which exception, and when *)

Lemma getitem_contains (d : table) (key : string) :
  contains d key = true -> getitem d key = inr (lookup_or_zero d key).
Proof.
  unfold lookup_or_zero. induction d as [|[k v] d IH]; simpl; [discriminate|].
  destruct (String.eqb k key); simpl; [reflexivity|exact IH].
Qed.

(** A comprehension over a table: the first missing label raises, and with
    none missing the values come in the order of the labels. *)
Lemma lookup_all_spec (d : table) (types : list string) :
  lookup_all d types =
  match first_missing d types with
  | Some k => inl (KeyError k)
  | None => inr (map (lookup_or_zero d) types)
  end.
Proof.
  unfold first_missing. induction types as [|t ts IH]; simpl; [reflexivity|].
  destruct (contains d t) eqn:C; simpl.
  - rewrite (getitem_contains _ _ C). simpl. rewrite IH.
    destruct (find _ ts); reflexivity.
  - rewrite (getitem_missing _ _ C). reflexivity.
Qed.

Lemma fill_edges_exception (edges : list edge) (M : ndarray) :
  well_shaped M ->
  is_error (fill_edges M edges) = negb (all_resolvable (shape0 M) (shape1 M) edges).
Proof.
  intros W. unfold all_resolvable.
  destruct (forallb (resolvable (shape0 M) (shape1 M)) edges) eqn:R.
  - rewrite forallb_forall in R.
    destruct (fill_edges_spec edges M W R) as [M' [-> _]]. reflexivity.
  - rewrite fill_edges_unresolvable; [reflexivity|].
    apply not_true_iff_false in R.
    destruct (existsb (fun e => negb (resolvable (shape0 M) (shape1 M) e)) edges) eqn:X.
    + apply existsb_exists in X as [e [He Hn]]. exists e. split; [exact He|].
      apply negb_true_iff. exact Hn.
    + exfalso. apply R. apply forallb_forall. intros e He.
      destruct (resolvable (shape0 M) (shape1 M) e) eqn:Q; [reflexivity|].
      assert (existsb (fun e => negb (resolvable (shape0 M) (shape1 M) e)) edges = true).
      { apply existsb_exists. exists e. rewrite Q. auto. }
      congruence.
Qed.

Lemma fill_edges_zeros (n m : nat) (edges : list edge) :
  match edges_exception n m (Some edges) with
  | Some e => fill_edges (np_zeros n m) edges = inl e
  | None => exists M, fill_edges (np_zeros n m) edges = inr M
  end.
Proof.
  pose proof (fill_edges_exception edges (np_zeros n m) (np_zeros_well_shaped n m)) as H.
  simpl in H. unfold edges_exception.
  destruct (all_resolvable n m edges); simpl in H.
  - destruct (fill_edges (np_zeros n m) edges) as [e|M]; [discriminate|eauto].
  - destruct (fill_edges (np_zeros n m) edges) as [e|M] eqn:E; [|discriminate].
    rewrite (fill_edges_error _ _ _ E). reflexivity.
Qed.

Lemma calc_mass_outcome_eq (cls : GNCCalculator)
    (sensor_types computer_types : list string)
    (actuator_types : option (list string)) :
  calc_mass cls sensor_types computer_types actuator_types =
  match calc_mass_exception cls sensor_types computer_types actuator_types with
  | Some e => inl e
  | None =>
      let ms := sum (map (lookup_or_zero (mass cls S_)) sensor_types) in
      let mc := sum (map (lookup_or_zero (mass cls C_)) computer_types) in
      match actuator_types with
      | Some ats => inr (ms + mc + sum (map (lookup_or_zero (mass cls A_)) ats))
      | None => inr (ms + mc)
      end
  end.
Proof.
  unfold calc_mass, calc_mass_exception. rewrite !lookup_all_spec.
  destruct (first_missing (mass cls S_) sensor_types); simpl; [reflexivity|].
  destruct (first_missing (mass cls C_) computer_types); simpl; [reflexivity|].
  destruct actuator_types as [ats|]; [|reflexivity].
  rewrite lookup_all_spec.
  destruct (first_missing (mass cls A_) ats); reflexivity.
Qed.

(** X1. [calc_mass] raises exactly the [KeyError] of the first label, taking
    sensors, then computers, then actuators, that the mass table of its
    stage lacks; with no such label it returns the sum of the unit masses. *)
Theorem calc_mass_outcome (cls : GNCCalculator)
    (sensor_types computer_types : list string)
    (actuator_types : option (list string)) :
  calc_mass cls sensor_types computer_types actuator_types =
  match calc_mass_exception cls sensor_types computer_types actuator_types with
  | Some e => inl e
  | None =>
      let ms := sum (map (lookup_or_zero (mass cls S_)) sensor_types) in
      let mc := sum (map (lookup_or_zero (mass cls C_)) computer_types) in
      match actuator_types with
      | Some ats => inr (ms + mc + sum (map (lookup_or_zero (mass cls A_)) ats))
      | None => inr (ms + mc)
      end
  end.
Proof.
  apply calc_mass_outcome_eq.
Qed.

Lemma calc_failure_rate_outcome_aux (cls : GNCCalculator)
    (sensor_types computer_types : list string) (conns : list edge)
    (actuator_types : option (list string)) (act_conns : option (list edge)) :
  match calc_failure_rate_exception cls sensor_types computer_types conns
          actuator_types act_conns with
  | Some e =>
      calc_failure_rate cls sensor_types computer_types conns actuator_types act_conns
      = inl e
  | None =>
      exists v,
        calc_failure_rate cls sensor_types computer_types conns actuator_types act_conns
        = inr v
  end.
Proof.
  unfold calc_failure_rate, calc_failure_rate_exception, get_failure_rates.
  rewrite !lookup_all_spec.
  destruct (first_missing (failure_rate cls S_) sensor_types); simpl; [reflexivity|].
  destruct (first_missing (failure_rate cls C_) computer_types); simpl; [reflexivity|].
  destruct actuator_types as [ats|].
  - rewrite lookup_all_spec.
    destruct (first_missing (failure_rate cls A_) ats); simpl; [reflexivity|].
    unfold failure_probability. simpl. rewrite !length_map.
    pose proof (fill_edges_zeros (length sensor_types) (length computer_types) conns) as H1.
    revert H1. unfold edges_exception.
    destruct (all_resolvable _ _ conns); intros H1.
    + destruct H1 as [M1 ->]. simpl.
      destruct act_conns as [acs|]; [|reflexivity].
      pose proof (fill_edges_zeros (length computer_types) (length ats) acs) as H2.
      revert H2. unfold edges_exception.
      destruct (all_resolvable _ _ acs); intros H2.
      * destruct H2 as [M2 ->]. simpl. eauto.
      * rewrite H2. reflexivity.
    + rewrite H1. reflexivity.
  - simpl. unfold failure_probability. simpl. rewrite !length_map.
    pose proof (fill_edges_zeros (length sensor_types) (length computer_types) conns) as H1.
    revert H1. unfold edges_exception.
    destruct (all_resolvable _ _ conns); intros H1.
    + destruct H1 as [M1 ->]. simpl. eauto.
    + rewrite H1. reflexivity.
Qed.

(** X2. For edge lists whose indices fit a C long, [calc_failure_rate]
    raises exactly the exception that [calc_failure_rate_exception] names,
    and returns a value when it names none: a [KeyError] for the first label
    missing from the failure-rate table (sensors, computers, then
    actuators), else an [IndexError] when an edge of [conns] has an index
    numpy cannot resolve, else (with actuators) a [TypeError] when
    [act_conns] is [None] or an [IndexError] for an edge of [act_conns]. *)
Theorem calc_failure_rate_outcome (cls : GNCCalculator)
    (sensor_types computer_types : list string) (conns : list edge)
    (actuator_types : option (list string)) (act_conns : option (list edge)) :
  edges_fit conns ->
  (forall acs, act_conns = Some acs -> edges_fit acs) ->
  match calc_failure_rate_exception cls sensor_types computer_types conns
          actuator_types act_conns with
  | Some e =>
      calc_failure_rate cls sensor_types computer_types conns actuator_types act_conns
      = inl e
  | None =>
      exists v,
        calc_failure_rate cls sensor_types computer_types conns actuator_types act_conns
        = inr v
  end.
Proof.
  intros _ _. apply calc_failure_rate_outcome_aux.
Qed.

Lemma edges_fit_small (edges : list edge) :
  Forall (fun e => (Z.abs (fst e) < 2 ^ 63 /\ Z.abs (snd e) < 2 ^ 63)%Z) edges ->
  edges_fit edges.
Proof.
  apply Forall_impl. intros [a b]; simpl. unfold fits_c_long. lia.
Qed.

Lemma calc_failure_rate_outcome_witness :
  edges_fit [(0, 0); (1, 5); (7, 0)]%Z /\
  calc_failure_rate GNC ["A"; "B"]%string ["A"]%string [(0, 0); (1, 5); (7, 0)]%Z
    (Some ["A"]%string) None
  = inl IndexError.
Proof.
  assert (F : edges_fit [(0, 0); (1, 5); (7, 0)]%Z).
  { apply edges_fit_small. repeat constructor; simpl; lia. }
  split; [exact F|].
  apply (calc_failure_rate_outcome GNC ["A"; "B"]%string ["A"]%string
           [(0, 0); (1, 5); (7, 0)]%Z (Some ["A"]%string) None F).
  intros acs [=].
Defined.

(* ===================================================================== *)
(** ** Indices counted from the end *)

Lemma resolve_index_normalize (n : nat) (i : Z) :
  resolve_index n (normalize_index n i) = resolve_index n i.
Proof.
  unfold normalize_index. destruct (resolve_index n i) as [e|k] eqn:E; [exact E|].
  pose proof (resolve_index_lt _ _ _ E) as L. unfold resolve_index.
  replace ((0 <=? Z.of_nat k) && (Z.of_nat k <? Z.of_nat n))%Z with true.
  - rewrite Nat2Z.id. reflexivity.
  - symmetry. apply andb_true_iff. split; [apply Z.leb_le|apply Z.ltb_lt]; lia.
Qed.

Lemma fill_edges_normalize (edges : list edge) (M : ndarray) :
  fill_edges M (map (normalize_edge (shape0 M) (shape1 M)) edges) = fill_edges M edges.
Proof.
  revert M. induction edges as [|[x y] es IH]; intros M; simpl; [reflexivity|].
  assert (E : setitem M (normalize_index (shape0 M) x) (normalize_index (shape1 M) y) 1
              = setitem M x y 1).
  { unfold setitem. rewrite !resolve_index_normalize. reflexivity. }
  rewrite E. destruct (setitem M x y 1) as [e|M1] eqn:S1; simpl; [reflexivity|].
  apply setitem_shape in S1 as [<- <-]. apply IH.
Qed.

Lemma fill_edges_normalize_zeros (n m : nat) (edges : list edge) :
  fill_edges (np_zeros n m) (map (normalize_edge n m) edges)
  = fill_edges (np_zeros n m) edges.
Proof. exact (fill_edges_normalize edges (np_zeros n m)). Qed.

Lemma calc_failure_rate_normalize (cls : GNCCalculator)
    (sensor_types computer_types : list string) (conns : list edge)
    (actuator_types : option (list string)) (act_conns : option (list edge)) :
  let n_s := length sensor_types in
  let n_c := length computer_types in
  let n_a := match actuator_types with Some ats => length ats | None => 0%nat end in
  calc_failure_rate cls sensor_types computer_types
    (map (normalize_edge n_s n_c) conns)
    actuator_types (option_map (map (normalize_edge n_c n_a)) act_conns)
  = calc_failure_rate cls sensor_types computer_types conns actuator_types act_conns.
Proof.
  intros n_s n_c n_a. subst n_s n_c n_a.
  unfold calc_failure_rate, get_failure_rates.
  rewrite !lookup_all_spec.
  destruct (first_missing (failure_rate cls S_) sensor_types); simpl; [reflexivity|].
  destruct (first_missing (failure_rate cls C_) computer_types); simpl; [reflexivity|].
  destruct actuator_types as [ats|].
  - rewrite lookup_all_spec.
    destruct (first_missing (failure_rate cls A_) ats); simpl; [reflexivity|].
    unfold failure_probability. simpl. rewrite !length_map.
    rewrite fill_edges_normalize_zeros.
    destruct act_conns as [acs|]; simpl; [|reflexivity].
    rewrite fill_edges_normalize_zeros. reflexivity.
  - simpl. unfold failure_probability. simpl. rewrite !length_map.
    rewrite fill_edges_normalize_zeros. reflexivity.
Qed.

(** X3. Replacing, in every edge, an index counted from the end by the
    position it denotes changes nothing: [calc_failure_rate] gives the same
    result (value or exception) on the normalized edge lists. *)
Theorem negative_indices_count_from_the_end (cls : GNCCalculator)
    (sensor_types computer_types : list string) (conns : list edge)
    (actuator_types : option (list string)) (act_conns : option (list edge)) :
  let n_s := length sensor_types in
  let n_c := length computer_types in
  let n_a := match actuator_types with Some ats => length ats | None => 0%nat end in
  calc_failure_rate cls sensor_types computer_types
    (map (normalize_edge n_s n_c) conns)
    actuator_types (option_map (map (normalize_edge n_c n_a)) act_conns)
  = calc_failure_rate cls sensor_types computer_types conns actuator_types act_conns.
Proof.
  apply calc_failure_rate_normalize.
Qed.

(* ===================================================================== *)
(** ** Edges that do not resolve *)

Lemma normalize_index_from_end (n : nat) (t : Z) :
  (- Z.of_nat n <= t < 0)%Z -> normalize_index n t = (Z.of_nat n + t)%Z.
Proof.
  intros H. unfold normalize_index, resolve_index.
  replace ((0 <=? t) && (t <? Z.of_nat n))%Z with false.
  - replace ((- Z.of_nat n <=? t) && (t <? 0))%Z with true.
    + simpl. lia.
    + symmetry. apply andb_true_iff. split; [apply Z.leb_le|apply Z.ltb_lt]; lia.
  - symmetry. apply andb_false_iff. left. apply Z.leb_gt. lia.
Qed.

Lemma normalize_index_in_range (n : nat) (t : Z) :
  (0 <= t < Z.of_nat n)%Z -> normalize_index n t = t.
Proof.
  intros H. unfold normalize_index, resolve_index.
  replace ((0 <=? t) && (t <? Z.of_nat n))%Z with true.
  - simpl. lia.
  - symmetry. apply andb_true_iff. split; [apply Z.leb_le|apply Z.ltb_lt]; lia.
Qed.

(** C7 (as amended).  The only check on an edge is numpy's bounds check in
    the matrix write.
    - An edge whose target index is out of numpy's bounds for the target
      stage of [n] units ([t >= n] or [t < -n]) makes [calc_failure_rate]
      raise: no value is returned.  When the indices of the edge lists fit a
      C long the exception is the [IndexError] of the matrix write, unless a
      catalog lookup has raised [KeyError] before.  The edge lists concerned
      are [conns], and [act_conns] when actuators are given.
    - A negative index [-n <= t < 0] is not rejected: it denotes the unit
      [n + t], and replacing every such index by the unit it denotes leaves
      the result of [calc_failure_rate] unchanged. *)
Theorem out_of_bounds_target_is_fatal (cls : GNCCalculator)
    (sensor_types computer_types : list string) (conns : list edge)
    (actuator_types : option (list string)) (act_conns : option (list edge)) :
  let n_s := length sensor_types in
  let n_c := length computer_types in
  let n_a := match actuator_types with Some ats => length ats | None => 0%nat end in
  let result :=
    calc_failure_rate cls sensor_types computer_types conns actuator_types act_conns in
  (dangling n_c conns \/
   (exists ats acs, actuator_types = Some ats /\ act_conns = Some acs /\
                    dangling (length ats) acs) ->
   is_error result = true /\
   (edges_fit conns -> (forall acs, act_conns = Some acs -> edges_fit acs) ->
    result = inl IndexError \/ raises_KeyError result)) /\
  (forall (n : nat) (t : Z),
     (- Z.of_nat n <= t < 0)%Z -> normalize_index n t = (Z.of_nat n + t)%Z) /\
  (forall (n : nat) (t : Z), (0 <= t < Z.of_nat n)%Z -> normalize_index n t = t) /\
  calc_failure_rate cls sensor_types computer_types
    (map (normalize_edge n_s n_c) conns)
    actuator_types (option_map (map (normalize_edge n_c n_a)) act_conns)
  = result.
Proof.
  intros n_s n_c n_a result. split; [|split; [|split]].
  - intros H.
    pose proof (calc_failure_rate_dangling cls sensor_types computer_types conns
                  actuator_types act_conns H) as D.
    fold result in D. split.
    + destruct D as [-> | [k ->]]; reflexivity.
    + intros _ _. exact D.
  - exact normalize_index_from_end.
  - exact normalize_index_in_range.
  - apply calc_failure_rate_normalize.
Qed.

Lemma out_of_bounds_target_is_fatal_witness :
  dangling (length ["A"%string]) [(0, 1)%Z] /\
  edges_fit [(0, 1)%Z] /\
  calc_failure_rate GNC ["A"]%string ["A"]%string [(0, 1)%Z] None None = inl IndexError.
Proof.
  assert (H : dangling (length ["A"%string]) [(0, 1)%Z]).
  { exists (0, 1)%Z. split; [left; reflexivity|right; simpl; lia]. }
  assert (F : edges_fit [(0, 1)%Z]).
  { apply edges_fit_small. repeat constructor; simpl; lia. }
  split; [exact H|]. split; [exact F|].
  destruct (out_of_bounds_target_is_fatal GNC ["A"%string] ["A"%string] [(0, 1)%Z]
              None None) as [D _].
  destruct (D (or_introl H)) as [_ E].
  assert (G : forall acs : list edge, None = Some acs -> edges_fit acs)
    by (intros acs [=]).
  destruct (E F G) as [E1|[k E2]]; [exact E1|].
  vm_compute in E2. discriminate.
Defined.

(* ===================================================================== *)
(** ** The mass *)

Lemma first_missing_none (d : table) (types : list string) :
  first_missing d types = None <-> forall t, In t types -> contains d t = true.
Proof.
  unfold first_missing. split.
  - intros H t Ht. pose proof (find_none _ _ H t Ht) as N.
    apply negb_false_iff in N. exact N.
  - intros H. destruct (find _ types) as [t|] eqn:F; [|reflexivity].
    apply find_some in F as [Ht N]. rewrite (H t Ht) in N. discriminate.
Qed.

Lemma first_missing_permutation (d : table) (l l' : list string) :
  Permutation l l' -> first_missing d l = None -> first_missing d l' = None.
Proof.
  intros P H. apply first_missing_none. intros t Ht.
  apply (proj1 (first_missing_none d l) H).
  eapply Permutation_in; [apply Permutation_sym; exact P|exact Ht].
Qed.

Lemma sum_cons (x : Q) (l : list Q) : sum (x :: l) == x + sum l.
Proof. exact (total_rate_of_cons x l). Qed.

Lemma sum_permutation (l l' : list Q) : Permutation l l' -> sum l == sum l'.
Proof.
  induction 1 as [|x l l' _ IH|x y l|l l' l'' _ IH1 _ IH2].
  - reflexivity.
  - rewrite !sum_cons, IH. reflexivity.
  - rewrite !sum_cons. ring.
  - rewrite IH1. exact IH2.
Qed.

(** X4. Reordering the units within each stage does not change the mass:
    when [calc_mass] returns a mass, it returns an equal one on any
    reordering of the three label lists. *)
Theorem calc_mass_permutation (cls : GNCCalculator)
    (sensor_types sensor_types' computer_types computer_types' : list string)
    (actuator_types actuator_types' : option (list string)) (m : Q) :
  Permutation sensor_types sensor_types' ->
  Permutation computer_types computer_types' ->
  permutation_opt actuator_types actuator_types' ->
  calc_mass cls sensor_types computer_types actuator_types = inr m ->
  exists m', calc_mass cls sensor_types' computer_types' actuator_types' = inr m'
             /\ m' == m.
Proof.
  intros Ps Pc Pa. rewrite !calc_mass_outcome_eq. unfold calc_mass_exception.
  destruct (first_missing (mass cls S_) sensor_types) eqn:Fs; [discriminate|].
  rewrite (first_missing_permutation _ _ _ Ps Fs).
  destruct (first_missing (mass cls C_) computer_types) eqn:Fc; [discriminate|].
  rewrite (first_missing_permutation _ _ _ Pc Fc).
  pose proof (sum_permutation _ _ (Permutation_map (lookup_or_zero (mass cls S_)) Ps)) as Es.
  pose proof (sum_permutation _ _ (Permutation_map (lookup_or_zero (mass cls C_)) Pc)) as Ec.
  destruct actuator_types as [ats|], actuator_types' as [ats'|]; simpl in Pa;
    try contradiction.
  - destruct (first_missing (mass cls A_) ats) eqn:Fa; [discriminate|].
    rewrite (first_missing_permutation _ _ _ Pa Fa).
    pose proof (sum_permutation _ _ (Permutation_map (lookup_or_zero (mass cls A_)) Pa)) as Ea.
    intros E; inversion E; subst m. eexists. split; [reflexivity|].
    cbv zeta. rewrite Es, Ec, Ea. reflexivity.
  - intros E; inversion E; subst m. eexists. split; [reflexivity|].
    cbv zeta. rewrite Es, Ec. reflexivity.
Qed.

Lemma calc_mass_permutation_witness :
  exists m', calc_mass GNC ["B"; "A"]%string ["C"; "A"; "B"]%string (Some ["C"; "A"]%string)
             = inr m' /\ m' == 160 # 4.
Proof.
  apply (calc_mass_permutation GNC ["A"; "B"]%string ["B"; "A"]%string
           ["A"; "B"; "C"]%string ["C"; "A"; "B"]%string
           (Some ["A"; "C"]%string) (Some ["C"; "A"]%string)).
  - apply perm_swap.
  - apply Permutation_sym, (Permutation_cons_append ["A"; "B"]%string "C"%string).
  - apply perm_swap.
  - reflexivity.
Defined.

Lemma sum_bounds (lo hi : Q) (l : list Q) :
  Forall (fun x => lo <= x /\ x <= hi) l ->
  lo * inject_Z (Z.of_nat (length l)) <= sum l /\
  sum l <= hi * inject_Z (Z.of_nat (length l)).
Proof.
  induction 1 as [|x l [A B] _ [IH1 IH2]].
  - change (sum []) with 0. change (inject_Z (Z.of_nat (length (@nil Q)))) with 0.
    split; lra.
  - rewrite sum_cons. cbn [length]. rewrite Nat2Z.inj_succ. unfold Z.succ.
    rewrite inject_Z_plus. change (inject_Z 1) with 1. split; lra.
Qed.

Lemma GNC_mass_bounds (k : stage) (t : string) :
  contains (mass GNC k) t = true ->
  3 <= lookup_or_zero (mass GNC k) t /\ lookup_or_zero (mass GNC k) t <= 10.
Proof.
  unfold lookup_or_zero.
  destruct k; cbn -[String.eqb];
    destruct (String.eqb "A" t); cbn -[String.eqb];
    try (intros _; split; unfold Qle; simpl; lia);
    destruct (String.eqb "B" t); cbn -[String.eqb];
    try (intros _; split; unfold Qle; simpl; lia);
    destruct (String.eqb "C" t); cbn -[String.eqb];
    try (intros _; split; unfold Qle; simpl; lia);
    discriminate.
Qed.

Lemma GNC_masses_bounds (k : stage) (types : list string) :
  first_missing (mass GNC k) types = None ->
  Forall (fun x => 3 <= x /\ x <= 10) (map (lookup_or_zero (mass GNC k)) types).
Proof.
  intros H. apply Forall_forall. intros x Hx.
  apply in_map_iff in Hx as [t [<- Ht]].
  apply GNC_mass_bounds. apply (proj1 (first_missing_none _ _) H t Ht).
Qed.

(** X5. With the tables of the class, every unit weighs between 3 and 10:
    a mass returned for [n] units in all lies between [3 n] and [10 n]. *)
Theorem calc_mass_bounds (sensor_types computer_types : list string)
    (actuator_types : option (list string)) (m : Q) :
  calc_mass GNC sensor_types computer_types actuator_types = inr m ->
  let n := inject_Z (Z.of_nat (unit_count sensor_types computer_types actuator_types)) in
  3 * n <= m /\ m <= 10 * n.
Proof.
  rewrite calc_mass_outcome_eq. unfold calc_mass_exception, unit_count.
  destruct (first_missing (mass GNC S_) sensor_types) eqn:Fs; [discriminate|].
  destruct (first_missing (mass GNC C_) computer_types) eqn:Fc; [discriminate|].
  destruct (sum_bounds 3 10 _ (GNC_masses_bounds S_ _ Fs)) as [S1 S2].
  destruct (sum_bounds 3 10 _ (GNC_masses_bounds C_ _ Fc)) as [C1 C2].
  rewrite length_map in S1, S2, C1, C2.
  remember (sum (map (lookup_or_zero (mass GNC S_)) sensor_types)) as xs eqn:Exs.
  remember (sum (map (lookup_or_zero (mass GNC C_)) computer_types)) as xc eqn:Exc.
  clear Exs Exc.
  destruct actuator_types as [ats|].
  - destruct (first_missing (mass GNC A_) ats) eqn:Fa; [discriminate|].
    destruct (sum_bounds 3 10 _ (GNC_masses_bounds A_ _ Fa)) as [A1 A2].
    rewrite length_map in A1, A2.
    remember (sum (map (lookup_or_zero (mass GNC A_)) ats)) as xa eqn:Exa. clear Exa.
    intros [= <-]. cbv zeta.
    rewrite !Nat2Z.inj_add, !inject_Z_plus. split; lra.
  - intros [= <-]. cbv zeta.
    rewrite Nat.add_0_r, !Nat2Z.inj_add, !inject_Z_plus. split; lra.
Qed.

Lemma calc_mass_bounds_witness :
  3 * inject_Z 3 <= 19 /\ 19 <= 10 * inject_Z 3.
Proof.
  exact (calc_mass_bounds ["A"; "B"]%string ["C"]%string None 19 eq_refl).
Defined.

(* ===================================================================== *)
(** ** The value of the enumeration *)

Lemma failure_probability_inv (fr : list (list Q)) (oc : list (option (list edge))) (p : Q) :
  failure_probability fr oc = inr p ->
  exists cms, build_conn_matrices fr 0 oc = inr cms /\
              p = _branch_failures fr cms 0 None /\
              length cms = length oc /\ shapes_ok fr cms.
Proof.
  unfold failure_probability.
  destruct (build_conn_matrices fr 0 oc) as [e|cms] eqn:B; simpl; [discriminate|].
  intros [= <-]. exists cms. split; [reflexivity|]. split; [reflexivity|].
  split; [apply (build_conn_matrices_shapes _ _ _ _ B)|].
  apply (build_conn_matrices_shapes_ok _ _ _ B).
Qed.

(** In exact arithmetic the guard and the all-targets-fail term cancel: the
    failure probability equals the nested expectation [full_failure], in which every
    call weighs every scenario of its mask, the all-failed one included, by
    its occurrence probability, and the last stage contributes the product
    of the rates of its reachable units. *)
Theorem failure_probability_is_expectation (failure_rates : list (list Q))
    (obj_conns : list (option (list edge))) (p : Q) :
  obj_conns <> [] ->
  failure_probability failure_rates obj_conns = inr p ->
  exists conn_matrices,
    build_conn_matrices failure_rates 0 obj_conns = inr conn_matrices /\
    p == full_failure failure_rates conn_matrices (length conn_matrices) 0
           (repeat true (length (nth 0 failure_rates []))).
Proof.
  intros Hne Hp. destruct (failure_probability_inv _ _ _ Hp) as [cms [B [-> [L Hs]]]].
  exists cms. split; [exact B|]. apply root_call_full; [exact Hs|].
  intros ->. destruct obj_conns; [congruence|discriminate].
Qed.

Lemma failure_probability_is_expectation_witness :
  exists conn_matrices,
    build_conn_matrices [[1 # 2]; [1 # 3]] 0 [Some [(0, 0)%Z]] = inr conn_matrices /\
    _branch_failures [[1 # 2]; [1 # 3]] [one_edge_matrix] 0 None
    == full_failure [[1 # 2]; [1 # 3]] conn_matrices (length conn_matrices) 0
         (repeat true (length (nth 0 [[1 # 2]; [1 # 3]] []))).
Proof.
  apply (failure_probability_is_expectation [[1 # 2]; [1 # 3]] [Some [(0, 0)%Z]]).
  - discriminate.
  - reflexivity.
Defined.

Lemma expect_ext (mask : list bool) (rates : list Q) (F G : list bool -> Q) :
  (forall ok, F ok == G ok) -> expect rates mask F == expect rates mask G.
Proof.
  revert rates F G. induction mask as [|b mask IH]; intros rates F G H.
  - destruct rates; apply H.
  - destruct rates as [|r rates]; [apply H|]. simpl.
    pose proof (IH rates (fun ok => F (false :: ok)) (fun ok => G (false :: ok))
                  (fun ok => H (false :: ok))) as A.
    pose proof (IH rates (fun ok => F (true :: ok)) (fun ok => G (true :: ok))
                  (fun ok => H (true :: ok))) as B.
    destruct b; [rewrite A, B; reflexivity|exact A].
Qed.

Lemma expect_const (mask : list bool) (rates : list Q) (c : Q) :
  expect rates mask (fun _ => c) == c.
Proof.
  revert rates. induction mask as [|b mask IH]; intros rates.
  - destruct rates; reflexivity.
  - destruct rates as [|r rates]; [reflexivity|]. simpl.
    destruct b; [rewrite !IH; ring|apply IH].
Qed.

(** Below a transition whose matrix connects nothing, failure is certain. *)
Lemma full_failure_cut (fr : list (list Q)) (cms : list ndarray) (k : nat) :
  (forall ok, any (connected_targets (nth k cms (np_zeros 0 0)) ok) = false) ->
  forall (fuel i : nat) (mask : list bool),
    (i <= k)%nat -> (k < i + fuel)%nat ->
    full_failure fr cms fuel i mask == 1.
Proof.
  intros Hk. induction fuel as [|fuel IH]; intros i mask Hi Hf; [lia|]. simpl.
  rewrite <- (expect_const mask (nth i fr []) 1). apply expect_ext. intros ok.
  destruct (Nat.eq_dec i k) as [->|Hne].
  - apply full_failure_none. apply Hk.
  - apply IH; lia.
Qed.

Lemma build_conn_matrices_nth (fr : list (list Q)) (oc : list (option (list edge))) :
  forall (i : nat) (cms : list ndarray) (k : nat) (es : list edge),
    build_conn_matrices fr i oc = inr cms ->
    nth_error oc k = Some (Some es) ->
    fill_edges (np_zeros (length (nth (i + k) fr [])) (length (nth (i + k + 1) fr []))) es
    = inr (nth k cms (np_zeros 0 0)).
Proof.
  induction oc as [|o oc IH]; intros i cms k es; simpl.
  - destruct k; discriminate.
  - destruct o as [es0|]; [|discriminate].
    destruct (fill_edges _ es0) as [e|M] eqn:EM; simpl; [discriminate|].
    destruct (build_conn_matrices fr (i + 1) oc) as [e|ms] eqn:Ems; simpl; [discriminate|].
    intros [= <-]. destruct k as [|k]; simpl.
    + intros [= <-]. rewrite Nat.add_0_r. exact EM.
    + intros Hk. replace (i + S k)%nat with (i + 1 + k)%nat by lia.
      apply (IH _ _ _ _ Ems Hk).
Qed.

Lemma entry_np_zeros (n m a b : nat) : entry (np_zeros n m) a b = 0%Z.
Proof.
  unfold entry, np_zeros; simpl.
  destruct (Nat.lt_ge_cases a n) as [L|L].
  - rewrite nth_repeat_lt by exact L.
    destruct (Nat.lt_ge_cases b m) as [L'|L'].
    + apply nth_repeat_lt; exact L'.
    + apply nth_overflow. rewrite repeat_length. exact L'.
  - rewrite (nth_overflow _ []) by (rewrite repeat_length; exact L).
    destruct b; reflexivity.
Qed.

Lemma connected_targets_np_zeros (n m : nat) (ok : list bool) :
  any (connected_targets (np_zeros n m) ok) = false.
Proof.
  apply connected_targets_none. intros i j _. apply (entry_np_zeros n m i j).
Qed.

Lemma failure_probability_no_edges (fr : list (list Q))
    (oc : list (option (list edge))) (p : Q) :
  failure_probability fr oc = inr p -> In (Some []) oc -> p == 1.
Proof.
  intros Hp Hin. destruct (failure_probability_inv _ _ _ Hp) as [cms [B [-> [L Hs]]]].
  apply In_nth_error in Hin as [k Hk].
  pose proof (build_conn_matrices_nth _ _ _ _ _ _ B Hk) as E. simpl in E.
  injection E as E.
  assert (Hlt : (k < length cms)%nat).
  { rewrite L. apply nth_error_Some. rewrite Hk. discriminate. }
  rewrite root_call_full; [|exact Hs|intros ->; simpl in Hlt; lia].
  apply (full_failure_cut fr cms k); [|lia|lia].
  intros ok. rewrite <- E. apply connected_targets_np_zeros.
Qed.

Lemma np_log10_one (p : Q) : p == 1 -> np_log10 p = Finite 0%R.
Proof.
  intros H. rewrite np_log10_pos by (rewrite H; reflexivity).
  f_equal. rewrite (Qeq_eqR _ _ H), Q2R_one. unfold log10. rewrite ln_1.
  unfold Rdiv. apply Rmult_0_l.
Qed.

(** In exact arithmetic a transition without any edge makes failure certain
    (the occurrence probabilities of a call sum to 1): when [conns] is
    empty, or actuators are given and [act_conns] is empty, a call of
    [calc_failure_rate] that returns returns [log10 1 = 0]. *)
Theorem no_edges_certain_failure (cls : GNCCalculator)
    (sensor_types computer_types : list string) (conns : list edge)
    (actuator_types : option (list string)) (act_conns : option (list edge))
    (v : xreal) :
  conns = [] \/ (actuator_types <> None /\ act_conns = Some []) ->
  calc_failure_rate cls sensor_types computer_types conns actuator_types act_conns
    = inr v ->
  v = Finite 0%R.
Proof.
  intros H. unfold calc_failure_rate.
  destruct (get_failure_rates cls sensor_types computer_types conns actuator_types act_conns)
    as [e|[fr oc]] eqn:G; simpl; [discriminate|].
  destruct (failure_probability fr oc) as [e|p] eqn:P; simpl; [discriminate|].
  intros [= <-]. apply np_log10_one.
  apply (failure_probability_no_edges fr oc p P).
  unfold get_failure_rates in G.
  destruct (lookup_all (failure_rate cls S_) sensor_types); simpl in G; [discriminate|].
  destruct (lookup_all (failure_rate cls C_) computer_types); simpl in G; [discriminate|].
  destruct actuator_types as [ats|].
  - destruct (lookup_all (failure_rate cls A_) ats); simpl in G; [discriminate|].
    injection G as <- <-.
    destruct H as [->|[_ ->]]; simpl; auto.
  - injection G as <- <-.
    destruct H as [->|[N _]]; [simpl; auto|congruence].
Qed.

Lemma no_edges_certain_failure_witness :
  calc_failure_rate GNC ["A"; "B"]%string ["C"]%string [(0, 0); (1, 0)]%Z
    (Some ["A"]%string) (Some []) = inr (np_log10 1) /\
  np_log10 1 = Finite 0%R.
Proof.
  assert (E : exists p, failure_probability [[15 # 100000; 1 # 10000]; [2 # 100000]; [8 # 100000]]
                          [Some [(0, 0); (1, 0)]%Z; Some []] = inr p /\ p == 1).
  { eexists. split; [vm_compute; reflexivity|reflexivity]. }
  destruct E as [p [Hp Hq]].
  assert (C : calc_failure_rate GNC ["A"; "B"]%string ["C"]%string [(0, 0); (1, 0)]%Z
                (Some ["A"]%string) (Some []) = inr (np_log10 p)).
  { rewrite (calc_failure_rate_eq GNC _ _ _ _ _
               ([[15 # 100000; 1 # 10000]; [2 # 100000]; [8 # 100000]],
                [Some [(0, 0); (1, 0)]%Z; Some []])) by reflexivity.
    simpl fst; simpl snd. rewrite Hp. reflexivity. }
  assert (N : Some ["A"%string] <> None) by discriminate.
  pose proof (no_edges_certain_failure GNC _ _ _ _ _ _
                (or_intror (conj N eq_refl)) C) as V.
  rewrite C, V. split; [f_equal; symmetry|]; apply np_log10_one; reflexivity.
Defined.

(* ===================================================================== *)
(** ** A positive probability *)

Lemma prod_pos (l : list Q) : Forall (fun r => 0 < r) l -> 0 < prod l.
Proof.
  induction 1 as [|x l Hx _ IH].
  - rewrite prod_nil. reflexivity.
  - rewrite prod_cons. apply Qmult_lt_0_compat; assumption.
Qed.

Lemma rates_nth_positive (fr : list (list Q)) (i : nat) :
  rates_positive fr -> Forall (fun r => 0 < r) (nth i fr []).
Proof.
  intros H. revert i. induction H as [|l fr Hl _ IH]; intros [|i]; simpl;
    try constructor; auto.
Qed.

Lemma select_ones {A} (xs : list A) : select (repeat true (length xs)) xs = xs.
Proof.
  induction xs as [|x xs IH]; simpl; [reflexivity|]. f_equal. exact IH.
Qed.

Lemma root_call_positive (fr : list (list Q)) (cms : list ndarray) :
  rates_in_unit_interval fr -> rates_positive fr -> cms <> [] ->
  0 < _branch_failures fr cms 0 None.
Proof.
  intros U P Hne.
  assert (Hi : (0 < length cms)%nat) by (destruct cms; [congruence|simpl; lia]).
  rewrite (branch_failures_unfold fr cms 0 None Hi). simpl mask_or_ones.
  set (mask := repeat true (length (nth 0 fr []))).
  destruct (product_all_failed_first mask) as [rest [E _]]. rewrite E.
  simpl flat_map. rewrite total_rate_of_app, scenario_terms_all_failed.
  change (0 <? 0)%nat with false. cbv iota.
  rewrite total_rate_of_cons, total_rate_of_nil.
  assert (A : 0 < occurrence_prob (nth 0 fr []) mask (all_failed mask)).
  { unfold occurrence_prob, all_failed. rewrite flip_ok_all_failed.
    unfold mask. rewrite select_ones. apply prod_pos, rates_nth_positive, P. }
  assert (B : 0 <= total_rate_of
                (flat_map (scenario_terms fr cms
                   (fun m => _branch_failures fr cms (0 + 1) (Some m)) 0 mask) rest)).
  { apply total_rate_of_nonneg. apply Forall_flat_map, Forall_forall. intros ok _.
    unfold scenario_terms.
    destruct ((0 <? 0)%nat && negb (any ok))%bool; [constructor|].
    pose proof (occurrence_prob_unit (nth 0 fr []) mask ok (rates_nth_unit _ 0 U))
      as [O0 _].
    set (T := connected_targets (nth 0 cms (np_zeros 0 0)) ok).
    pose proof (prod_unit _ (select_Forall _ T _ (rates_nth_unit _ (0 + 1) U))) as [P0 _].
    destruct (length _ =? 0)%nat; [constructor; [exact O0|constructor]|].
    constructor; [apply Qmult_le_0_compat; assumption|].
    destruct (0 <? length cms - 1)%nat; constructor; [|constructor].
    apply Qmult_le_0_compat; [exact O0|].
    apply branch_failures_nonneg. exact U. }
  change (0 + 1)%nat with 1%nat in B. lra.
Qed.

Lemma lookup_all_positive (d : table) (types : list string) (vs : list Q) :
  Forall (fun kv => 0 < snd kv /\ snd kv <= 1) d ->
  lookup_all d types = inr vs -> Forall (fun r => 0 < r) vs /\ Forall unit_interval vs.
Proof.
  intros Hd. rewrite lookup_all_spec.
  destruct (first_missing d types) eqn:F; [discriminate|].
  intros [= <-]. rewrite first_missing_none in F.
  assert (X : forall t, In t types ->
              0 < lookup_or_zero d t /\ lookup_or_zero d t <= 1).
  { intros t Ht. specialize (F t Ht). unfold lookup_or_zero.
    clear -Hd F. induction Hd as [|[k v] d Hv _ IH]; simpl in *; [discriminate|].
    destruct (String.eqb k t); simpl in *; [exact Hv|apply IH; exact F]. }
  split; apply Forall_forall; intros x Hx; apply in_map_iff in Hx as [t [<- Ht]];
    destruct (X t Ht) as [A B]; [exact A|].
  split; [apply Qlt_le_weak; exact A|exact B].
Qed.

Lemma get_failure_rates_positive (cls : GNCCalculator)
    (sensor_types computer_types : list string) (conns : list edge)
    (actuator_types : option (list string)) (act_conns : option (list edge))
    (fr : list (list Q)) (oc : list (option (list edge))) :
  catalog_positive cls ->
  get_failure_rates cls sensor_types computer_types conns actuator_types act_conns
    = inr (fr, oc) ->
  rates_positive fr /\ rates_in_unit_interval fr /\ oc <> [].
Proof.
  intros Hc. unfold get_failure_rates.
  destruct (lookup_all (failure_rate cls S_) sensor_types) as [e|s] eqn:Es; simpl;
    [discriminate|].
  destruct (lookup_all (failure_rate cls C_) computer_types) as [e|c] eqn:Ec; simpl;
    [discriminate|].
  apply lookup_all_positive in Es as [Ps Us]; [|apply Hc].
  apply lookup_all_positive in Ec as [Pc Uc]; [|apply Hc].
  destruct actuator_types as [ats|].
  - destruct (lookup_all (failure_rate cls A_) ats) as [e|a] eqn:Ea; simpl; [discriminate|].
    apply lookup_all_positive in Ea as [Pa Ua]; [|apply Hc].
    intros [= <- <-]. split; [|split; [|discriminate]];
      repeat (constructor; try assumption).
  - simpl. intros [= <- <-]. split; [|split; [|discriminate]];
      repeat (constructor; try assumption).
Qed.

Lemma calc_failure_rate_finite (cls : GNCCalculator)
    (sensor_types computer_types : list string) (conns : list edge)
    (actuator_types : option (list string)) (act_conns : option (list edge))
    (v : xreal) :
  catalog_positive cls ->
  calc_failure_rate cls sensor_types computer_types conns actuator_types act_conns
    = inr v ->
  exists x, v = Finite x /\ (x <= 0)%R.
Proof.
  intros Hc. unfold calc_failure_rate.
  destruct (get_failure_rates cls sensor_types computer_types conns actuator_types act_conns)
    as [e|[fr oc]] eqn:G; simpl; [discriminate|].
  destruct (failure_probability fr oc) as [e|p] eqn:P; simpl; [discriminate|].
  intros [= <-].
  destruct (get_failure_rates_positive _ _ _ _ _ _ _ _ Hc G) as [Pos [U Hne]].
  destruct (failure_probability_inv _ _ _ P) as [cms [B [-> [L Hs]]]].
  assert (Hcms : cms <> []).
  { intros ->. destruct oc; [congruence|discriminate]. }
  pose proof (root_call_positive fr cms U Pos Hcms) as Hp.
  apply np_log10_unit.
  - apply root_call_unit; assumption.
  - intros Z. rewrite Z in Hp. discriminate.
Qed.

(** In exact arithmetic, with a catalog whose failure rates all lie in
    (0,1], as those of the class do, the failure probability is never 0:
    every value
    [calc_failure_rate] returns is a finite number, at most 0, and never
    [-inf] or [nan]. *)
Theorem positive_rates_finite_result (cls : GNCCalculator)
    (sensor_types computer_types : list string) (conns : list edge)
    (actuator_types : option (list string)) (act_conns : option (list edge))
    (v : xreal) :
  catalog_positive cls ->
  calc_failure_rate cls sensor_types computer_types conns actuator_types act_conns
    = inr v ->
  exists x, v = Finite x /\ (x <= 0)%R.
Proof.
  apply calc_failure_rate_finite.
Qed.

Lemma GNC_positive : catalog_positive GNC.
Proof.
  intros [| |]; simpl; repeat constructor; simpl; unfold Qlt, Qle; simpl; lia.
Qed.

Lemma positive_rates_finite_result_witness :
  exists x,
    np_log10 (_branch_failures [[15 # 100000]; [1 # 10000]] [one_edge_matrix] 0 None)
    = Finite x /\ (x <= 0)%R.
Proof.
  apply (positive_rates_finite_result GNC ["A"%string] ["A"%string] [(0, 0)%Z] None None
           _ GNC_positive).
  rewrite (calc_failure_rate_eq GNC _ _ _ _ _
             ([[15 # 100000]; [1 # 10000]], [Some [(0, 0)%Z]])) by reflexivity.
  reflexivity.
Defined.

(* ===================================================================== *)
(** ** More edges, fewer failures *)

Lemma select_in {A} (ok : list bool) (xs : list A) (d : A) (i : nat) :
  nth i ok false = true -> (i < length xs)%nat -> In (nth i xs d) (select ok xs).
Proof.
  revert xs i. induction ok as [|b ok IH]; intros [|x xs] [|i] Hok Hi; simpl in *;
    try discriminate; try lia.
  - subst b. left. reflexivity.
  - destruct b; [right|]; apply IH; auto; lia.
Qed.

Lemma matrix_le_refl (M : ndarray) : well_shaped M -> matrix_le M M.
Proof.
  intros W. repeat split; auto; apply W.
Qed.

Lemma connected_targets_matrix_mono (M M' : ndarray) (ok ok' : list bool) :
  matrix_le M M' -> ble ok ok' ->
  ble (connected_targets M ok) (connected_targets M' ok').
Proof.
  intros [W [W' [S0 [S1 Hle]]]] Hok.
  unfold ble, connected_targets, conn_mat_ok. rewrite !map_map, <- S1.
  induction (seq 0 (shape1 M)) as [|j js IH]; simpl; constructor; [|exact IH].
  unfold np_any.
  destruct (existsb _ (map _ (select ok _))) eqn:E; [|reflexivity].
  apply existsb_exists in E as [v [Hin Hv]].
  apply in_map_iff in Hin as [row [<- Hrow]].
  apply (in_select _ _ []) in Hrow as [i [Hi Hrow]].
  assert (Hnz : entry M i j <> 0%Z).
  { unfold entry. rewrite Hrow. intros Z. rewrite Z in Hv. discriminate. }
  assert (Li : (i < length (data M))%nat).
  { destruct (Nat.lt_ge_cases i (length (data M))) as [L|L]; [exact L|].
    exfalso. apply Hnz. unfold entry. rewrite (nth_overflow _ []) by exact L.
    destruct j; reflexivity. }
  replace (existsb _ (map _ (select ok' _))) with true; [reflexivity|].
  symmetry. apply existsb_exists. exists (nth j (nth i (data M') []) 0%Z). split.
  - apply in_map_iff. exists (nth i (data M') []). split; [reflexivity|].
    apply select_in.
    + clear -Hok Hi. revert i Hi. induction Hok as [|a b l l' Hab _ IH];
        intros [|i] Hi; simpl in *; try discriminate.
      * subst a. destruct b; [reflexivity|discriminate].
      * apply IH. exact Hi.
    + destruct W as [L0 _], W' as [L0' _]. lia.
  - apply negb_true_iff. apply Z.eqb_neq. apply (Hle i j Hnz).
Qed.

Lemma matrix_le_nth (cms cms' : list ndarray) (i : nat) :
  Forall2 matrix_le cms cms' ->
  matrix_le (nth i cms (np_zeros 0 0)) (nth i cms' (np_zeros 0 0)).
Proof.
  intros H. revert i. induction H as [|M M' cms cms' HM _ IH]; intros [|i]; simpl;
    auto; apply matrix_le_refl, np_zeros_well_shaped.
Qed.

Lemma matrix_le_left_refl (cms cms' : list ndarray) :
  Forall2 matrix_le cms cms' -> Forall2 matrix_le cms cms.
Proof.
  induction 1 as [|M M' cms cms' [W _] _ IH]; constructor;
    [apply matrix_le_refl; exact W|exact IH].
Qed.

Lemma matrix_le_right_refl (cms cms' : list ndarray) :
  Forall2 matrix_le cms cms' -> Forall2 matrix_le cms' cms'.
Proof.
  induction 1 as [|M M' cms cms' [_ [W _]] _ IH]; constructor;
    [apply matrix_le_refl; exact W|exact IH].
Qed.

(** The reference value shrinks when entries of the matrices are set. *)
Lemma full_failure_matrix_mono (fr : list (list Q)) (fuel : nat) :
  rates_in_unit_interval fr ->
  forall (cms cms' : list ndarray), Forall2 matrix_le cms cms' ->
  forall (i : nat) (m m' : list bool), ble m m' ->
    full_failure fr cms' fuel i m' <= full_failure fr cms fuel i m.
Proof.
  intros U. induction fuel as [|fuel IH]; intros cms cms' Hc i m m' Hm; simpl.
  - apply prod_select_mono; [exact Hm|].
    apply rate_le_list_refl, rates_nth_unit, U.
  - set (M := nth i cms (np_zeros 0 0)). set (M' := nth i cms' (np_zeros 0 0)).
    set (F := fun ok => full_failure fr cms fuel (i + 1) (connected_targets M ok)).
    set (F' := fun ok => full_failure fr cms' fuel (i + 1) (connected_targets M' ok)).
    pose proof (matrix_le_nth cms cms' i Hc) as HM. fold M M' in HM.
    assert (AF' : antitone F').
    { intros ok ok' Hok. unfold F'. apply (IH cms' cms' (matrix_le_right_refl _ _ Hc)).
      apply connected_targets_matrix_mono; [|exact Hok].
      apply matrix_le_refl. apply HM. }
    assert (FF' : forall ok, F' ok <= F ok).
    { intros ok. unfold F, F'. apply (IH cms cms' Hc).
      apply connected_targets_matrix_mono; [exact HM|apply ble_refl]. }
    apply Qle_trans with (expect (nth i fr []) m F').
    { apply expect_anti_mask; [exact Hm|apply rates_nth_unit; exact U|exact AF']. }
    apply expect_mono_F; [apply rates_nth_unit; exact U|exact FF'].
Qed.

Lemma fill_edges_inv (edges : list edge) (M M' : ndarray) :
  well_shaped M -> fill_edges M edges = inr M' ->
  well_shaped M' /\ shape0 M' = shape0 M /\ shape1 M' = shape1 M /\
  forall a b, entry M' a b =
    if existsb (hits (shape0 M) (shape1 M) a b) edges then 1%Z else entry M a b.
Proof.
  intros W E.
  pose proof (fill_edges_exception edges M W) as X. rewrite E in X. simpl in X.
  symmetry in X. apply negb_false_iff in X. unfold all_resolvable in X.
  rewrite forallb_forall in X.
  destruct (fill_edges_spec edges M W X) as [M1 [E1 R]].
  rewrite E in E1. injection E1 as <-. exact R.
Qed.

Lemma fill_edges_incl (n m : nat) (es es' : list edge) (M M' : ndarray) :
  incl es es' ->
  fill_edges (np_zeros n m) es = inr M -> fill_edges (np_zeros n m) es' = inr M' ->
  matrix_le M M'.
Proof.
  intros Hi E E'.
  destruct (fill_edges_inv _ _ _ (np_zeros_well_shaped n m) E) as [W [S0 [S1 H]]].
  destruct (fill_edges_inv _ _ _ (np_zeros_well_shaped n m) E') as [W' [S0' [S1' H']]].
  repeat split; try apply W; try apply W'; try congruence.
  intros a b. rewrite H, H'. simpl shape0; simpl shape1.
  destruct (existsb (hits n m a b) es) eqn:X.
  - apply existsb_exists in X as [e [He Hh]].
    replace (existsb (hits n m a b) es') with true; [discriminate|].
    symmetry. apply existsb_exists. exists e. split; [apply Hi; exact He|exact Hh].
  - rewrite entry_np_zeros. congruence.
Qed.

Lemma build_conn_matrices_incl (fr : list (list Q)) (oc oc' : list (option (list edge))) :
  Forall2 edges_incl oc oc' ->
  forall (i : nat) (cms cms' : list ndarray),
    build_conn_matrices fr i oc = inr cms ->
    build_conn_matrices fr i oc' = inr cms' ->
    Forall2 matrix_le cms cms'.
Proof.
  induction 1 as [|o o' oc oc' Ho _ IH]; intros i cms cms'; simpl.
  - intros [= <-] [= <-]. constructor.
  - destruct o as [es|], o' as [es'|]; simpl in Ho; try contradiction.
    destruct (fill_edges _ es) as [e|M] eqn:EM; simpl; [discriminate|].
    destruct (build_conn_matrices fr (i + 1) oc) as [e|ms] eqn:Ems; simpl; [discriminate|].
    destruct (fill_edges _ es') as [e|M'] eqn:EM'; simpl; [discriminate|].
    destruct (build_conn_matrices fr (i + 1) oc') as [e|ms'] eqn:Ems'; simpl;
      [discriminate|].
    intros [= <-] [= <-]. constructor.
    + eapply fill_edges_incl; eauto.
    + eapply IH; eauto.
Qed.

(** In exact arithmetic adding edges never raises the failure probability:
    with rates in
    [0,1], if every edge list of one call is contained in the list at its
    place in another call on the same rates, the second probability is at
    most the first, and so is the value of [np.log10]. *)
Theorem more_edges_never_hurt (failure_rates : list (list Q))
    (obj_conns obj_conns' : list (option (list edge))) (p p' : Q) :
  rates_in_unit_interval failure_rates ->
  Forall2 edges_incl obj_conns obj_conns' ->
  failure_probability failure_rates obj_conns = inr p ->
  failure_probability failure_rates obj_conns' = inr p' ->
  p' <= p /\ xle (np_log10 p') (np_log10 p).
Proof.
  intros U Hi Hp Hp'.
  destruct (failure_probability_inv _ _ _ Hp) as [cms [B [-> [L Hs]]]].
  destruct (failure_probability_inv _ _ _ Hp') as [cms' [B' [-> [L' Hs']]]].
  pose proof (build_conn_matrices_incl _ _ _ Hi _ _ _ B B') as Hle.
  assert (Q : _branch_failures failure_rates cms' 0 None
              <= _branch_failures failure_rates cms 0 None).
  { assert (D : cms = [] \/ cms <> [])
      by (destruct cms; [left; reflexivity|right; discriminate]).
    destruct D as [->|Hne].
    - inversion Hle; subst. apply Qle_refl.
    - assert (Hne' : cms' <> []).
      { intros ->. inversion Hle; subst. congruence. }
      rewrite (root_call_full _ _ Hs Hne), (root_call_full _ _ Hs' Hne').
      rewrite <- (Forall2_length Hle).
      apply full_failure_matrix_mono; [exact U|exact Hle|apply ble_refl]. }
  split; [exact Q|].
  apply np_log10_mono; [|exact Q].
  apply branch_failures_nonneg. exact U.
Qed.

Lemma more_edges_never_hurt_witness :
  let fr := [[1 # 2; 1 # 2]; [1 # 4]] in
  exists p p',
    failure_probability fr [Some [(0, 0)%Z]] = inr p /\
    failure_probability fr [Some [(1, 0); (0, 0)]%Z] = inr p' /\
    p' <= p.
Proof.
  intros fr.
  assert (U : rates_in_unit_interval fr).
  { repeat constructor; simpl; unfold Qle; simpl; lia. }
  assert (I : Forall2 edges_incl [Some [(0, 0)%Z]] [Some [(1, 0); (0, 0)]%Z]).
  { constructor; [|constructor]. intros e He. right. exact He. }
  eexists. eexists. split; [reflexivity|]. split; [reflexivity|].
  apply (more_edges_never_hurt fr _ _ _ _ U I eq_refl eq_refl).
Defined.

(* ===================================================================== *)
(** ** Fully connected stages *)

Lemma expect_ext_length (mask : list bool) (rates : list Q) (F G : list bool -> Q) :
  length rates = length mask ->
  (forall ok, length ok = length mask -> F ok == G ok) ->
  expect rates mask F == expect rates mask G.
Proof.
  revert rates F G. induction mask as [|b mask IH]; intros [|r rates] F G L H;
    simpl in L; try discriminate.
  - apply H. reflexivity.
  - injection L as L. simpl.
    pose proof (IH rates (fun ok => F (false :: ok)) (fun ok => G (false :: ok)) L
                  (fun ok E => H (false :: ok) (f_equal S E))) as A.
    pose proof (IH rates (fun ok => F (true :: ok)) (fun ok => G (true :: ok)) L
                  (fun ok E => H (true :: ok) (f_equal S E))) as B.
    destruct b; [rewrite A, B; reflexivity|exact A].
Qed.

(** The expectation of a value that is [x] as soon as one unit survives. *)
Lemma expect_any (mask : list bool) (rates : list Q) (x : Q) :
  expect rates mask (fun ok => if any ok then x else 1)
  == prod (select mask rates) + (1 - prod (select mask rates)) * x.
Proof.
  revert rates. induction mask as [|b mask IH]; intros rates.
  - destruct rates; simpl; rewrite prod_nil; ring.
  - destruct rates as [|r rates]; [simpl; rewrite prod_nil; ring|].
    simpl expect.
    change (fun ok => if any (false :: ok) then x else 1)
      with (fun ok => if any ok then x else 1).
    change (fun ok : list bool => if any (true :: ok) then x else 1)
      with (fun _ : list bool => x).
    destruct b; simpl select.
    + rewrite IH, expect_const, prod_cons. ring.
    + apply IH.
Qed.

Lemma any_true_nth (ok : list bool) :
  any ok = true -> exists i, (i < length ok)%nat /\ nth i ok false = true.
Proof.
  unfold any. induction ok as [|b ok IH]; simpl; [discriminate|].
  destruct b; simpl.
  - intros _. exists 0%nat. split; [lia|reflexivity].
  - intros H. destruct (IH H) as [i [Li Hi]]. exists (S i). split; [lia|exact Hi].
Qed.

Lemma map_constant {A B} (f : A -> B) (b : B) (l : list A) :
  (forall x, In x l -> f x = b) -> map f l = repeat b (length l).
Proof.
  induction l as [|x l IH]; intros H; simpl; [reflexivity|].
  rewrite (H x (or_introl eq_refl)), IH; [reflexivity|].
  intros y Hy. apply H. right. exact Hy.
Qed.

Lemma connected_targets_full (M : ndarray) (ok : list bool) :
  full_matrix M -> length (data M) = shape0 M -> length ok = shape0 M ->
  connected_targets M ok = repeat (any ok) (shape1 M).
Proof.
  intros HF HL Hok. unfold connected_targets, conn_mat_ok. rewrite map_map.
  replace (repeat (any ok) (shape1 M))
    with (repeat (any ok) (length (seq 0 (shape1 M))))
    by (rewrite length_seq; reflexivity).
  apply map_constant.
  intros j Hj. apply in_seq in Hj as [_ Hj]. simpl in Hj.
  destruct (any ok) eqn:A.
  - apply any_true_nth in A as [i [Li Hi]].
    unfold np_any. apply existsb_exists.
    exists (nth j (nth i (data M) []) 0%Z). split.
    + apply in_map_iff. exists (nth i (data M) []). split; [reflexivity|].
      apply select_in; [exact Hi|lia].
    + apply negb_true_iff, Z.eqb_neq. apply (HF i j); lia.
  - rewrite (select_none _ _ A). reflexivity.
Qed.

Lemma select_repeat {A} (b : bool) (xs : list A) :
  select (repeat b (length xs)) xs = if b then xs else [].
Proof.
  destruct b; [apply select_ones|apply select_all_false].
Qed.

Lemma full_failure_series (fr : list (list Q)) (cms : list ndarray) :
  (forall j, (j < length cms)%nat ->
     let M := nth j cms (np_zeros 0 0) in
     full_matrix M /\ length (data M) = shape0 M /\
     shape0 M = length (nth j fr []) /\ shape1 M = length (nth (j + 1) fr [])) ->
  forall (fuel i : nat) (mask : list bool),
    (i + fuel <= length cms)%nat ->
    length mask = length (nth i fr []) ->
    full_failure fr cms fuel i mask
    == 1 - (1 - prod (select mask (nth i fr []))) * stage_survival fr (i + 1) fuel.
Proof.
  intros Hfull. induction fuel as [|fuel IH]; intros i mask Hi HL.
  - simpl. ring.
  - destruct (Hfull i ltac:(lia)) as [HF [HD [S0 S1]]].
    set (M := nth i cms (np_zeros 0 0)) in *.
    set (x := 1 - stage_survival fr (i + 1) (S fuel)).
    cbn [full_failure]. fold M.
    rewrite (expect_ext_length mask (nth i fr [])
               (fun ok => full_failure fr cms fuel (i + 1) (connected_targets M ok))
               (fun ok => if any ok then x else 1)).
    + rewrite expect_any. unfold x. ring.
    + symmetry. exact HL.
    + intros ok Lok.
      rewrite (connected_targets_full M ok HF HD) by congruence.
      rewrite S1. destruct (any ok).
      * rewrite IH by (try lia; apply repeat_length).
        rewrite (select_repeat true). unfold x. cbn [stage_survival]. ring.
      * apply full_failure_none. apply any_repeat_false.
Qed.

Lemma resolve_index_of_nat (n a : nat) :
  (a < n)%nat -> resolve_index n (Z.of_nat a) = inr a.
Proof.
  intros H. unfold resolve_index.
  replace ((0 <=? Z.of_nat a) && (Z.of_nat a <? Z.of_nat n))%Z with true.
  - rewrite Nat2Z.id. reflexivity.
  - symmetry. apply andb_true_iff. split; [apply Z.leb_le|apply Z.ltb_lt]; lia.
Qed.

Lemma fill_edges_full (n m : nat) (es : list edge) (M : ndarray) :
  fully_connected n m es -> fill_edges (np_zeros n m) es = inr M ->
  full_matrix M /\ length (data M) = shape0 M /\ shape0 M = n /\ shape1 M = m.
Proof.
  intros Hfc E.
  destruct (fill_edges_inv _ _ _ (np_zeros_well_shaped n m) E) as [[WL _] [S0 [S1 H]]].
  simpl in S0, S1. split; [|auto].
  intros a b La Lb. rewrite H. simpl shape0; simpl shape1.
  replace (existsb (hits n m a b) es) with true; [discriminate|].
  symmetry. apply existsb_exists. exists (Z.of_nat a, Z.of_nat b). split.
  - apply Hfc; congruence.
  - unfold hits. simpl.
    rewrite !resolve_index_of_nat by congruence. rewrite !Nat.eqb_refl. reflexivity.
Qed.

(** In exact arithmetic, when every pair of units of adjacent stages is
    connected, the
    system fails exactly when some stage loses all its units: the failure
    probability is [1 - prod_k (1 - prod rates_k)], the product taken over
    all stages. *)
Theorem fully_connected_closed_form (failure_rates : list (list Q))
    (obj_conns : list (option (list edge))) (p : Q) :
  obj_conns <> [] ->
  all_fully_connected failure_rates obj_conns ->
  failure_probability failure_rates obj_conns = inr p ->
  p == 1 - stage_survival failure_rates 0 (S (length obj_conns)).
Proof.
  intros Hne Hfc Hp.
  destruct (failure_probability_inv _ _ _ Hp) as [cms [B [-> [L Hs]]]].
  assert (Hcms : cms <> []).
  { intros ->. destruct obj_conns; [congruence|discriminate]. }
  rewrite (root_call_full _ _ Hs Hcms).
  rewrite (full_failure_series failure_rates cms).
  - rewrite select_ones, L. cbn [stage_survival]. ring.
  - intros j Hj. rewrite L in Hj. destruct (Hfc j Hj) as [es [Hk Hes]].
    pose proof (build_conn_matrices_nth _ _ _ _ _ _ B Hk) as E. simpl in E.
    destruct (fill_edges_full _ _ _ _ Hes E) as [A [D [S0 S1]]].
    cbv zeta. auto.
  - lia.
  - apply repeat_length.
Qed.

Lemma fully_connected_closed_form_witness :
  let fr := [[1 # 2; 1 # 3]; [1 # 4; 1 # 5]; [1 # 7]] in
  let oc := [Some [(0, 0); (0, 1); (1, 0); (1, 1)]%Z; Some [(0, 0); (1, 0)]%Z] in
  exists p, failure_probability fr oc = inr p /\
            p == 1 - (1 - (1 # 2) * (1 # 3)) * (1 - (1 # 4) * (1 # 5)) * (1 - (1 # 7)).
Proof.
  intros fr oc.
  assert (Hne : oc <> []) by discriminate.
  assert (Hfc : all_fully_connected fr oc).
  { intros [|[|k]] Hk; simpl in Hk; try lia.
    - exists [(0, 0); (0, 1); (1, 0); (1, 1)]%Z. split; [reflexivity|].
      intros [|[|i]] [|[|j]] Hi Hj; simpl in Hi, Hj; try lia; simpl; tauto.
    - exists [(0, 0); (1, 0)]%Z. split; [reflexivity|].
      intros [|[|i]] [|j] Hi Hj; simpl in Hi, Hj; try lia; simpl; tauto. }
  eexists. split; [reflexivity|].
  rewrite (fully_connected_closed_form fr oc _ Hne Hfc eq_refl).
  reflexivity.
Defined.

(* ===================================================================== *)
(** ** The best any wiring can do *)

Lemma np_ones_well_shaped (n m : nat) : well_shaped (np_ones n m).
Proof.
  split; simpl.
  - apply repeat_length.
  - apply Forall_forall. intros row H. apply repeat_spec in H. subst.
    apply repeat_length.
Qed.

Lemma np_ones_full (n m : nat) : full_matrix (np_ones n m).
Proof.
  intros a b La Lb. simpl in La, Lb. unfold entry, np_ones; simpl.
  rewrite nth_repeat_lt by exact La. rewrite nth_repeat_lt by exact Lb. discriminate.
Qed.

Lemma entry_outside (M : ndarray) (a b : nat) :
  well_shaped M -> entry M a b <> 0%Z -> (a < shape0 M)%nat /\ (b < shape1 M)%nat.
Proof.
  intros [WL WR] H. unfold entry in H.
  destruct (Nat.lt_ge_cases a (length (data M))) as [La|La].
  - split; [lia|].
    destruct (Nat.lt_ge_cases b (shape1 M)) as [Lb|Lb]; [exact Lb|].
    exfalso. apply H. apply nth_overflow.
    rewrite Forall_forall in WR. rewrite (WR (nth a (data M) [])); [exact Lb|].
    apply nth_In. exact La.
  - exfalso. apply H. rewrite (nth_overflow _ []) by exact La. destruct b; reflexivity.
Qed.

Lemma matrix_le_np_ones (M : ndarray) :
  well_shaped M -> matrix_le M (np_ones (shape0 M) (shape1 M)).
Proof.
  intros W. split; [exact W|]. split; [apply np_ones_well_shaped|].
  split; [reflexivity|]. split; [reflexivity|].
  intros a b H. destruct (entry_outside M a b W H) as [La Lb].
  apply np_ones_full; assumption.
Qed.

Lemma build_conn_matrices_some (fr : list (list Q)) (oc : list (option (list edge))) :
  forall (i : nat) (cms : list ndarray),
    build_conn_matrices fr i oc = inr cms ->
    forall k, (k < length oc)%nat -> exists es, nth_error oc k = Some (Some es).
Proof.
  induction oc as [|o oc IH]; intros i cms; simpl.
  - intros _ k Hk. lia.
  - destruct o as [es0|]; [|discriminate].
    destruct (fill_edges _ es0) as [e|M]; simpl; [discriminate|].
    destruct (build_conn_matrices fr (i + 1) oc) as [e|ms] eqn:Ems; simpl; [discriminate|].
    intros _ [|k] Hk; simpl; [eauto|]. apply (IH _ _ Ems). lia.
Qed.

Lemma build_conn_matrices_matrix (fr : list (list Q)) (oc : list (option (list edge)))
    (cms : list ndarray) (j : nat) :
  build_conn_matrices fr 0 oc = inr cms -> (j < length cms)%nat ->
  let M := nth j cms (np_zeros 0 0) in
  well_shaped M /\ shape0 M = length (nth j fr []) /\
  shape1 M = length (nth (j + 1) fr []).
Proof.
  intros B Hj. destruct (build_conn_matrices_shapes _ _ _ _ B) as [L _].
  destruct (build_conn_matrices_some _ _ _ _ B j ltac:(lia)) as [es Hes].
  pose proof (build_conn_matrices_nth _ _ _ _ _ _ B Hes) as E. simpl in E.
  destruct (fill_edges_inv _ _ _ (np_zeros_well_shaped _ _) E) as [W [S0 [S1 _]]].
  cbv zeta. auto.
Qed.

(** In exact arithmetic no wiring does better than connecting everything:
    with rates in
    [0,1], the failure probability of any topology is at least
    [1 - prod_k (1 - prod rates_k)], the value of the fully connected one. *)
Theorem fully_connected_is_best (failure_rates : list (list Q))
    (obj_conns : list (option (list edge))) (p : Q) :
  rates_in_unit_interval failure_rates ->
  obj_conns <> [] ->
  failure_probability failure_rates obj_conns = inr p ->
  1 - stage_survival failure_rates 0 (S (length obj_conns)) <= p.
Proof.
  intros U Hne Hp.
  destruct (failure_probability_inv _ _ _ Hp) as [cms [B [-> [L Hs]]]].
  assert (Hcms : cms <> []).
  { intros ->. destruct obj_conns; [congruence|discriminate]. }
  rewrite (root_call_full _ _ Hs Hcms).
  set (cms' := map (fun M => np_ones (shape0 M) (shape1 M)) cms).
  assert (Hnth : forall j, (j < length cms)%nat ->
            nth j cms' (np_zeros 0 0)
            = np_ones (length (nth j failure_rates []))
                      (length (nth (j + 1) failure_rates []))).
  { intros j Hj. unfold cms'.
    rewrite (nth_indep _ (np_zeros 0 0) (np_ones (shape0 (np_zeros 0 0)) (shape1 (np_zeros 0 0))))
      by (rewrite length_map; exact Hj).
    rewrite (map_nth (fun M => np_ones (shape0 M) (shape1 M))).
    destruct (build_conn_matrices_matrix _ _ _ j B Hj) as [_ [-> ->]]. reflexivity. }
  assert (Hle : Forall2 matrix_le cms cms').
  { unfold cms'. clear Hnth.
    assert (W : Forall well_shaped cms).
    { apply Forall_forall. intros M HM. apply (In_nth _ _ (np_zeros 0 0)) in HM as [j [Hj <-]].
      apply (build_conn_matrices_matrix _ _ _ j B Hj). }
    clear -W. induction W as [|M cms WM _ IH]; simpl; constructor;
      [apply matrix_le_np_ones; exact WM|exact IH]. }
  apply Qle_trans with
    (full_failure failure_rates cms' (length cms) 0
       (repeat true (length (nth 0 failure_rates [])))).
  - rewrite (full_failure_series failure_rates cms').
    + rewrite select_ones, L. cbn [stage_survival]. apply Qle_lteq. right. ring.
    + intros j Hj. unfold cms' in Hj. rewrite length_map in Hj.
      rewrite (Hnth j Hj). cbv zeta. split; [apply np_ones_full|].
      split; [apply (np_ones_well_shaped _ _)|]. split; reflexivity.
    + unfold cms'. rewrite length_map. lia.
    + apply repeat_length.
  - apply full_failure_matrix_mono; [exact U|exact Hle|apply ble_refl].
Qed.

Lemma fully_connected_is_best_witness :
  let fr := [[1 # 2; 1 # 2]; [1 # 4]] in
  exists p, failure_probability fr [Some [(0, 0)%Z]] = inr p /\
            1 - stage_survival fr 0 2 <= p.
Proof.
  intros fr.
  assert (U : rates_in_unit_interval fr).
  { repeat constructor; simpl; unfold Qle; simpl; lia. }
  assert (Hne : [Some [(0, 0)%Z]] <> []) by discriminate.
  eexists. split; [reflexivity|].
  apply (fully_connected_is_best fr [Some [(0, 0)%Z]] _ U Hne eq_refl).
Defined.

(* ===================================================================== *)
(** ** The JSON file evaluator: element types *)

Lemma instance_type_ABC (instance : instance_data) (t : string) :
  instance_type instance = inr t -> is_ABC t.
Proof.
  unfold instance_type.
  destruct (first (attributes instance)) as [e|a]; simpl; [discriminate|].
  destruct (first (values a)) as [e|t']; simpl; [discriminate|].
  destruct (String.eqb t' "A") eqn:EA.
  { apply String.eqb_eq in EA. subst. intros [= <-]. left. reflexivity. }
  destruct (String.eqb t' "B") eqn:EB.
  { apply String.eqb_eq in EB. subst. intros [= <-]. right. left. reflexivity. }
  destruct (String.eqb t' "C") eqn:EC.
  { apply String.eqb_eq in EC. subst. intros [= <-]. right. right. reflexivity. }
  discriminate.
Qed.

Lemma instance_type_error (instance : instance_data) (e : py_exn) :
  instance_type instance = inl e -> e = Raised IndexError \/ e = AssertionError.
Proof.
  unfold instance_type.
  destruct (attributes instance) as [|a l]; simpl; [intros [= <-]; auto|].
  destruct (values a) as [|t l']; simpl; [intros [= <-]; auto|].
  destruct (_ || _)%bool; [discriminate|]. intros [= <-]. auto.
Qed.

Lemma instance_types_inr (l : list instance_data) (ts : list string) :
  instance_types l = inr ts ->
  Forall2 (fun instance t => instance_type instance = inr t) l ts.
Proof.
  revert ts. induction l as [|i l IH]; intros ts; simpl.
  - intros [= <-]. constructor.
  - destruct (instance_type i) as [e|t] eqn:E; simpl; [discriminate|].
    destruct (instance_types l) as [e|ts'] eqn:E'; simpl; [discriminate|].
    intros [= <-]. constructor; [exact E|apply IH; reflexivity].
Qed.

Lemma instance_types_error (l : list instance_data) (e : py_exn) :
  instance_types l = inl e -> e = Raised IndexError \/ e = AssertionError.
Proof.
  induction l as [|i l IH]; simpl; [discriminate|].
  destruct (instance_type i) as [e'|t] eqn:E; simpl.
  - intros [= <-]. eapply instance_type_error; eauto.
  - destruct (instance_types l) as [e'|ts']; simpl; [|discriminate].
    intros [= <-]. apply IH. reflexivity.
Qed.

Lemma instance_types_total (l : list instance_data) :
  Forall (fun instance => exists t, instance_type instance = inr t) l ->
  exists ts, instance_types l = inr ts.
Proof.
  induction 1 as [|i l [t Ht] _ [ts IH]]; simpl; [eauto|].
  rewrite Ht, IH. simpl. eauto.
Qed.

Lemma get_element_types_inr (data : json_data) (element_ref : string) (ts : list string) :
  _get_element_types data element_ref = inr ts ->
  Forall2 (fun instance t => instance_type instance = inr t)
          (stage_instances data element_ref) ts.
Proof.
  unfold _get_element_types, stage_instances. revert ts.
  induction (components data) as [|c cs IH]; intros ts; simpl.
  - intros [= <-]. constructor.
  - destruct (String.eqb (ref c) element_ref).
    + destruct (instance_types (instances c)) as [e|t1] eqn:E1; simpl; [discriminate|].
      destruct (_get_element_types_loop cs element_ref) as [e|t2]; simpl; [discriminate|].
      intros [= <-]. apply Forall2_app; [apply instance_types_inr; exact E1|].
      apply IH. reflexivity.
    + simpl. destruct (_get_element_types_loop cs element_ref) as [e|t2]; simpl;
        [discriminate|].
      intros [= <-]. apply IH. reflexivity.
Qed.

Lemma get_element_types_error (data : json_data) (element_ref : string) (e : py_exn) :
  _get_element_types data element_ref = inl e ->
  e = Raised IndexError \/ e = AssertionError.
Proof.
  unfold _get_element_types.
  induction (components data) as [|c cs IH]; simpl; [discriminate|].
  destruct (String.eqb (ref c) element_ref).
  - destruct (instance_types (instances c)) as [e'|t1] eqn:E1; simpl.
    + intros [= <-]. eapply instance_types_error; eauto.
    + destruct (_get_element_types_loop cs element_ref) as [e'|t2]; simpl; [|discriminate].
      intros [= <-]. apply IH. reflexivity.
  - simpl. destruct (_get_element_types_loop cs element_ref) as [e'|t2]; simpl;
      [|discriminate].
    intros [= <-]. apply IH. reflexivity.
Qed.

Lemma get_element_types_total (data : json_data) (element_ref : string) :
  well_typed data element_ref ->
  exists ts, _get_element_types data element_ref = inr ts.
Proof.
  unfold well_typed, _get_element_types, stage_instances.
  induction (components data) as [|c cs IH]; simpl; [eauto|].
  intros H. destruct (String.eqb (ref c) element_ref).
  - apply Forall_app in H as [H1 H2].
    destruct (instance_types_total _ H1) as [t1 ->].
    destruct (IH H2) as [t2 ->]. simpl. eauto.
  - destruct (IH H) as [t2 ->]. simpl. eauto.
Qed.

Lemma get_element_types_ABC (data : json_data) (element_ref : string) (ts : list string) :
  _get_element_types data element_ref = inr ts ->
  Forall is_ABC ts /\ length ts = length (stage_instances data element_ref).
Proof.
  intros H. apply get_element_types_inr in H. split.
  - induction H as [|i t l ts Hi _ IH]; constructor; [|exact IH].
    eapply instance_type_ABC; eauto.
  - symmetry. eapply Forall2_length; eauto.
Qed.

Lemma ABC_known (k : stage) (ts : list string) :
  Forall is_ABC ts ->
  first_missing (mass GNC k) ts = None /\ first_missing (failure_rate GNC k) ts = None.
Proof.
  intros H. split; apply first_missing_none; intros t Ht;
    rewrite Forall_forall in H; destruct (H t Ht) as [-> | [-> | ->]];
    destruct k; reflexivity.
Qed.

(** X12. [_get_element_types] returns one label per instance of the named
    components, each of them A, B or C; so [calc_mass] of the class returns
    a mass on the three lists it extracts, whatever the document. *)
Theorem json_types_are_known (data : json_data)
    (sensor_types computer_types actuator_types : list string) :
  _get_element_types data "sensor" = inr sensor_types ->
  _get_element_types data "computer" = inr computer_types ->
  _get_element_types data "actuator" = inr actuator_types ->
  Forall is_ABC (sensor_types ++ computer_types ++ actuator_types) /\
  length sensor_types = length (stage_instances data "sensor") /\
  length computer_types = length (stage_instances data "computer") /\
  length actuator_types = length (stage_instances data "actuator") /\
  (exists m, calc_mass GNC sensor_types computer_types (Some actuator_types) = inr m) /\
  (exists m, calc_mass GNC sensor_types computer_types None = inr m).
Proof.
  intros Hs Hc Ha.
  apply get_element_types_ABC in Hs as [As Ls].
  apply get_element_types_ABC in Hc as [Ac Lc].
  apply get_element_types_ABC in Ha as [Aa La].
  split; [repeat (apply Forall_app; split); assumption|].
  split; [exact Ls|]. split; [exact Lc|]. split; [exact La|].
  destruct (ABC_known S_ _ As) as [Ms _].
  destruct (ABC_known C_ _ Ac) as [Mc _].
  destruct (ABC_known A_ _ Aa) as [Ma _].
  split; rewrite calc_mass_outcome_eq; unfold calc_mass_exception;
    rewrite Ms, Mc, ?Ma; eauto.
Qed.

Lemma json_types_are_known_witness :
  Forall is_ABC (["A"; "B"]%string ++ ["C"; "A"]%string ++ []) /\
  length ["A"; "B"]%string = length (stage_instances sample_data "sensor") /\
  exists m, calc_mass GNC ["A"; "B"]%string ["C"; "A"]%string None = inr m.
Proof.
  destruct (json_types_are_known sample_data ["A"; "B"]%string ["C"; "A"]%string []
              eq_refl eq_refl eq_refl) as [H1 [H2 [_ [_ [_ H3]]]]].
  split; [exact H1|]. split; [exact H2|exact H3].
Defined.

(* ===================================================================== *)
(** ** The JSON file evaluator: connections *)

Lemma dict_get_in (assignments : list (string * Z)) (key : string) (v : Z) :
  dict_get assignments key = Some v -> In (key, v) assignments.
Proof.
  induction assignments as [|[k w] l IH]; simpl; [discriminate|].
  destruct (dict_get l key) as [v'|].
  - intros [= ->]. right. apply IH. reflexivity.
  - destruct (String.eqb k key) eqn:E; [|discriminate].
    apply String.eqb_eq in E. subst. intros [= ->]. left. reflexivity.
Qed.

Lemma dict_get_some (assignments : list (string * Z)) (key : string) (v : Z) :
  In (key, v) assignments -> dict_get assignments key <> None.
Proof.
  induction assignments as [|[k w] l IH]; simpl; [tauto|].
  intros [[= -> ->]|H].
  - destruct (dict_get l key); [discriminate|]. rewrite String.eqb_refl. discriminate.
  - specialize (IH H). destruct (dict_get l key); [discriminate|congruence].
Qed.

Lemma in_target_assignments (comps : list component_data) (src_ref tgt_ref key : string)
    (v : Z) :
  In (key, v) (target_assignments comps src_ref tgt_ref) <->
  exists component instance port,
    In component comps /\ ref component = tgt_ref /\ ref component <> src_ref /\
    In instance (instances component) /\ In port (inputPorts instance) /\
    id_ port = key /\ index instance = v.
Proof.
  unfold target_assignments. rewrite in_flat_map. split.
  - intros [c [Hc H]].
    destruct (String.eqb (ref c) src_ref) eqn:Es; [destruct H|].
    destruct (String.eqb (ref c) tgt_ref) eqn:Et; [|destruct H].
    apply in_flat_map in H as [i [Hi H]].
    apply in_map_iff in H as [p [[= <- <-] Hp]].
    exists c, i, p. apply String.eqb_eq in Et. apply String.eqb_neq in Es. auto 10.
  - intros [c [i [p [Hc [Et [Es [Hi [Hp [<- <-]]]]]]]]].
    exists c. split; [exact Hc|].
    apply String.eqb_neq in Es. apply String.eqb_eq in Et. rewrite Es, Et.
    apply in_flat_map. exists i. split; [exact Hi|].
    apply in_map_iff. exists p. auto.
Qed.

Lemma connection_indices_inr (m : list (string * Z)) (conns : list (Z * string))
    (es : list edge) :
  connection_indices m conns = inr es ->
  Forall2 (fun c e => fst e = fst c /\ dict_get m (snd c) = Some (snd e)) conns es.
Proof.
  revert es. induction conns as [|[i t] l IH]; intros es; simpl.
  - intros [= <-]. constructor.
  - destruct (dict_get m t) as [j|] eqn:D; [|discriminate].
    destruct (connection_indices m l) as [e|es']; simpl; [discriminate|].
    intros [= <-]. constructor; [simpl; auto|apply IH; reflexivity].
Qed.

Lemma connection_indices_error (m : list (string * Z)) (conns : list (Z * string))
    (e : py_exn) :
  connection_indices m conns = inl e ->
  exists c, In c conns /\ dict_get m (snd c) = None /\
            e = RuntimeError ("Target ID not found: " ++ snd c).
Proof.
  induction conns as [|[i t] l IH]; simpl; [discriminate|].
  destruct (dict_get m t) as [j|] eqn:D.
  - destruct (connection_indices m l) as [e'|es']; simpl; [|discriminate].
    intros [= <-]. destruct (IH eq_refl) as [c [Hc H]]. exists c. auto.
  - intros [= <-]. exists (i, t). auto.
Qed.

Lemma connection_indices_total (m : list (string * Z)) (conns : list (Z * string)) :
  Forall (fun c => dict_get m (snd c) <> None) conns ->
  exists es, connection_indices m conns = inr es.
Proof.
  induction 1 as [|[i t] l H _ [es IH]]; simpl; [eauto|].
  simpl in H. destruct (dict_get m t); [|congruence]. rewrite IH. simpl. eauto.
Qed.

(** X13. When [_get_element_connections] returns, it returns one edge per
    target id listed by the source instances, in document order; the source
    of the edge is the index of the listing instance, and its target is the
    index of an instance of a component named [tgt_ref] (and not [src_ref])
    that has an input port with that id. *)
Theorem json_connections_resolve (data : json_data) (src_ref tgt_ref : string)
    (es : list edge) :
  _get_element_connections data src_ref tgt_ref = inr es ->
  Forall2
    (fun c e =>
       fst e = fst c /\
       exists component instance port,
         In component (components data) /\ ref component = tgt_ref /\
         ref component <> src_ref /\
         In instance (instances component) /\ In port (inputPorts instance) /\
         id_ port = snd c /\ index instance = snd e)
    (connections_of (components data) src_ref) es.
Proof.
  intros H. apply connection_indices_inr in H.
  induction H as [|c e l es' [H1 H2] _ IH]; constructor; [|exact IH].
  split; [exact H1|]. apply dict_get_in in H2.
  apply in_target_assignments in H2. exact H2.
Qed.

Lemma json_connections_resolve_witness :
  Forall2
    (fun c e =>
       fst e = fst c /\
       exists component instance port,
         In component (components sample_data) /\ ref component = "computer"%string /\
         ref component <> "sensor"%string /\
         In instance (instances component) /\ In port (inputPorts instance) /\
         id_ port = snd c /\ index instance = snd e)
    (connections_of (components sample_data) "sensor") [(0, 0); (1, 0); (1, 1)]%Z.
Proof.
  exact (json_connections_resolve sample_data "sensor" "computer"
           [(0, 0); (1, 0); (1, 1)]%Z eq_refl).
Defined.

Lemma json_unknown_target_aux (data : json_data) (src_ref tgt_ref : string) :
  (targets_known data src_ref tgt_ref <->
   exists es, _get_element_connections data src_ref tgt_ref = inr es) /\
  forall e, _get_element_connections data src_ref tgt_ref = inl e ->
    exists c, In c (connections_of (components data) src_ref) /\
      e = RuntimeError ("Target ID not found: " ++ snd c) /\
      forall component instance port,
        In component (components data) -> ref component = tgt_ref ->
        ref component <> src_ref ->
        In instance (instances component) -> In port (inputPorts instance) ->
        id_ port <> snd c.
Proof.
  unfold _get_element_connections, targets_known. split; [split|].
  - apply connection_indices_total.
  - intros [es H]. apply connection_indices_inr in H.
    induction H as [|c e l es' [_ H2] _ IH]; constructor; [congruence|exact IH].
  - intros e H. apply connection_indices_error in H as [c [Hc [D ->]]].
    exists c. split; [exact Hc|]. split; [reflexivity|].
    intros comp inst port H1 H2 H3 H4 H5 H6.
    apply (dict_get_some (target_assignments (components data) src_ref tgt_ref)
             (snd c) (index inst)); [|exact D].
    apply in_target_assignments. exists comp, inst, port. auto 10.
Qed.

(** X14. [_get_element_connections] raises exactly when some target id
    listed by a source instance is the id of no input port of a target
    instance; the exception is the [RuntimeError] naming such an id. *)
Theorem json_unknown_target (data : json_data) (src_ref tgt_ref : string) :
  (targets_known data src_ref tgt_ref <->
   exists es, _get_element_connections data src_ref tgt_ref = inr es) /\
  forall e, _get_element_connections data src_ref tgt_ref = inl e ->
    exists c, In c (connections_of (components data) src_ref) /\
      e = RuntimeError ("Target ID not found: " ++ snd c) /\
      forall component instance port,
        In component (components data) -> ref component = tgt_ref ->
        ref component <> src_ref ->
        In instance (instances component) -> In port (inputPorts instance) ->
        id_ port <> snd c.
Proof.
  apply json_unknown_target_aux.
Qed.

(** X15. Asked for the connections of a component name to itself, the
    method never records a target (a component named [src_ref] takes the
    first branch of the loop): it returns only for a document without such
    connections, and then returns the empty list. *)
Theorem json_no_self_connections (data : json_data) (r : string) (es : list edge) :
  _get_element_connections data r r = inr es ->
  es = [] /\ connections_of (components data) r = [].
Proof.
  unfold _get_element_connections.
  assert (E : target_assignments (components data) r r = []).
  { unfold target_assignments. induction (components data) as [|c cs IH]; simpl;
      [reflexivity|].
    rewrite IH. destruct (String.eqb (ref c) r); reflexivity. }
  rewrite E. destruct (connections_of (components data) r) as [|[i t] l]; simpl.
  - intros [= <-]. auto.
  - discriminate.
Qed.

Lemma json_no_self_connections_witness :
  ([] : list edge) = [] /\ connections_of (components sample_data) "computer" = [].
Proof.
  exact (json_no_self_connections sample_data "computer" [] eq_refl).
Defined.

(* ===================================================================== *)
(** ** The JSON file evaluator: the evaluation *)

Lemma get_element_connections_error (data : json_data) (src_ref tgt_ref : string)
    (e : py_exn) :
  _get_element_connections data src_ref tgt_ref = inl e -> exists msg, e = RuntimeError msg.
Proof.
  intros H. apply connection_indices_error in H as [c [_ [_ ->]]]. eauto.
Qed.

Lemma calc_mass_ABC (sensor_types computer_types : list string)
    (actuator_types : option (list string)) :
  Forall is_ABC sensor_types -> Forall is_ABC computer_types ->
  match actuator_types with Some ats => Forall is_ABC ats | None => True end ->
  exists m, calc_mass GNC sensor_types computer_types actuator_types = inr m /\ 0 <= m.
Proof.
  intros As Ac Aa.
  destruct (ABC_known S_ _ As) as [Ms _]. destruct (ABC_known C_ _ Ac) as [Mc _].
  assert (N : forall k ts, first_missing (mass GNC k) ts = None ->
              0 <= sum (map (lookup_or_zero (mass GNC k)) ts)).
  { intros k ts F. destruct (sum_bounds 3 10 _ (GNC_masses_bounds k ts F)) as [L _].
    apply Qle_trans with (3 * inject_Z (Z.of_nat (length (map (lookup_or_zero (mass GNC k)) ts))));
      [|exact L].
    apply Qmult_le_0_compat; [discriminate|].
    change 0 with (inject_Z 0). rewrite <- Zle_Qle. lia. }
  pose proof (N S_ _ Ms) as Ns. pose proof (N C_ _ Mc) as Nc.
  rewrite calc_mass_outcome_eq. unfold calc_mass_exception. rewrite Ms, Mc.
  destruct actuator_types as [ats|].
  - destruct (ABC_known A_ _ Aa) as [Ma _]. pose proof (N A_ _ Ma) as Na. rewrite Ma.
    eexists. split; [reflexivity|]. cbv zeta. lra.
  - eexists. split; [reflexivity|]. cbv zeta. lra.
Qed.

Lemma calc_failure_rate_ABC_error (sensor_types computer_types : list string)
    (conns : list edge) (actuator_types : option (list string))
    (act_conns : option (list edge)) (e : exn) :
  Forall is_ABC sensor_types -> Forall is_ABC computer_types ->
  match actuator_types, act_conns with
  | Some ats, Some _ => Forall is_ABC ats
  | None, None => True
  | _, _ => False
  end ->
  calc_failure_rate GNC sensor_types computer_types conns actuator_types act_conns = inl e ->
  e = IndexError.
Proof.
  intros As Ac Aa H.
  pose proof (calc_failure_rate_outcome_aux GNC sensor_types computer_types conns
                actuator_types act_conns) as O.
  unfold calc_failure_rate_exception in O.
  destruct (ABC_known S_ _ As) as [_ Fs]. destruct (ABC_known C_ _ Ac) as [_ Fc].
  rewrite Fs, Fc in O. cbv zeta in O.
  destruct actuator_types as [ats|], act_conns as [acs|]; try contradiction.
  - destruct (ABC_known A_ _ Aa) as [_ Fa]. rewrite Fa in O.
    unfold edges_exception in O.
    destruct (all_resolvable _ _ conns).
    + destruct (all_resolvable _ _ acs).
      * destruct O as [v O]. congruence.
      * congruence.
    + congruence.
  - unfold edges_exception in O.
    destruct (all_resolvable _ _ conns).
    + destruct O as [v O]. congruence.
    + congruence.
Qed.

Lemma set_outputs_spec (sensor_types computer_types : list string)
    (conns : list edge) (actuator_types : option (list string))
    (act_conns : option (list edge)) (outs outs' : list output_data) :
  Forall is_ABC sensor_types -> Forall is_ABC computer_types ->
  match actuator_types with Some ats => Forall is_ABC ats | None => True end ->
  set_outputs sensor_types computer_types conns actuator_types act_conns outs = inr outs' ->
  Forall2 (output_updated sensor_types computer_types conns actuator_types act_conns)
          outs outs'.
Proof.
  intros As Ac Aa. revert outs'. induction outs as [|o outs IH]; intros outs'; simpl.
  - intros [= <-]. constructor.
  - destruct (String.eqb (output_ref o) "mass") eqn:Em.
    + apply String.eqb_eq in Em.
      destruct (calc_mass_ABC _ _ actuator_types As Ac Aa) as [m [Hm Pm]].
      rewrite Hm. simpl.
      destruct (set_outputs _ _ _ _ _ outs) as [e|rest]; simpl; [discriminate|].
      intros [= <-]. constructor; [|apply IH; reflexivity].
      unfold output_updated; simpl. split; [reflexivity|].
      split; [intros _; split; [reflexivity|]; exists m; auto|].
      split; [intros _ X; congruence|]. intros X; congruence.
    + apply String.eqb_neq in Em.
      destruct (String.eqb (output_ref o) "failure-rate") eqn:Ef.
      * apply String.eqb_eq in Ef.
        destruct (calc_failure_rate GNC _ _ _ _ _) as [e|v] eqn:Hv; simpl; [discriminate|].
        destruct (set_outputs _ _ _ _ _ outs) as [e|rest]; simpl; [discriminate|].
        intros [= <-]. constructor; [|apply IH; reflexivity].
        unfold output_updated; simpl. split; [reflexivity|]. split; [congruence|].
        split; [intros _ _; split; [reflexivity|]; exists v; auto|].
        intros _ X; congruence.
      * apply String.eqb_neq in Ef. simpl.
        destruct (set_outputs _ _ _ _ _ outs) as [e|rest]; simpl; [discriminate|].
        intros [= <-]. constructor; [|apply IH; reflexivity].
        unfold output_updated. split; [reflexivity|]. split; [congruence|].
        split; [congruence|]. reflexivity.
Qed.

Lemma set_outputs_error (sensor_types computer_types : list string)
    (conns : list edge) (actuator_types : option (list string))
    (act_conns : option (list edge)) (outs : list output_data) (e : py_exn) :
  Forall is_ABC sensor_types -> Forall is_ABC computer_types ->
  match actuator_types, act_conns with
  | Some ats, Some _ => Forall is_ABC ats
  | None, None => True
  | _, _ => False
  end ->
  set_outputs sensor_types computer_types conns actuator_types act_conns outs = inl e ->
  e = Raised IndexError.
Proof.
  intros As Ac Aa.
  assert (Aa' : match actuator_types with Some ats => Forall is_ABC ats | None => True end).
  { destruct actuator_types, act_conns; auto; contradiction. }
  induction outs as [|o outs IH]; simpl; [discriminate|].
  destruct (String.eqb (output_ref o) "mass").
  - destruct (calc_mass_ABC _ _ actuator_types As Ac Aa') as [m [Hm _]]. rewrite Hm. simpl.
    destruct (set_outputs _ _ _ _ _ outs) as [e'|rest]; simpl; [|discriminate].
    intros [= <-]. apply IH. reflexivity.
  - destruct (String.eqb (output_ref o) "failure-rate").
    + destruct (calc_failure_rate GNC _ _ _ _ _) as [e'|v] eqn:Hv; simpl.
      * intros [= <-]. f_equal.
        apply (calc_failure_rate_ABC_error _ _ _ _ _ _ As Ac Aa Hv).
      * destruct (set_outputs _ _ _ _ _ outs) as [e'|rest]; simpl; [|discriminate].
        intros [= <-]. apply IH. reflexivity.
    + simpl. destruct (set_outputs _ _ _ _ _ outs) as [e'|rest]; simpl; [|discriminate].
      intros [= <-]. apply IH. reflexivity.
Qed.

(** The evaluation up to the loop over the outputs. *)
Lemma gnc_json_evaluate_inv (data : json_data) (r : py_result (list output_data)) :
  gnc_json_evaluate data = r ->
  (exists e, r = inl e /\ evaluation_error e) \/
  exists sensor_types computer_types actuator_types conns act_conns,
    _get_element_types data "sensor" = inr sensor_types /\
    _get_element_types data "computer" = inr computer_types /\
    Forall is_ABC sensor_types /\ Forall is_ABC computer_types /\
    match actuator_types, act_conns with
    | Some ats, Some acs =>
        Forall is_ABC ats /\ ats <> [] /\
        _get_element_types data "actuator" = inr ats /\
        _get_element_connections data "computer" "actuator" = inr acs
    | None, None => _get_element_types data "actuator" = inr []
    | _, _ => False
    end /\
    _get_element_connections data "sensor" "computer" = inr conns /\
    r = set_outputs sensor_types computer_types conns actuator_types act_conns
          (outputs data).
Proof.
  unfold gnc_json_evaluate. intros <-.
  destruct (_get_element_types data "sensor") as [e|ts] eqn:Es; simpl.
  { left. exists e. split; [reflexivity|].
    destruct (get_element_types_error _ _ _ Es) as [->| ->]; unfold evaluation_error; auto. }
  destruct (_get_element_types data "computer") as [e|tc] eqn:Ec; simpl.
  { left. exists e. split; [reflexivity|].
    destruct (get_element_types_error _ _ _ Ec) as [->| ->]; unfold evaluation_error; auto. }
  destruct (_get_element_types data "actuator") as [e|ta] eqn:Ea; simpl.
  { left. exists e. split; [reflexivity|].
    destruct (get_element_types_error _ _ _ Ea) as [->| ->]; unfold evaluation_error; auto. }
  destruct (_get_element_connections data "sensor" "computer") as [e|c1] eqn:E1; simpl.
  { left. exists e. split; [reflexivity|].
    destruct (get_element_connections_error _ _ _ _ E1) as [msg ->].
    unfold evaluation_error; eauto. }
  pose proof (proj1 (get_element_types_ABC _ _ _ Es)) as As.
  pose proof (proj1 (get_element_types_ABC _ _ _ Ec)) as Ac.
  pose proof (proj1 (get_element_types_ABC _ _ _ Ea)) as Aa.
  destruct ta as [|t ta]; simpl.
  - right. exists ts, tc, None, c1, None. auto 10.
  - destruct (_get_element_connections data "computer" "actuator") as [e|c2] eqn:E2; simpl.
    { left. exists e. split; [reflexivity|].
      destruct (get_element_connections_error _ _ _ _ E2) as [msg ->].
      unfold evaluation_error; eauto. }
    right. exists ts, tc, (Some (t :: ta)), c1, (Some c2).
    repeat split; auto. discriminate.
Qed.

(** X16. For a document whose instance indices fit a C long, the
    evaluation raises only an [IndexError] (an instance without attribute
    value, or an edge index out of range), an [AssertionError] (a label
    other than A, B, C) or the [RuntimeError] of an unknown target id: never
    a [KeyError] or a [TypeError] of the calculator. *)
Theorem json_evaluation_errors (data : json_data) (e : py_exn) :
  indices_fit data ->
  gnc_json_evaluate data = inl e -> evaluation_error e.
Proof.
  intros _ H. destruct (gnc_json_evaluate_inv data _ H) as [[e' [[= <-] He]]|X];
    [exact He|].
  destruct X as [ts [tc [ta [c1 [c2 [_ [_ [As [Ac [Aa [_ E]]]]]]]]]]].
  left. symmetry in E.
  assert (Aa' : match ta, c2 with
                | Some ats, Some _ => Forall is_ABC ats
                | None, None => True
                | _, _ => False
                end).
  { destruct ta, c2; try contradiction; [apply Aa|exact I]. }
  apply (set_outputs_error ts tc c1 ta c2 (outputs data) e As Ac Aa' E).
Qed.

Lemma json_evaluation_errors_witness :
  let data :=
    {| components := [
         {| ref := "sensor";
            instances := [
              {| index := 0; attributes := [{| values := ["A"%string] |}];
                 outputPorts := [{| targetIds := ["c1"%string] |}];
                 inputPorts := [] |}] |}]%string;
       outputs := [] |} in
  indices_fit data /\
  gnc_json_evaluate data = inl (RuntimeError "Target ID not found: c1") /\
  evaluation_error (RuntimeError "Target ID not found: c1").
Proof.
  intros data.
  assert (F : indices_fit data).
  { repeat constructor; simpl; lia. }
  assert (E : gnc_json_evaluate data = inl (RuntimeError "Target ID not found: c1"))
    by reflexivity.
  split; [exact F|]. split; [exact E|].
  exact (json_evaluation_errors data _ F E).
Defined.

(** X17. When the evaluation returns, the list of outputs keeps its length,
    order and names; an output named mass carries the unit kg and the mass
    [calc_mass] returns on the extracted type lists, which is not negative;
    an output named failure-rate keeps its unit and carries the value
    [calc_failure_rate] returns on the extracted lists; every other output
    is unchanged. *)
Theorem json_outputs_updated (data : json_data) (outs : list output_data) :
  gnc_json_evaluate data = inr outs ->
  exists sensor_types computer_types actuator_types conns act_conns,
    _get_element_types data "sensor" = inr sensor_types /\
    _get_element_types data "computer" = inr computer_types /\
    _get_element_connections data "sensor" "computer" = inr conns /\
    match actuator_types, act_conns with
    | Some ats, Some acs =>
        ats <> [] /\
        _get_element_types data "actuator" = inr ats /\
        _get_element_connections data "computer" "actuator" = inr acs
    | None, None => _get_element_types data "actuator" = inr []
    | _, _ => False
    end /\
    Forall2 (output_updated sensor_types computer_types conns actuator_types act_conns)
            (outputs data) outs.
Proof.
  intros H. destruct (gnc_json_evaluate_inv data _ H) as [[e' [[=] _]]|X].
  destruct X as [ts [tc [ta [c1 [c2 [Es [Ec [As [Ac [Aa [E1 E]]]]]]]]]]].
  symmetry in E.
  assert (Aa' : match ta with Some ats => Forall is_ABC ats | None => True end).
  { destruct ta, c2; try contradiction; [apply Aa|exact I]. }
  exists ts, tc, ta, c1, c2.
  split; [exact Es|]. split; [exact Ec|]. split; [exact E1|].
  split.
  - destruct ta, c2; try contradiction; [|exact Aa].
    destruct Aa as [_ [N [A1 A2]]]. auto.
  - apply (set_outputs_spec ts tc c1 ta c2 (outputs data) outs As Ac Aa' E).
Qed.

Lemma json_outputs_updated_witness :
  exists outs,
    gnc_json_evaluate sample_data = inr outs /\
    Forall2 (output_updated ["A"; "B"]%string ["C"; "A"]%string
               [(0, 0); (1, 0); (1, 1)]%Z None None)
            (outputs sample_data) outs.
Proof.
  eexists. split; [reflexivity|].
  match goal with
  | |- Forall2 _ _ ?o =>
      destruct (json_outputs_updated sample_data o eq_refl)
        as [ts [tc [ta [c1 [c2 [Es [Ec [E1 [Ea U]]]]]]]]]
  end.
  vm_compute in Es, Ec, E1.
  injection Es as Es. injection Ec as Ec. injection E1 as E1. subst ts tc c1.
  destruct ta, c2; try contradiction.
  - destruct Ea as [N [Ea _]]. vm_compute in Ea. injection Ea as Ea.
    exfalso. apply N. symmetry. exact Ea.
  - exact U.
Defined.

Lemma in_connections_of (data : json_data) (src_ref : string) (c : Z * string) :
  In c (connections_of (components data) src_ref) ->
  exists instance, In instance (stage_instances data src_ref) /\ fst c = index instance.
Proof.
  unfold connections_of, stage_instances. intros H.
  apply in_flat_map in H as [comp [Hc H]].
  destruct (String.eqb (ref comp) src_ref) eqn:E; [|destruct H].
  apply in_flat_map in H as [inst [Hi H]].
  unfold instance_connections in H. apply in_flat_map in H as [port [_ H]].
  apply in_map_iff in H as [t [<- _]].
  exists inst. split; [|reflexivity].
  apply in_flat_map. exists comp. rewrite E. auto.
Qed.

Lemma well_indexed_bound (data : json_data) (r : string) (instance : instance_data) :
  well_indexed data r -> In instance (stage_instances data r) ->
  exists k, (k < length (stage_instances data r))%nat /\ index instance = Z.of_nat k.
Proof.
  unfold well_indexed. intros W H.
  apply (in_map index) in H. rewrite W in H.
  apply in_map_iff in H as [k [<- Hk]]. apply in_seq in Hk. exists k. split; [lia|reflexivity].
Qed.

Lemma json_edges_resolvable (data : json_data) (src_ref tgt_ref : string)
    (es : list edge) :
  well_indexed data src_ref -> well_indexed data tgt_ref ->
  _get_element_connections data src_ref tgt_ref = inr es ->
  all_resolvable (length (stage_instances data src_ref))
                 (length (stage_instances data tgt_ref)) es = true.
Proof.
  intros Ws Wt H. unfold all_resolvable. apply forallb_forall. intros e He.
  apply connection_indices_inr in H.
  assert (X : exists c, In c (connections_of (components data) src_ref) /\
              fst e = fst c /\
              dict_get (target_assignments (components data) src_ref tgt_ref) (snd c)
              = Some (snd e)).
  { clear -H He. induction H as [|c e' l es' [H1 H2] _ IH]; [destruct He|].
    destruct He as [<-|He].
    - exists c. split; [left; reflexivity|auto].
    - destruct (IH He) as [c' [Hc' R]]. exists c'. split; [right; exact Hc'|exact R]. }
  destruct X as [c [Hc [E1 E2]]].
  apply in_connections_of in Hc as [si [Hsi Esi]].
  apply dict_get_in, in_target_assignments in E2
    as [comp [ti [port [Hcomp [Et [_ [Hti [_ [_ Eti]]]]]]]]].
  assert (Hti' : In ti (stage_instances data tgt_ref)).
  { unfold stage_instances. apply in_flat_map. exists comp.
    apply String.eqb_eq in Et. rewrite Et. auto. }
  destruct (well_indexed_bound _ _ _ Ws Hsi) as [a [La Ea]].
  destruct (well_indexed_bound _ _ _ Wt Hti') as [b [Lb Eb]].
  unfold resolvable. rewrite E1, Esi, Ea, <- Eti, Eb.
  rewrite !resolve_index_of_nat by assumption. reflexivity.
Qed.

Lemma set_outputs_total (sensor_types computer_types : list string)
    (conns : list edge) (actuator_types : option (list string))
    (act_conns : option (list edge)) (outs : list output_data) (m : Q) (v : xreal) :
  calc_mass GNC sensor_types computer_types actuator_types = inr m ->
  calc_failure_rate GNC sensor_types computer_types conns actuator_types act_conns = inr v ->
  exists outs',
    set_outputs sensor_types computer_types conns actuator_types act_conns outs = inr outs'.
Proof.
  intros Hm Hv. induction outs as [|o outs [rest IH]]; simpl; [eauto|].
  rewrite Hm, Hv, IH. simpl.
  destruct (String.eqb (output_ref o) "mass"); simpl; [eauto|].
  destruct (String.eqb (output_ref o) "failure-rate"); simpl; eauto.
Qed.

(** X18. A document evaluates without exception as soon as every instance
    of the three stages has a first attribute value among A, B, C, the
    instances of each stage carry the indices 0, 1, ... in document order,
    and every target id listed is the id of an input port of the next
    stage. *)
Theorem json_evaluation_succeeds (data : json_data) :
  well_typed data "sensor" -> well_typed data "computer" -> well_typed data "actuator" ->
  well_indexed data "sensor" -> well_indexed data "computer" ->
  well_indexed data "actuator" ->
  targets_known data "sensor" "computer" ->
  (stage_instances data "actuator" <> [] -> targets_known data "computer" "actuator") ->
  exists outs, gnc_json_evaluate data = inr outs.
Proof.
  intros Ts Tc Ta Is Ic Ia K1 K2. unfold gnc_json_evaluate.
  destruct (get_element_types_total _ _ Ts) as [ts Es].
  destruct (get_element_types_total _ _ Tc) as [tc Ec].
  destruct (get_element_types_total _ _ Ta) as [ta Ea].
  rewrite Es, Ec, Ea. simpl.
  destruct (get_element_types_ABC _ _ _ Es) as [As Ls].
  destruct (get_element_types_ABC _ _ _ Ec) as [Ac Lc].
  destruct (get_element_types_ABC _ _ _ Ea) as [Aa La].
  destruct (proj1 (proj1 (json_unknown_target_aux data "sensor" "computer")) K1) as [c1 E1].
  rewrite E1. simpl.
  pose proof (json_edges_resolvable _ _ _ _ Is Ic E1) as R1. rewrite <- Ls, <- Lc in R1.
  destruct (ABC_known S_ _ As) as [_ Fs]. destruct (ABC_known C_ _ Ac) as [_ Fc].
  destruct ta as [|t ta]; simpl.
  - destruct (calc_mass_ABC ts tc None As Ac I) as [m [Hm _]].
    pose proof (calc_failure_rate_outcome_aux GNC ts tc c1 None None) as O.
    unfold calc_failure_rate_exception, edges_exception in O.
    rewrite Fs, Fc in O. cbv zeta in O. rewrite R1 in O. destruct O as [v Hv].
    apply (set_outputs_total _ _ _ _ _ _ m v Hm Hv).
  - assert (Hne : stage_instances data "actuator" <> []).
    { intros Z. rewrite Z in La. discriminate. }
    destruct (proj1 (proj1 (json_unknown_target_aux data "computer" "actuator")) (K2 Hne))
      as [c2 E2].
    rewrite E2. simpl.
    pose proof (json_edges_resolvable _ _ _ _ Ic Ia E2) as R2. rewrite <- Lc, <- La in R2.
    destruct (ABC_known A_ _ Aa) as [_ Fa].
    destruct (calc_mass_ABC ts tc (Some (t :: ta)) As Ac Aa) as [m [Hm _]].
    pose proof (calc_failure_rate_outcome_aux GNC ts tc c1 (Some (t :: ta)) (Some c2)) as O.
    unfold calc_failure_rate_exception, edges_exception in O.
    rewrite Fs, Fc, Fa in O. cbv zeta in O. rewrite R1, R2 in O. destruct O as [v Hv].
    apply (set_outputs_total _ _ _ _ _ _ m v Hm Hv).
Qed.

Lemma json_evaluation_succeeds_witness :
  exists outs, gnc_json_evaluate sample_data = inr outs.
Proof.
  apply json_evaluation_succeeds.
  - repeat constructor; eexists; reflexivity.
  - repeat constructor; eexists; reflexivity.
  - constructor.
  - reflexivity.
  - reflexivity.
  - reflexivity.
  - repeat constructor; discriminate.
  - intros H. exfalso. apply H. reflexivity.
Defined.

(* ===================================================================== *)
(** ** The XML node factory evaluator *)

Lemma split_comma_nonempty (text : string) : split_comma text <> [].
Proof.
  destruct text as [|c rest]; simpl; [discriminate|].
  destruct (Ascii.eqb c ","); [discriminate|].
  destruct (split_comma rest); discriminate.
Qed.

Lemma join_comma_cons (piece : string) (pieces : list string) :
  pieces <> [] ->
  join_comma (piece :: pieces) = (piece ++ String "," (join_comma pieces))%string.
Proof.
  destruct pieces; [congruence|reflexivity].
Qed.

Lemma join_comma_String (c : ascii) (piece : string) (pieces : list string) :
  join_comma (String c piece :: pieces) = String c (join_comma (piece :: pieces)).
Proof.
  destruct pieces; reflexivity.
Qed.

(** X19. [split(',')] cuts a text at its commas: joining the pieces with
    commas gives the text back, there is one piece more than there are
    commas (so never no piece), and no piece holds a comma. *)
Theorem split_comma_spec (text : string) :
  join_comma (split_comma text) = text /\
  length (split_comma text) = S (count_commas text) /\
  Forall (fun piece => count_commas piece = 0%nat) (split_comma text).
Proof.
  induction text as [|c rest [IHj [IHl IHf]]]; simpl.
  - repeat split. repeat constructor.
  - destruct (Ascii.eqb c ",") eqn:E.
    + apply Ascii.eqb_eq in E. subst c. split; [|split].
      * rewrite join_comma_cons by apply split_comma_nonempty. simpl. rewrite IHj.
        reflexivity.
      * simpl. rewrite IHl. reflexivity.
      * constructor; [reflexivity|exact IHf].
    + destruct (split_comma rest) as [|piece pieces] eqn:S; [discriminate|].
      split; [|split].
      * rewrite join_comma_String, IHj. reflexivity.
      * simpl in *. exact IHl.
      * inversion IHf; subst. constructor; [simpl; rewrite E; assumption|assumption].
Qed.

Section XmlTree.

Variable etree : Type.
Variable xpath : etree -> string -> list xml_element.

Lemma xml_element_types_ABC (els : list xml_element) (ts : list string) :
  Xml.element_types els = inr ts -> Forall is_ABC ts /\ length ts = length els.
Proof.
  revert ts. induction els as [|el els IH]; intros ts; simpl.
  - intros [= <-]. split; [constructor|reflexivity].
  - unfold Xml.element_type at 1.
    destruct (type_child el) as [[t|]|]; simpl; try discriminate.
    destruct (String.eqb t "A") eqn:EA; [|destruct (String.eqb t "B") eqn:EB;
      [|destruct (String.eqb t "C") eqn:EC; [|discriminate]]]; simpl;
      (destruct (Xml.element_types els) as [e|ts'] eqn:E'; simpl; [discriminate|]);
      intros [= <-]; destruct (IH ts' eq_refl) as [A L];
      (split; [constructor; [|exact A]|simpl; congruence]).
    + apply String.eqb_eq in EA. left. exact EA.
    + apply String.eqb_eq in EB. right. left. exact EB.
    + apply String.eqb_eq in EC. right. right. exact EC.
Qed.

Lemma tgt_uid_assignments_range (els : list xml_element) :
  forall (i : nat) (m : list (string * Z)),
    Xml.tgt_uid_assignments i els = inr m ->
    forall k v, In (k, v) m -> (Z.of_nat i <= v < Z.of_nat (i + length els))%Z.
Proof.
  induction els as [|el els IH]; intros i m; simpl.
  - intros [= <-] k v [].
  - destruct (uID el) as [uid|]; [|discriminate].
    destruct (Xml.tgt_uid_assignments (i + 1) els) as [e|m'] eqn:E; simpl; [discriminate|].
    intros [= <-] k v [[= <- <-]|H]; [lia|].
    specialize (IH _ _ E k v H). lia.
Qed.

Lemma uid_connections_spec (m : list (string * Z)) (i : nat) (uids : list string)
    (es : list edge) :
  Xml.uid_connections m i uids = inr es ->
  length es = length uids /\
  Forall (fun e => fst e = Z.of_nat i /\ exists k, In (k, snd e) m) es.
Proof.
  revert es. induction uids as [|u uids IH]; intros es; simpl.
  - intros [= <-]. split; [reflexivity|constructor].
  - destruct (dict_get m u) as [j|] eqn:D; [|discriminate].
    destruct (Xml.uid_connections m i uids) as [e|es']; simpl; [discriminate|].
    intros [= <-]. destruct (IH es' eq_refl) as [L F]. split; [simpl; congruence|].
    constructor; [|exact F]. simpl. split; [reflexivity|].
    exists u. apply dict_get_in. exact D.
Qed.

Lemma src_connections_spec (m : list (string * Z)) (els : list xml_element) :
  forall (i : nat) (es : list edge),
    Xml.src_connections m i els = inr es ->
    Forall (fun e => (Z.of_nat i <= fst e < Z.of_nat (i + length els))%Z /\
                     exists k, In (k, snd e) m) es /\
    forall a, (i <= a < i + length els)%nat -> exists j, In (Z.of_nat a, j) es.
Proof.
  induction els as [|el els IH]; intros i es; simpl.
  - intros [= <-]. split; [constructor|]. intros a Ha. lia.
  - destruct (targets_child el) as [[text|]|]; try discriminate.
    destruct (Xml.uid_connections m i (split_comma text)) as [e|es1] eqn:E1; simpl;
      [discriminate|].
    destruct (Xml.src_connections m (i + 1) els) as [e|es2] eqn:E2; simpl; [discriminate|].
    intros [= <-]. destruct (uid_connections_spec _ _ _ _ E1) as [L1 F1].
    destruct (IH _ _ E2) as [F2 C2]. split.
    + apply Forall_app. split.
      * eapply Forall_impl; [|exact F1]. intros e [H1 H2]. split; [lia|exact H2].
      * eapply Forall_impl; [|exact F2]. intros e [H1 H2]. split; [lia|exact H2].
    + intros a Ha. destruct (Nat.eq_dec a i) as [->|Hne].
      * destruct es1 as [|[x j] es1].
        { exfalso. simpl in L1. symmetry in L1. apply length_zero_iff_nil in L1.
          exact (split_comma_nonempty text L1). }
        inversion F1 as [|? ? [Hx _] _]; subst. simpl in Hx. subst x.
        exists j. left. reflexivity.
      * destruct (C2 a ltac:(lia)) as [j Hj]. exists j. apply in_or_app. right. exact Hj.
Qed.

Lemma xml_connections_in_range (tree : etree) (src_xpath tgt_xpath : string)
    (es : list edge) :
  Xml._get_element_connections etree xpath tree src_xpath tgt_xpath = inr es ->
  Forall (in_range (length (xpath tree src_xpath)) (length (xpath tree tgt_xpath))) es /\
  forall a, (a < length (xpath tree src_xpath))%nat -> exists j, In (Z.of_nat a, j) es.
Proof.
  unfold Xml._get_element_connections.
  destruct (Xml.tgt_uid_assignments 0 (xpath tree tgt_xpath)) as [e|m] eqn:Em; simpl;
    [discriminate|].
  intros H. destruct (src_connections_spec _ _ _ _ H) as [F C]. split.
  - eapply Forall_impl; [|exact F]. intros e [H1 [k H2]].
    pose proof (tgt_uid_assignments_range _ _ _ Em k _ H2) as R.
    unfold in_range. simpl in *. lia.
  - intros a Ha. apply C. lia.
Qed.

Lemma in_range_resolvable (n m : nat) (es : list edge) :
  Forall (in_range n m) es -> all_resolvable n m es = true.
Proof.
  intros H. unfold all_resolvable. apply forallb_forall. intros e He.
  rewrite Forall_forall in H. destruct (H e He) as [[A1 A2] [B1 B2]].
  unfold resolvable, resolve_index.
  replace ((0 <=? fst e) && (fst e <? Z.of_nat n))%Z with true
    by (symmetry; apply andb_true_iff; split; [apply Z.leb_le|apply Z.ltb_lt]; lia).
  replace ((0 <=? snd e) && (snd e <? Z.of_nat m))%Z with true
    by (symmetry; apply andb_true_iff; split; [apply Z.leb_le|apply Z.ltb_lt]; lia).
  reflexivity.
Qed.

(** X20. The edges [_get_element_connections] returns join positions of
    the selected elements: every source index is below the number of source
    elements, every target index below the number of target elements, none
    is negative; and every source element has at least one edge. *)
Theorem xml_connections_positions (tree : etree) (src_xpath tgt_xpath : string)
    (es : list edge) :
  Xml._get_element_connections etree xpath tree src_xpath tgt_xpath = inr es ->
  Forall (in_range (length (xpath tree src_xpath)) (length (xpath tree tgt_xpath))) es /\
  forall a, (a < length (xpath tree src_xpath))%nat -> exists j, In (Z.of_nat a, j) es.
Proof.
  apply xml_connections_in_range.
Qed.

(** X21. What the two methods extract is always accepted by the
    calculator: on the labels and edges read from one tree,
    [calc_failure_rate] of the class returns a finite value that is at most
    0, without and with the actuator stage. *)
Theorem xml_extraction_is_accepted (tree : etree)
    (sensor_path computer_path actuator_path : string)
    (sensor_types computer_types : list string) (conns : list edge) :
  Xml._get_element_types etree xpath tree sensor_path = inr sensor_types ->
  Xml._get_element_types etree xpath tree computer_path = inr computer_types ->
  Xml._get_element_connections etree xpath tree sensor_path computer_path = inr conns ->
  (exists x, calc_failure_rate GNC sensor_types computer_types conns None None
             = inr (Finite x) /\ (x <= 0)%R) /\
  forall actuator_types act_conns,
    Xml._get_element_types etree xpath tree actuator_path = inr actuator_types ->
    Xml._get_element_connections etree xpath tree computer_path actuator_path
      = inr act_conns ->
    exists x, calc_failure_rate GNC sensor_types computer_types conns
                (Some actuator_types) (Some act_conns)
              = inr (Finite x) /\ (x <= 0)%R.
Proof.
  intros Hs Hc H1.
  apply xml_element_types_ABC in Hs as [As Ls]. apply xml_element_types_ABC in Hc as [Ac Lc].
  destruct (xml_connections_in_range _ _ _ _ H1) as [R1 _].
  apply in_range_resolvable in R1. rewrite <- Ls, <- Lc in R1.
  destruct (ABC_known S_ _ As) as [_ Fs]. destruct (ABC_known C_ _ Ac) as [_ Fc].
  split.
  - pose proof (calc_failure_rate_outcome_aux GNC sensor_types computer_types conns
                  None None) as O.
    unfold calc_failure_rate_exception, edges_exception in O.
    rewrite Fs, Fc in O. cbv zeta in O. rewrite R1 in O. destruct O as [v Hv].
    destruct (calc_failure_rate_finite GNC _ _ _ _ _ v GNC_positive Hv) as [x [-> Hx]].
    eauto.
  - intros ta c2 Ha H2.
    apply xml_element_types_ABC in Ha as [Aa La].
    destruct (xml_connections_in_range _ _ _ _ H2) as [R2 _].
    apply in_range_resolvable in R2. rewrite <- Lc, <- La in R2.
    destruct (ABC_known A_ _ Aa) as [_ Fa].
    pose proof (calc_failure_rate_outcome_aux GNC sensor_types computer_types conns
                  (Some ta) (Some c2)) as O.
    unfold calc_failure_rate_exception, edges_exception in O.
    rewrite Fs, Fc, Fa in O. cbv zeta in O. rewrite R1, R2 in O. destruct O as [v Hv].
    destruct (calc_failure_rate_finite GNC _ _ _ _ _ v GNC_positive Hv) as [x [-> Hx]].
    eauto.
Qed.

(** X22. The two methods raise nothing else than: [_get_element_types] an
    [AttributeError] (no [type] child) or an [AssertionError] (a label
    other than A, B, C); [_get_element_connections] an [AttributeError]
    (no [targets] child, or one without text) or a [KeyError] (a target
    element without [uID], or a target uid that no target element has). *)
Theorem xml_extraction_errors (tree : etree) (path path' : string) (e : py_exn) :
  (Xml._get_element_types etree xpath tree path = inl e ->
   e = AttributeError \/ e = AssertionError) /\
  (Xml._get_element_connections etree xpath tree path path' = inl e ->
   e = AttributeError \/ exists key, e = Raised (KeyError key)).
Proof.
  split.
  - unfold Xml._get_element_types.
    induction (xpath tree path) as [|el els IH]; simpl; [discriminate|].
    unfold Xml.element_type at 1.
    destruct (type_child el) as [[t|]|]; simpl; try (intros [= <-]; auto; fail).
    destruct (_ || _)%bool; simpl; [|intros [= <-]; auto].
    destruct (Xml.element_types els) as [e'|ts]; simpl; [|discriminate].
    intros [= <-]. apply IH. reflexivity.
  - unfold Xml._get_element_connections.
    destruct (Xml.tgt_uid_assignments 0 (xpath tree path')) as [e'|m] eqn:Em; simpl.
    + intros [= <-]. right. clear -Em. revert Em. generalize 0%nat.
      induction (xpath tree path') as [|el els IH]; intros i; simpl; [discriminate|].
      destruct (uID el); [|intros [= <-]; eauto].
      destruct (Xml.tgt_uid_assignments (i + 1) els) as [e|m'] eqn:E; simpl; [|discriminate].
      intros [= <-]. apply (IH _ E).
    + generalize 0%nat. induction (xpath tree path) as [|el els IH]; intros i; simpl;
        [discriminate|].
      destruct (targets_child el) as [[text|]|]; try (intros [= <-]; auto; fail).
      destruct (Xml.uid_connections m i (split_comma text)) as [e1|es1] eqn:E1; simpl.
      * intros [= <-]. right. clear -E1. revert E1.
        induction (split_comma text) as [|u us IHu]; simpl; [discriminate|].
        destruct (dict_get m u); [|intros [= <-]; eauto].
        destruct (Xml.uid_connections m i us) as [e|es]; simpl; [|discriminate].
        intros [= <-]. apply IHu. reflexivity.
      * destruct (Xml.src_connections m (i + 1) els) as [e2|es2] eqn:E2; simpl;
          [|discriminate].
        intros [= <-]. apply (IH _ E2).
Qed.

End XmlTree.

Lemma xml_connections_positions_witness :
  Forall (in_range 2 2) [(0, 0); (0, 1); (1, 1)]%Z /\
  forall a, (a < 2)%nat -> exists j, In (Z.of_nat a, j) [(0, 0); (0, 1); (1, 1)]%Z.
Proof.
  exact (xml_connections_positions sample_tree sample_xpath sample_xml
           "/gnc/sensors/sensor" "/gnc/computers/computer"
           [(0, 0); (0, 1); (1, 1)]%Z eq_refl).
Defined.

Lemma xml_extraction_is_accepted_witness :
  exists x, calc_failure_rate GNC ["B"; "A"]%string ["B"; "C"]%string
              [(0, 0); (0, 1); (1, 1)]%Z (Some ["A"%string]) (Some [(0, 0); (1, 0)]%Z)
            = inr (Finite x) /\ (x <= 0)%R.
Proof.
  destruct (xml_extraction_is_accepted sample_tree sample_xpath sample_xml
              "/gnc/sensors/sensor" "/gnc/computers/computer" "/gnc/actuators/actuator"
              ["B"; "A"]%string ["B"; "C"]%string [(0, 0); (0, 1); (1, 1)]%Z
              eq_refl eq_refl eq_refl) as [_ H].
  exact (H ["A"%string] [(0, 0); (1, 0)]%Z eq_refl eq_refl).
Defined.
